(** * Merge-conflict resolver of OSV-Scalibr: a shallow embedding

    The development follows [conflict-resolver.py]: the string operations of
    Python that the resolver uses, the backtracking regular expressions of
    [re], and then the methods of [MergeConflictResolver], each under the
    name it has in the source.

    Text is a list of characters.  A character is one of the code points
    0..255, so the character classes below are the Unicode classes of
    Python 3 restricted to that range. *)

From Stdlib Require Import Ascii String NArith Lia.
From stdpp Require Import gmap strings list sorting.

Abbreviation str := (list ascii).

(** ** Python's [str] operations *)
Module Str.

Definition lit (s : string) : str := list_ascii_of_string s.

Definition nl : ascii := ascii_of_nat 10.
Definition tab : ascii := ascii_of_nat 9.
Definition dquote : ascii := ascii_of_nat 34.

Definition code (c : ascii) : N := N_of_ascii c.

Definition between (lo hi : N) (c : ascii) : bool :=
  ((lo <=? code c) && (code c <=? hi))%N.

(** [str.isspace], which is also [\s] of [re] on [str] patterns. *)
Definition is_space (c : ascii) : bool :=
  between 9 13 c || between 28 32 c || between 133 133 c || between 160 160 c.

(** [\d]: the decimal digits. *)
Definition is_digit (c : ascii) : bool := between 48 57 c.

(** [\w]: alphanumeric characters and the underscore. *)
Definition is_word (c : ascii) : bool :=
  is_digit c || between 65 90 c || between 97 122 c || between 95 95 c
  || between 170 170 c || between 178 179 c || between 181 181 c
  || between 185 186 c || between 188 190 c || between 192 214 c
  || between 216 246 c || between 248 255 c.

Definition ascii_eqb (a b : ascii) : bool := (code a =? code b)%N.

Fixpoint lstrip (s : str) : str :=
  match s with
  | c :: s' => if is_space c then lstrip s' else s
  | [] => []
  end.

Fixpoint rstrip (s : str) : str :=
  match s with
  | c :: s' =>
      match rstrip s' with
      | [] => if is_space c then [] else [c]
      | t => c :: t
      end
  | [] => []
  end.

Definition strip (s : str) : str := lstrip (rstrip s).

(** [s.startswith(p)] *)
Fixpoint startswith (p s : str) : bool :=
  match p, s with
  | [], _ => true
  | a :: p', b :: s' => ascii_eqb a b && startswith p' s'
  | _ :: _, [] => false
  end.

(** [p in s] *)
Fixpoint contains (p s : str) : bool :=
  startswith p s ||
  match s with
  | _ :: s' => contains p s'
  | [] => false
  end.

(** [s.replace(old, new)]: every occurrence of [old], left to right, without
    overlap.  [skip] counts the characters of an occurrence still to drop. *)
Fixpoint replace_from (old new : str) (skip : nat) (s : str) : str :=
  match s with
  | c :: s' =>
      match skip with
      | S n => replace_from old new n s'
      | O =>
          if startswith old s
          then new ++ replace_from old new (pred (length old)) s'
          else c :: replace_from old new 0 s'
      end
  | [] => []
  end.

Definition replace (old new s : str) : str :=
  match old with
  | [] => new ++ flat_map (fun c => c :: new) s
  | _ :: _ => replace_from old new 0 s
  end.

(** [s.split('\n')] *)
Fixpoint split_nl (s : str) : list str :=
  match s with
  | c :: s' =>
      if ascii_eqb c nl then [] :: split_nl s'
      else match split_nl s' with
           | l :: ls => (c :: l) :: ls
           | [] => [[c]]
           end
  | [] => [[]]
  end.

(** ['\n'.join(ls)] *)
Fixpoint join_nl (ls : list str) : str :=
  match ls with
  | [] => []
  | [l] => l
  | l :: ls' => l ++ nl :: join_nl ls'
  end.

(** The text whose lines are [ls]. *)
Definition text (ls : list string) : str := join_nl (map lit ls).

(** [int(s)] on a string of decimal digits.  Integers are unbounded; the
    limit that recent interpreters put on the number of digits of a
    conversion (4300 by default) is left out. *)
Definition digit_val (c : ascii) : N := (code c - 48)%N.

Definition int_from (acc : N) (s : str) : N :=
  fold_left (fun acc c => (10 * acc + digit_val c)%N) s acc.

Definition int (s : str) : N := int_from 0 s.

(** [str(n)], which is what an f-string prints for an [int]. *)
Definition digit_char (d : N) : ascii := ascii_of_N (48 + d).

Fixpoint digits (fuel : nat) (n : N) (acc : str) : str :=
  let acc' := digit_char (n mod 10) :: acc in
  match fuel with
  | S f => if (n <? 10)%N then acc' else digits f (n / 10) acc'
  | O => acc'
  end.

Definition str_of_int (n : N) : str := digits (N.to_nat (N.log2 n)) n [].

(** Comparison of [str] values: lexicographic on code points. *)
Fixpoint str_leb (a b : str) : bool :=
  match a, b with
  | [], _ => true
  | _ :: _, [] => false
  | x :: a', y :: b' =>
      if (code x <? code y)%N then true
      else if (code y <? code x)%N then false
      else str_leb a' b'
  end.

Definition str_le (a b : str) : Prop := str_leb a b = true.

#[global] Instance str_le_dec (a b : str) : Decision (str_le a b).
Proof. unfold str_le. apply _. Defined.

(** [sorted(l)] on a list of strings. *)
Definition sorted (l : list str) : list str := merge_sort str_le l.

End Str.

Import Str.

(** ** Regular expressions of [re]

    The matcher is the backtracking matcher of [re]: alternatives are tried
    in order, a greedy repetition tries the longest run first, a lazy one the
    shortest, and the first way that lets the rest of the pattern succeed is
    the match.  Every quantifier of the resolver's patterns applies to a
    single character class, which is what [Rep] covers. *)
Module Re.

Inductive regex : Type :=
  | Lit (l : str)                                  (* literal text *)
  | Cls (p : ascii -> bool)                        (* one character of a class *)
  | Rep (greedy : bool) (min : nat) (p : ascii -> bool)
                                                   (* p* p+ p*? *)
  | Seq (r1 r2 : regex)
  | Alt (r1 r2 : regex)
  | Grp (n : nat) (r : regex)                      (* capturing group n *)
  | Ahead (r : regex)                              (* (?=r) *)
  | Bol                                            (* ^ without MULTILINE *)
  | Eol.                                           (* $ without MULTILINE *)

(** A point of a match attempt: the offset in the subject, the text still to
    read and the groups captured so far (latest first). *)
Record mstate : Type := MState {
  pos : nat;
  rest : str;
  caps : list (nat * str);
}.

Definition advance (n : nat) (st : mstate) : mstate :=
  MState (pos st + n) (drop n (rest st)) (caps st).

(** The text read between two points of one attempt. *)
Definition consumed (st st' : mstate) : str :=
  take (length (rest st) - length (rest st')) (rest st).

Definition capture (n : nat) (st st' : mstate) : mstate :=
  MState (pos st') (rest st') ((n, consumed st st') :: caps st').

Definition orelse {A} (a b : option A) : option A :=
  match a with
  | Some _ => a
  | None => b
  end.

Section Matcher.
Context (k : mstate -> option mstate).

Fixpoint rep_greedy (p : ascii -> bool) (min : nat) (st : mstate) (n : nat)
    (s : str) : option mstate :=
  let stop := match min with O => k (advance n st) | S _ => None end in
  match s with
  | c :: s' =>
      if p c then orelse (rep_greedy p (pred min) st (S n) s') stop else stop
  | [] => stop
  end.

Fixpoint rep_lazy (p : ascii -> bool) (min : nat) (st : mstate) (n : nat)
    (s : str) : option mstate :=
  let more :=
    match s with
    | c :: s' => if p c then rep_lazy p (pred min) st (S n) s' else None
    | [] => None
    end in
  match min with
  | O => orelse (k (advance n st)) more
  | S _ => more
  end.
End Matcher.

Fixpoint rmatch (r : regex) (st : mstate) (k : mstate -> option mstate)
    : option mstate :=
  match r with
  | Lit l => if startswith l (rest st) then k (advance (length l) st) else None
  | Cls p =>
      match rest st with
      | c :: _ => if p c then k (advance 1 st) else None
      | [] => None
      end
  | Rep true min p => rep_greedy k p min st 0 (rest st)
  | Rep false min p => rep_lazy k p min st 0 (rest st)
  | Seq r1 r2 => rmatch r1 st (fun st1 => rmatch r2 st1 k)
  | Alt r1 r2 => orelse (rmatch r1 st k) (rmatch r2 st k)
  | Grp n r => rmatch r st (fun st1 => k (capture n st st1))
  | Ahead r =>
      match rmatch r st Some with
      | Some _ => k st
      | None => None
      end
  | Bol => match pos st with O => k st | S _ => None end
  | Eol =>
      match rest st with
      | [] => k st
      | [c] => if ascii_eqb c nl then k st else None
      | _ => None
      end
  end.

(** A match object: where it starts, [group(0)] and the numbered groups. *)
Record rmatch_obj : Type := Match {
  m_start : nat;
  m_text : str;
  m_groups : list (nat * str);
}.

Fixpoint assoc (n : nat) (l : list (nat * str)) : option str :=
  match l with
  | (i, v) :: l' => if Nat.eqb i n then Some v else assoc n l'
  | [] => None
  end.

(** [m.group(n)] for [n >= 1]; every group of the patterns below takes part
    in every match, so the default is never used. *)
Definition group (m : rmatch_obj) (n : nat) : str :=
  match assoc n (m_groups m) with
  | Some v => v
  | None => []
  end.

(** One attempt at offset [p], where [s] is the subject from [p] on. *)
Definition match_at (r : regex) (p : nat) (s : str) : option rmatch_obj :=
  let st := MState p s [] in
  match rmatch r st Some with
  | Some e => Some (Match p (consumed st e) (caps e))
  | None => None
  end.

(** [re.match(r, s)] *)
Definition re_match (r : regex) (s : str) : option rmatch_obj := match_at r 0 s.

(** [re.search(r, s)]: the first offset with a match. *)
Fixpoint search_from (r : regex) (p : nat) (s : str) : option rmatch_obj :=
  match match_at r p s with
  | Some m => Some m
  | None =>
      match s with
      | _ :: s' => search_from r (S p) s'
      | [] => None
      end
  end.

Definition re_search (r : regex) (s : str) : option rmatch_obj :=
  search_from r 0 s.

(** [re.finditer(r, s)]: successive matches without overlap.  [skip] counts
    the characters of the last match still to pass; after an empty match the
    scan moves on by one character. *)
Fixpoint finditer_from (r : regex) (p skip : nat) (s : str)
    : list rmatch_obj :=
  match skip with
  | S n =>
      match s with
      | _ :: s' => finditer_from r (S p) n s'
      | [] => []
      end
  | O =>
      match match_at r p s, s with
      | Some m, _ :: s' => m :: finditer_from r (S p) (pred (length (m_text m))) s'
      | Some m, [] => [m]
      | None, _ :: s' => finditer_from r (S p) 0 s'
      | None, [] => []
      end
  end.

Definition finditer (r : regex) (s : str) : list rmatch_obj :=
  finditer_from r 0 0 s.

(** What a pattern allows, without the order of the attempts: [Matches r st
    st'] when [r] can read from [st] up to [st']. *)
Fixpoint Matches (r : regex) (st st' : mstate) : Prop :=
  match r with
  | Lit l => startswith l (rest st) = true /\ st' = advance (length l) st
  | Cls p => (exists c s', rest st = c :: s' /\ p c = true) /\ st' = advance 1 st
  | Rep _ min p =>
      exists n, min <= n <= length (rest st)
                /\ forallb p (take n (rest st)) = true /\ st' = advance n st
  | Seq r1 r2 => exists st1, Matches r1 st st1 /\ Matches r2 st1 st'
  | Alt r1 r2 => Matches r1 st st' \/ Matches r2 st st'
  | Grp n r => exists st1, Matches r st st1 /\ st' = capture n st st1
  | Ahead r => (exists st1, Matches r st st1) /\ st' = st
  | Bol => pos st = 0 /\ st' = st
  | Eol => (rest st = [] \/ rest st = [nl]) /\ st' = st
  end.

(** The text goes on with something that is not in the class. *)
Definition stops (p : ascii -> bool) (s : str) : Prop :=
  match s with
  | c :: _ => p c = false
  | [] => True
  end.

(** Shorthands for writing patterns. *)
Definition any_char (_ : ascii) : bool := true.                 (* . with DOTALL *)
Definition not_char (c : ascii) (x : ascii) : bool := negb (ascii_eqb x c).
Definition plus (p : ascii -> bool) : regex := Rep true 1 p.
Definition star (p : ascii -> bool) : regex := Rep true 0 p.
Definition lazy_star (p : ascii -> bool) : regex := Rep false 0 p.

Fixpoint cat (rs : list regex) : regex :=
  match rs with
  | [] => Lit []
  | [r] => r
  | r :: rs' => Seq r (cat rs')
  end.

End Re.

Import Re.

(** ** The resolver: [class MergeConflictResolver]

    The pure part of the class is embedded: the parser, the extraction
    functions, the three strategies and the decision that
    [resolve_all_conflicts] takes for one file.  What the class prints and
    what it asks of git, of [protoc] and of the file system is left out,
    except for the import paths that [resolve_go_conflict] reports. *)
Module Resolver.

(** One entry of the list that [parse_conflict_sections] returns. *)
Record conflict : Type := Conflict {
  current_ref : str;
  current_content : str;
  incoming_ref : str;
  incoming_content : str;
  full_match : str;
}.

(** The marker tokens. *)
Definition marker_current : str := lit "<<<<<<< ".
Definition marker_separator : str := lit "=======".
Definition marker_incoming : str := lit ">>>>>>> ".

(** [has_merge_conflicts], on the text of the file; [None] is a path that
    does not exist. *)
Definition has_merge_conflicts (file : option str) : bool :=
  match file with
  | None => false
  | Some content =>
      contains marker_current content && contains marker_separator content
      && contains marker_incoming content
  end.

(** [r'<<<<<<< ([^\n]+)\n(.*?)\n=======\n(.*?)\n>>>>>>> ([^\n]+)'] with
    [re.DOTALL]. *)
Definition conflict_pattern : regex :=
  cat [ Lit marker_current; Grp 1 (plus (not_char nl)); Lit [nl];
        Grp 2 (lazy_star any_char);
        Lit (nl :: marker_separator ++ [nl]);
        Grp 3 (lazy_star any_char);
        Lit (nl :: marker_incoming); Grp 4 (plus (not_char nl)) ].

Definition conflict_of_match (m : rmatch_obj) : conflict :=
  {| current_ref := group m 1;
     current_content := group m 2;
     incoming_ref := group m 4;
     incoming_content := group m 3;
     full_match := m_text m |}.

Definition parse_conflict_sections (content : str) : list conflict :=
  map conflict_of_match (finditer conflict_pattern content).

(** [r'(\w+)\s+(\w+)\s*=\s*(\d+);'] *)
Definition field_pattern : regex :=
  cat [ Grp 1 (plus is_word); plus is_space; Grp 2 (plus is_word);
        star is_space; Lit (lit "="); star is_space;
        Grp 3 (plus is_digit); Lit (lit ";") ].

(** [entries] and [max_number] of [extract_oneof_entries]; a field name maps
    to its type and number. *)
Definition oneof_state : Type := gmap str (str * N) * N.

(** The body of the loop over the lines. *)
Definition oneof_line (st : oneof_state) (line : str) : oneof_state :=
  let line := strip line in
  if bool_decide (line = []) || startswith (lit "//") line then st
  else
    match re_match field_pattern line with
    | Some m =>
        let field_type := group m 1 in
        let field_name := group m 2 in
        let field_number := int (group m 3) in
        (<[field_name := (field_type, field_number)]> (fst st),
         N.max (snd st) field_number)
    | None => st
    end.

Definition extract_oneof_entries (content : str) : oneof_state :=
  fold_left oneof_line (split_nl content) (∅, 0%N).

(** [f"    {field_type} {field_name} = {next_number};"] *)
Definition field_line (field_type field_name : str) (number : N) : str :=
  lit "    " ++ field_type ++ lit " " ++ field_name ++ lit " = "
  ++ str_of_int number ++ lit ";".

(** The same line without its indentation. *)
Definition field_decl (field_type field_name : str) (number : N) : str :=
  field_type ++ lit " " ++ field_name ++ lit " = " ++ str_of_int number
  ++ lit ";".

(** [d[key]] where the key is known to be present. *)
Definition item {V} (d : gmap str V) (key : str) (dflt : V) : V :=
  match d !! key with
  | Some v => v
  | None => dflt
  end.

(** The loop that fills [additional_lines], over the names in the order
    given, counting [next_number] up. *)
Fixpoint additional_lines (current_entries : gmap str (str * N))
    (names : list str) (next_number : N) : list str :=
  match names with
  | field_name :: names' =>
      let field_type := fst (item current_entries field_name ([], 0%N)) in
      field_line field_type field_name next_number
      :: additional_lines current_entries names' (next_number + 1)
  | [] => []
  end.

(** [r'^\s*QUOTE([^QUOTE]+)QUOTE'] and [r'^\s*\w+\s+QUOTE([^QUOTE]+)QUOTE'],
    where QUOTE is the double quote. *)
Definition import_patterns : list regex :=
  [ cat [ Bol; star is_space; Lit [dquote]; Grp 1 (plus (not_char dquote));
          Lit [dquote] ];
    cat [ Bol; star is_space; plus is_word; plus is_space; Lit [dquote];
          Grp 1 (plus (not_char dquote)); Lit [dquote] ] ].

(** [for pattern in import_patterns: ... break]: the first pattern found in
    the line gives the import path. *)
Fixpoint first_import (patterns : list regex) (line : str) : option str :=
  match patterns with
  | pattern :: patterns' =>
      match re_search pattern line with
      | Some m => Some (group m 1)
      | None => first_import patterns' line
      end
  | [] => None
  end.

Definition add_import (imports : gset str) (line : str) : gset str :=
  match first_import import_patterns line with
  | Some path => {[ path ]} ∪ imports
  | None => imports
  end.

(** [imports] and [in_import_block] of [extract_import_statements], and the
    body of its loop. *)
Definition import_state : Type := gset str * bool.

Definition import_line (st : import_state) (line : str) : import_state :=
  let line := strip line in
  let '(imports, in_import_block) := st in
  if startswith (lit "import (") line then (imports, true)
  else if bool_decide (line = lit ")") && in_import_block then (imports, false)
  else if startswith (lit "import ") line then
    (add_import imports line, in_import_block)
  else if in_import_block && negb (bool_decide (line = []))
          && negb (startswith (lit "//") line) then
    (add_import imports line, in_import_block)
  else st.

Definition extract_import_statements (content : str) : gset str :=
  fst (fold_left import_line (split_nl content) (∅, false)).

(** [r'case\s*\*[^:]*\.([^:]+):(.*?)(?=case\s|\n\s*default\s*:|$)'] with
    [re.DOTALL]. *)
Definition colon : ascii := ascii_of_nat 58.

Definition case_pattern : regex :=
  cat [ Lit (lit "case"); star is_space; Lit (lit "*"); star (not_char colon);
        Lit (lit "."); Grp 1 (plus (not_char colon)); Lit [colon];
        Grp 2 (lazy_star any_char);
        Ahead (Alt (Seq (Lit (lit "case")) (Cls is_space))
              (Alt (cat [ Lit [nl]; star is_space; Lit (lit "default");
                          star is_space; Lit [colon] ])
                   Eol)) ].

(** [f"case *spb.{case_type}:\n{case_body}"] *)
Definition case_code (case_type case_body : str) : str :=
  lit "case *spb." ++ case_type ++ colon :: nl :: case_body.

Definition switch_case (cases : gmap str str) (m : rmatch_obj) : gmap str str :=
  let case_type := strip (group m 1) in
  let case_body := strip (group m 2) in
  <[case_type := case_code case_type case_body]> cases.

Definition extract_switch_cases (content : str) : gmap str str :=
  fold_left switch_case (finditer case_pattern content) ∅.

(** The entries that the lines of [additional_lines] declare, put into the
    entries [m]. *)
Fixpoint add_entries (current_entries : gmap str (str * N))
    (names : list str) (next_number : N) (m : gmap str (str * N))
    : gmap str (str * N) :=
  match names with
  | field_name :: names' =>
      let field_type := fst (item current_entries field_name ([], 0%N)) in
      add_entries current_entries names' (next_number + 1)
        (<[field_name := (field_type, next_number)]> m)
  | [] => m
  end.

(** The local variables of the loop of [resolve_proto_conflict]. *)
Definition current_entries (c : conflict) : gmap str (str * N) :=
  fst (extract_oneof_entries (current_content c)).
Definition current_max (c : conflict) : N :=
  snd (extract_oneof_entries (current_content c)).
Definition incoming_entries (c : conflict) : gmap str (str * N) :=
  fst (extract_oneof_entries (incoming_content c)).
Definition incoming_max (c : conflict) : N :=
  snd (extract_oneof_entries (incoming_content c)).
Definition current_only (c : conflict) : gset str :=
  dom (current_entries c) ∖ dom (incoming_entries c).

(** What [resolve_generic_conflict] puts in the place of one conflict. *)
Definition generic_merged_section (c : conflict) : str :=
  let merged_section := incoming_content c in
  if negb (bool_decide (strip (current_content c) = []))
     && negb (bool_decide (current_content c = incoming_content c))
  then merged_section ++ nl :: current_content c
  else merged_section.

(** The loop shared by the three strategies: every conflict of the original
    text is replaced, in turn, in the text resolved so far. *)
Definition resolve_with (merge : conflict -> str) (content : str) : str :=
  fold_left (fun resolved_content c =>
               replace (full_match c) (merge c) resolved_content)
            (parse_conflict_sections content) content.

Definition resolve_generic_conflict (content : str) : str :=
  resolve_with generic_merged_section content.

(** What [resolve_all_conflicts] decides for one conflicted file. *)
Inductive outcome : Type :=
  | NoMarkers                            (* "No conflict markers found" *)
  | Unresolved (resolved_content : str)  (* "Some conflicts remain unresolved" *)
  | Resolved (resolved_content : str).   (* written, or would be in a dry run *)

(** Membership of the file in [resolved_files]. *)
Definition fully_resolved (o : outcome) : bool :=
  match o with
  | Unresolved _ => false
  | NoMarkers | Resolved _ => true
  end.

(** The text that the resolver holds for the file at the end. *)
Definition resolved_text (original_content : str) (o : outcome) : str :=
  match o with
  | NoMarkers => original_content
  | Unresolved r | Resolved r => r
  end.

(** The two other strategies walk over a [set] in [sorted(...)].  The order
    in which Python hands out the elements of a set is not fixed; it is the
    parameter [set_order]. *)
Section SetOrder.
Variable set_order : gset str -> list str.

(** What [resolve_proto_conflict] puts in the place of one conflict. *)
Definition proto_merged_section (c : conflict) : str :=
  let '(current_entries, current_max) :=
    extract_oneof_entries (current_content c) in
  let '(incoming_entries, incoming_max) :=
    extract_oneof_entries (incoming_content c) in
  let current_only := dom current_entries ∖ dom incoming_entries in
  let merged_section := incoming_content c in
  if bool_decide (current_only = ∅) then merged_section
  else
    let next_number := (N.max incoming_max current_max + 1)%N in
    match additional_lines current_entries
            (sorted (set_order current_only)) next_number with
    | [] => merged_section
    | lines => rstrip merged_section ++ nl :: join_nl lines
    end.

Definition resolve_proto_conflict (content : str) : str :=
  resolve_with proto_merged_section content.

(** The entries of the text that takes the place of the conflict. *)
Definition merged_entries (c : conflict) : gmap str (str * N) :=
  fst (extract_oneof_entries (proto_merged_section c)).

(** The import paths for which [resolve_go_conflict] prints
    "Would need to add import"; nothing else is done with them. *)
Definition go_reported_imports (c : conflict) : list str :=
  let current_imports := extract_import_statements (current_content c) in
  let incoming_imports := extract_import_statements (incoming_content c) in
  let merged_section := incoming_content c in
  let current_only_imports := current_imports ∖ incoming_imports in
  filter (fun imp =>
            contains (dquote :: imp ++ [dquote]) merged_section = false)
         (sorted (set_order current_only_imports)).

(** What [resolve_go_conflict] puts in the place of one conflict. *)
Definition go_merged_section (c : conflict) : str :=
  let current_cases := extract_switch_cases (current_content c) in
  let incoming_cases := extract_switch_cases (incoming_content c) in
  let merged_section := incoming_content c in
  let current_only_cases := dom current_cases ∖ dom incoming_cases in
  fold_left (fun merged_section case_type =>
               merged_section ++ nl :: tab :: item current_cases case_type [])
            (sorted (set_order current_only_cases)) merged_section.

Definition resolve_go_conflict (content : str) : str :=
  resolve_with go_merged_section content.

(** The choice of strategy in [resolve_all_conflicts], by file name. *)
Definition apply_strategy (name : str) (original_content : str) : str :=
  if bool_decide (name = lit "scan_result.proto") then
    resolve_proto_conflict original_content
  else if bool_decide (name = lit "secret.go") then
    resolve_go_conflict original_content
  else resolve_generic_conflict original_content.

Definition resolve_file (name : str) (file : option str) : outcome :=
  match file with
  | Some original_content =>
      if negb (has_merge_conflicts file) then NoMarkers
      else
        let resolved_content := apply_strategy name original_content in
        if contains marker_current resolved_content
        then Unresolved resolved_content
        else Resolved resolved_content
  | None => NoMarkers
  end.
End SetOrder.

(** An order of iteration hands out each element of the set once. *)
Definition set_order_ok (set_order : gset str -> list str) : Prop :=
  forall X, set_order X ≡ₚ elements X.

(** The text of a conflict whose sides and labels are given: what a match
    of [conflict_pattern] reads. *)
Definition conflict_text (ref1 cur inc ref2 : str) : str :=
  marker_current ++ ref1 ++ nl :: cur ++ (nl :: marker_separator ++ [nl])
  ++ inc ++ (nl :: marker_incoming) ++ ref2.

(** A text without line break. *)
Definition nl_free (l : str) : Prop := forallb (not_char nl) l = true.

(** What [\w+] reads: at least one character, all of them of a word. *)
Definition is_identifier (w : str) : Prop :=
  w <> [] /\ forallb is_word w = true.

(** The state of the loop of [extract_oneof_entries] keeps this: types and
    names are identifiers, and no number is above [max_number]. *)
Definition oneof_ok (st : oneof_state) : Prop :=
  forall n t num, fst st !! n = Some (t, num) ->
    is_identifier n /\ is_identifier t /\ (num <= snd st)%N.

(** The names that the loop over [sorted(current_only)] can meet. *)
Definition known (current_entries : gmap str (str * N)) (n : str) : Prop :=
  is_identifier n /\ is_identifier (fst (item current_entries n ([], 0%N))).

(** A label: at least one character, none of them a line break. *)
Definition is_label (l : str) : Prop :=
  l <> [] /\ forallb (not_char nl) l = true.

End Resolver.

Import Resolver.

(** ** Vocabulary of the further properties *)
Module Layout.

(** The text made of gaps and spans in turn: [g0 ++ s1 ++ g1 ++ ... ++ gn]. *)
Fixpoint interleave (gaps spans : list str) : str :=
  match gaps, spans with
  | g :: gaps', sp :: spans' => g ++ sp ++ interleave gaps' spans'
  | g :: _, [] => g
  | [], _ => []
  end.

(** A conflict as the parser returns it: labels of one line, and a raw span
    made of the markers, the labels and the two sides. *)
Definition well_formed (c : conflict) : Prop :=
  is_label (current_ref c) /\ is_label (incoming_ref c)
  /\ full_match c
     = conflict_text (current_ref c) (current_content c) (incoming_content c)
         (incoming_ref c).

(** The text before a conflict ends a line, the text after begins one. *)
Definition at_line_start (pre : str) : Prop :=
  pre = [] \/ exists pre', pre = pre' ++ [nl].

Definition at_line_end (post : str) : Prop :=
  post = [] \/ exists post', post = nl :: post'.

(** The replacement text of the strategy that [resolve_all_conflicts]
    chooses for a file name. *)
Definition merged_section_for (set_order : gset str -> list str)
    (name : str) (c : conflict) : str :=
  if bool_decide (name = lit "scan_result.proto") then
    proto_merged_section set_order c
  else if bool_decide (name = lit "secret.go") then
    go_merged_section set_order c
  else generic_merged_section c.

(** A path between double quotes, as both import patterns read it. *)
Definition quoted_in (path b : str) : Prop :=
  path <> [] /\ forallb (not_char dquote) path = true
  /\ exists x y, b = x ++ dquote :: path ++ dquote :: y.

(** A case as [case_pattern] reads it in a text: the word "case", white
    space, a star, a qualifier, a dot, the type tag, a colon and the body. *)
Definition case_in (raw_type raw_body content : str) : Prop :=
  exists pre w qual post,
    content = pre ++ lit "case" ++ w ++ lit "*" ++ qual ++ lit "."
                  ++ raw_type ++ colon :: raw_body ++ post
    /\ forallb is_space w = true
    /\ forallb (not_char colon) qual = true
    /\ forallb (not_char colon) raw_type = true
    /\ raw_type <> [].

(** A declaration of the field [n] on one line, as [field_pattern] reads it
    up to the equals sign: a type, white space, the name, optional white
    space and "=", with whatever follows. *)
Definition declares (n d : str) : Prop :=
  nl_free d
  /\ exists t ws1 ws2 more,
       d = t ++ ws1 ++ n ++ ws2 ++ lit "=" ++ more
       /\ is_identifier t
       /\ ws1 <> [] /\ forallb is_space ws1 = true
       /\ forallb is_space ws2 = true.

End Layout.

Import Layout.

(** ** The run over the repository: [resolve_all_conflicts] *)
Module Orchestrator.

(** [str.split()]: the words between runs of white space; [word] is the
    word read so far. *)
Fixpoint split_from (word s : str) : list str :=
  match s with
  | c :: s' =>
      if is_space c then
        match word with
        | [] => split_from [] s'
        | _ => word :: split_from [] s'
        end
      else split_from (word ++ [c]) s'
  | [] =>
      match word with
      | [] => []
      | _ => [word]
      end
  end.

Definition split (s : str) : list str := split_from [] s.

(** [line.startswith('UU ') or line.startswith('AA ') or 'both modified' in
    line] *)
Definition is_conflicted (line : str) : bool :=
  startswith (lit "UU ") line || startswith (lit "AA ") line
  || contains (lit "both modified") line.

(** The loop over the lines of the status: [line.split()[-1]] of every
    conflicted line.  [None] is the IndexError of a line without a word. *)
Fixpoint conflicted_paths (lines : list str) : option (list str) :=
  match lines with
  | line :: lines' =>
      if is_conflicted line then
        match last (split line) with
        | Some file_path => cons file_path <$> conflicted_paths lines'
        | None => None
        end
      else conflicted_paths lines'
  | [] => Some []
  end.

Definition no_space (c : ascii) : bool := negb (is_space c).

(** [p] is the last word of [line]. *)
Definition last_word (p line : str) : Prop :=
  p <> [] /\ forallb no_space p = true
  /\ exists pre w,
       line = pre ++ p ++ w /\ forallb is_space w = true
       /\ (pre = [] \/ exists pre' c, pre = pre' ++ [c] /\ is_space c = true).

(** The text files of the working tree, by path. *)
Abbreviation files := (gmap str str).

(** [Path.rename]: the target is replaced; [None] is the error of a source
    that does not exist. *)
Definition rename (src dst : str) (fs : files) : option files :=
  match fs !! src with
  | Some content => Some (<[dst := content]> (delete src fs))
  | None => None
  end.

(** [Path.write_text] *)
Definition write_text (path content : str) (fs : files) : files :=
  <[path := content]> fs.

(** The commands that [run_command] is called with. *)
Inductive command : Type :=
  | GitStatus                          (* git status --porcelain *)
  | Protoc                             (* protoc ... scan_result.proto *)
  | GitAdd (file_paths : list str).    (* git add <file_paths> *)

(** What the resolver does not decide: the answers of the commands, the
    operations of [pathlib] on the paths, and the order of iteration of the
    sets.  Files are text files, and renaming and writing succeed. *)
Record environment : Type := Environment {
  git_status : bool * str;             (* run_command(["git", "status", ...]) *)
  protoc_ok : bool;                    (* success of the protoc command *)
  git_add_ok : list str -> bool;       (* success of git add *)
  repo_file : str -> str;              (* self.repo_path / file_path *)
  path_name : str -> str;              (* file_path.name *)
  backup_path : str -> option str;     (* file_path.with_suffix(...); None
                                          is its ValueError *)
  relative_to : str -> option str;     (* file_path.relative_to(repo_path);
                                          None is its ValueError *)
  set_order : gset str -> list str;
}.

(** The result of a run that ends without an exception: the value returned,
    the files as the resolver leaves them, and the commands run. *)
Record run : Type := Run {
  returned : bool;
  final_files : files;
  commands : list command;
}.

Section Run.
Variable env : environment.
Variable dry_run : bool.

(** The body of the loop over the conflicted files; the state is the files
    and [resolved_files]. *)
Definition resolve_step (st : files * list str) (file_path : str)
    : files * list str :=
  let '(fs, resolved_files) := st in
  match resolve_file (set_order env) (path_name env file_path)
          (fs !! file_path) with
  | NoMarkers => (fs, resolved_files ++ [file_path])
  | Unresolved _ => st
  | Resolved resolved_content =>
      if dry_run then (fs, resolved_files ++ [file_path])
      else
        match backup_path env file_path with
        | Some backup =>
            match rename file_path backup fs with
            | Some fs' =>
                (write_text file_path resolved_content fs',
                 resolved_files ++ [file_path])
            | None => st                       (* except Exception *)
            end
        | None => st                           (* except Exception *)
        end
  end.

Definition resolve_files (conflicted_files : list str) (fs : files)
    : files * list str :=
  fold_left resolve_step conflicted_files (fs, []).

(** [conflicted_files], when the status was read. *)
Definition conflicted_files : option (list str) :=
  map (repo_file env) <$> conflicted_paths (split_nl (snd (git_status env))).

(** [any(f.name == "scan_result.proto" for f in resolved_files)] *)
Definition proto_resolved (resolved_files : list str) : bool :=
  existsb (fun f => bool_decide (path_name env f = lit "scan_result.proto"))
          resolved_files.

(** [resolve_all_conflicts]; [None] is an exception that nothing catches. *)
Definition resolve_all_conflicts (fs : files) : option run :=
  if negb (fst (git_status env)) then Some (Run false fs [GitStatus])
  else
    match conflicted_files with
    | None => None
    | Some [] => Some (Run true fs [GitStatus])
    | Some conflicted =>
        if negb (forallb (fun f => bool_decide (is_Some (relative_to env f)))
                         conflicted)
        then None
        else
          let '(fs', resolved_files) := resolve_files conflicted fs in
          let regenerate := proto_resolved resolved_files && negb dry_run in
          if regenerate && negb (protoc_ok env)
          then Some (Run false fs' [GitStatus; Protoc])
          else
            let ran := if regenerate then [GitStatus; Protoc]
                       else [GitStatus] in
            match resolved_files with
            | _ :: _ =>
                if dry_run then Some (Run true fs' ran)
                else
                  match mapM (relative_to env) resolved_files with
                  | Some file_paths =>
                      Some (Run (git_add_ok env file_paths) fs'
                                (ran ++ [GitAdd file_paths]))
                  | None => None
                  end
            | [] => Some (Run true fs' ran)
            end
    end.
End Run.

(** The conflicted paths are different files, no backup is a conflicted
    file, and no two of them have the same backup. *)
Definition separate_backups (env : environment) (conflicted : list str)
    : Prop :=
  NoDup conflicted
  /\ (forall f g, f ∈ conflicted -> g ∈ conflicted ->
        backup_path env f <> Some g)
  /\ (forall f g b, f ∈ conflicted -> g ∈ conflicted ->
        backup_path env f = Some b -> backup_path env g = Some b -> f = g).

(** What the loop decides for a conflicted file, from the files at the
    start. *)
Definition file_outcome (env : environment) (fs : files) (f : str)
    : outcome :=
  resolve_file (set_order env) (path_name env f) (fs !! f).

(** A repository for examples: its files are in its root and are named by
    their paths, a backup has ".backup" after the name, and the commands
    succeed. *)
Definition flat_repo (status : str) : environment :=
  {| git_status := (true, status);
     protoc_ok := true;
     git_add_ok := fun _ => true;
     repo_file := fun file_path => file_path;
     path_name := fun file_path => file_path;
     backup_path := fun file_path => Some (file_path ++ lit ".backup");
     relative_to := Some;
     set_order := elements |}.

End Orchestrator.

(** * Properties *)

(** ** The operations on small inputs *)
Module Examples.

Example strip_both_ends : strip (lit "  a b  ") = lit "a b".
Proof. reflexivity. Qed.

Example rstrip_line_breaks : rstrip (text ["a"; " b "; ""; " "]) = text ["a"; " b"].
Proof. reflexivity. Qed.

Example split_keeps_empty_lines :
  split_nl (text ["a"; ""; "b"; ""]) = [lit "a"; []; lit "b"; []].
Proof. reflexivity. Qed.

Example replace_every_occurrence :
  replace (lit "ab") (lit "X") (lit "cababab") = lit "cXXX".
Proof. reflexivity. Qed.

Example replace_without_overlap :
  replace (lit "aa") (lit "X") (lit "aaaaa") = lit "XXa".
Proof. reflexivity. Qed.

Example int_leading_zeros : int (lit "0123") = 123%N.
Proof. reflexivity. Qed.

Example str_of_int_values :
  map str_of_int [0; 7; 9; 10; 99; 100; 1234567]%N
  = map lit ["0"; "7"; "9"; "10"; "99"; "100"; "1234567"].
Proof. reflexivity. Qed.

Example sorted_by_code_point :
  sorted [lit "b"; lit "ab"; lit "B"; lit "a"; lit "_"]
  = [lit "B"; lit "_"; lit "a"; lit "ab"; lit "b"].
Proof. reflexivity. Qed.

(** The greedy groups take the whole word; the lazy sides of a conflict stop
    at the first separator line and at the first incoming-side marker. *)
Example field_pattern_groups :
  option_map (fun m => (group m 1, group m 2, group m 3))
    (re_match field_pattern (lit "string  foo_1=007; // x"))
  = Some (lit "string", lit "foo_1", lit "007").
Proof. reflexivity. Qed.

Example field_pattern_anchored :
  re_match field_pattern (lit "{ string foo = 1;") = None.
Proof. reflexivity. Qed.

Example parse_two_conflicts :
  map (fun c => (current_ref c, current_content c, incoming_ref c,
                 incoming_content c))
    (parse_conflict_sections
       (text ["a"; "<<<<<<< HEAD"; "x"; "======="; "y"; "z"; ">>>>>>> t1"; "b";
              "<<<<<<< HEAD"; ""; "======="; "======="; ">>>>>>> t2"]))
  = [ (lit "HEAD", lit "x", lit "t1", text ["y"; "z"]);
      (lit "HEAD", [], lit "t2", lit "=======") ].
Proof. reflexivity. Qed.

Example extract_entries_last_wins :
  extract_oneof_entries
    (text ["oneof secret {"; "  // string Old = 9;"; "  string Foo = 3;";
           "  int Foo = 4;"; "  bool Bar = 2; // kept"; "}"])
  = ({[ lit "Foo" := (lit "int", 4%N); lit "Bar" := (lit "bool", 2%N) ]}, 4%N).
Proof. by vm_compute. Qed.

Example extract_imports_block_and_line :
  extract_import_statements
    (join_nl [lit "import ("; lit "  alias " ++ dquote :: lit "a/b" ++ [dquote];
              lit "  // " ++ dquote :: lit "no" ++ [dquote];
              lit "  " ++ dquote :: lit "c" ++ [dquote]; lit ")";
              dquote :: lit "outside" ++ [dquote];
              lit "import " ++ dquote :: lit "d" ++ [dquote]])
  = {[ lit "a/b"; lit "c"; lit "d" ]}.
Proof. by vm_compute. Qed.

Example extract_cases_until_default :
  extract_switch_cases
    (text ["switch v := s.(type) {"; "case *spb.A:"; "  return 1";
           "case  *x.y.B :"; "  return 2"; "default:"; "  return 0"; "}"])
  = {[ lit "A" := text ["case *spb.A:"; "return 1"];
       lit "B" := text ["case *spb.B:"; "return 2"] ]}.
Proof. by vm_compute. Qed.

Example resolve_proto_example :
  resolve_proto_conflict elements
    (text ["oneof secret {"; "<<<<<<< HEAD"; "    string Foo = 3;";
           "    int Bar = 6;"; "======="; "    string Foo = 5;";
           ">>>>>>> topic"; "}"])
  = text ["oneof secret {"; "    string Foo = 5;"; "    int Bar = 7;"; "}"].
Proof. by vm_compute. Qed.

Example resolve_generic_example :
  resolve_generic_conflict
    (text ["a"; "<<<<<<< HEAD"; "ours"; "======="; "theirs"; ">>>>>>> topic";
           "b"])
  = text ["a"; "theirs"; "ours"; "b"].
Proof. by vm_compute. Qed.

End Examples.

(** ** Strings *)
Module StrFacts.

(** Normal form of a concatenation: nested to the right. *)
Ltac norm_app :=
  repeat first [rewrite <- app_assoc | rewrite <- app_comm_cons];
  change (@nil ascii ++ ?x) with x.

Lemma ascii_eqb_eq (a b : ascii) : ascii_eqb a b = true <-> a = b.
Proof.
  unfold ascii_eqb, code. rewrite N.eqb_eq. split; [|congruence].
  intros H. rewrite <- (ascii_N_embedding a), <- (ascii_N_embedding b).
  congruence.
Qed.

Lemma ascii_eqb_refl (a : ascii) : ascii_eqb a a = true.
Proof. by apply ascii_eqb_eq. Qed.

Lemma ascii_eqb_neq (a b : ascii) : ascii_eqb a b = false <-> a <> b.
Proof.
  rewrite <- ascii_eqb_eq. destruct (ascii_eqb a b); split; congruence.
Qed.

Lemma startswith_app (p t : str) : startswith p (p ++ t) = true.
Proof. induction p as [|a p IH]; simpl; [done|]. by rewrite ascii_eqb_refl. Qed.

Lemma startswith_inv (p s : str) :
  startswith p s = true -> s = p ++ drop (length p) s.
Proof.
  revert s. induction p as [|a p IH]; intros [|b s]; simpl; try done.
  intros [Hab Hps]%andb_prop. apply ascii_eqb_eq in Hab as ->.
  f_equal. by apply IH.
Qed.

Lemma startswith_iff (p s : str) :
  startswith p s = true <-> exists t, s = p ++ t.
Proof.
  split.
  - intros H. eexists. by apply startswith_inv.
  - intros [t ->]. apply startswith_app.
Qed.

Lemma contains_iff (p s : str) :
  contains p s = true <-> exists a b, s = a ++ p ++ b.
Proof.
  induction s as [|c s IH]; simpl.
  - rewrite orb_false_r, startswith_iff. split.
    + intros [t Ht]. by exists [], t.
    + intros (a & b & Hab). symmetry in Hab.
      apply app_eq_nil in Hab as [-> Hab]. apply app_eq_nil in Hab as [-> ->].
      by exists [].
  - rewrite orb_true_iff, startswith_iff, IH. split.
    + intros [[t Ht]|(a & b & Hab)].
      * by exists [], t.
      * exists (c :: a), b. by rewrite Hab.
    + intros (a & b & Hab). destruct a as [|c' a]; simpl in Hab.
      * left. by exists b.
      * right. exists a, b. congruence.
Qed.

Lemma contains_app_r (p a s : str) :
  contains p s = true -> contains p (a ++ s) = true.
Proof.
  rewrite !contains_iff. intros (x & y & ->). exists (a ++ x), y.
  by rewrite <- app_assoc.
Qed.

Lemma contains_app_l (p s b : str) :
  contains p s = true -> contains p (s ++ b) = true.
Proof.
  rewrite !contains_iff. intros (x & y & ->). exists x, (y ++ b).
  by rewrite <- !app_assoc.
Qed.

Lemma lstrip_nil_iff (s : str) : lstrip s = [] <-> forallb is_space s = true.
Proof.
  induction s as [|c s IH]; simpl; [done|].
  destruct (is_space c); simpl; [done|]. split; discriminate.
Qed.

Lemma rstrip_space (w : str) : forallb is_space w = true -> rstrip w = [].
Proof.
  induction w as [|c w IH]; simpl; [done|].
  intros [Hc Hw]%andb_prop. by rewrite IH, Hc.
Qed.

Lemma rstrip_app_space (l w : str) :
  forallb is_space w = true -> rstrip (l ++ w) = rstrip l.
Proof.
  intros Hw. induction l as [|c l IH]; simpl.
  - by apply rstrip_space.
  - by rewrite IH.
Qed.

Lemma rstrip_decomp (s : str) :
  exists w, s = rstrip s ++ w /\ forallb is_space w = true.
Proof.
  induction s as [|c s (w & Hs & Hw)]; simpl.
  - by exists [].
  - destruct (rstrip s) as [|d t] eqn:Ht.
    + change ([] ++ w) with w in Hs. subst w.
      destruct (is_space c) eqn:Hc.
      * exists (c :: s). split; [done|]. cbn [forallb]. by rewrite Hc.
      * by exists s.
    + exists w. split; [|done]. by rewrite Hs at 1.
Qed.

Lemma strip_nil_iff (s : str) : strip s = [] <-> forallb is_space s = true.
Proof.
  unfold strip. rewrite lstrip_nil_iff. split.
  - intros H. destruct (rstrip_decomp s) as (w & Hs & Hw).
    rewrite Hs, forallb_app, H. done.
  - intros H. by rewrite rstrip_space.
Qed.

(** Lines.  A text is free of line breaks when [nl_free] holds of it. *)
Lemma split_nl_nonempty (s : str) : split_nl s <> [].
Proof.
  destruct s as [|c s]; simpl; [done|].
  destruct (ascii_eqb c nl); [done|]. by destruct (split_nl s).
Qed.

Lemma split_nl_cons (c : ascii) (s : str) :
  ascii_eqb c nl = false ->
  exists l ls, split_nl s = l :: ls /\ split_nl (c :: s) = (c :: l) :: ls.
Proof.
  intros Hc. simpl. rewrite Hc.
  destruct (split_nl s) as [|l ls] eqn:Hs; [by apply split_nl_nonempty in Hs|].
  eauto.
Qed.

Lemma split_nl_app_nl (x y : str) :
  split_nl (x ++ nl :: y) = split_nl x ++ split_nl y.
Proof.
  induction x as [|c x IH]; [done|].
  destruct (ascii_eqb c nl) eqn:Hc.
  - simpl. by rewrite Hc, IH.
  - destruct (split_nl_cons c x Hc) as (l & ls & Hx & ->).
    destruct (split_nl_cons c (x ++ nl :: y) Hc) as (l' & ls' & Hxy & Hcxy).
    rewrite <- app_comm_cons, Hcxy. rewrite IH, Hx in Hxy.
    by injection Hxy as <- <-.
Qed.

Lemma split_nl_nl_free (s : str) :
  forallb (not_char nl) s = true -> split_nl s = [s].
Proof.
  induction s as [|c s IH]; [done|]. cbn [forallb]. unfold not_char at 1.
  intros [Hc Hs]%andb_prop. apply negb_true_iff in Hc.
  simpl. by rewrite Hc, IH.
Qed.

(** Text without line break put after [x] goes to the last line of [x]. *)
Lemma split_nl_app_nl_free (x y : str) :
  forallb (not_char nl) y = true ->
  exists ls l, split_nl x = ls ++ [l] /\ split_nl (x ++ y) = ls ++ [l ++ y].
Proof.
  intros Hy. induction x as [|c x (ls & l & Hx & Hxy)].
  - exists [], []. split; [done|]. by apply split_nl_nl_free.
  - destruct (ascii_eqb c nl) eqn:Hc.
    + exists ([] :: ls), l. simpl. by rewrite Hc, Hx, Hxy.
    + destruct (split_nl_cons c x Hc) as (l1 & ls1 & Hx1 & ->).
      destruct (split_nl_cons c (x ++ y) Hc) as (l2 & ls2 & Hx2 & Hcxy).
      rewrite <- app_comm_cons, Hcxy. rewrite Hx in Hx1. rewrite Hxy in Hx2.
      destruct ls as [|l0 ls]; simpl in *.
      * injection Hx1 as <- <-. injection Hx2 as <- <-. by exists [], (c :: l).
      * injection Hx1 as <- <-. injection Hx2 as <- <-.
        by exists ((c :: l0) :: ls), l.
Qed.

(** Text without line break put before [z] goes to the first line of [z]. *)
Lemma split_nl_nl_free_app (p z : str) :
  forallb (not_char nl) p = true ->
  exists h t, split_nl z = h :: t /\ split_nl (p ++ z) = (p ++ h) :: t.
Proof.
  intros Hp. induction p as [|c p IH].
  - destruct (split_nl z) as [|h t] eqn:Hz; [by apply split_nl_nonempty in Hz|].
    by exists h, t.
  - cbn [forallb] in Hp. unfold not_char at 1 in Hp.
    apply andb_prop in Hp as [Hc Hp]. apply negb_true_iff in Hc.
    destruct (IH Hp) as (h & t & Hz & Hpz). exists h, t. split; [done|].
    simpl. by rewrite Hc, Hpz.
Qed.

Lemma split_join_nl (ls : list str) :
  ls <> [] -> Forall (fun l => forallb (not_char nl) l = true) ls ->
  split_nl (join_nl ls) = ls.
Proof.
  intros Hne Hls. induction Hls as [|l ls Hl Hls IH]; [done|].
  destruct ls as [|l' ls]; simpl.
  - by apply split_nl_nl_free.
  - rewrite split_nl_app_nl, split_nl_nl_free by done.
    simpl. f_equal. by apply IH.
Qed.

Lemma contains_join_nl (p l : str) (ls : list str) :
  l ∈ ls -> contains p l = true -> contains p (join_nl ls) = true.
Proof.
  intros Hin Hp. induction ls as [|l' ls IH]; [by apply elem_of_nil in Hin|].
  apply elem_of_cons in Hin as [->|Hin].
  - destruct ls; simpl; [done|]. by apply contains_app_l.
  - destruct ls as [|l'' ls]; [by apply elem_of_nil in Hin|].
    change (join_nl (l' :: l'' :: ls)) with (l' ++ nl :: join_nl (l'' :: ls)).
    apply contains_app_r. change (nl :: ?x) with ([nl] ++ x).
    apply contains_app_r. by apply IH.
Qed.

End StrFacts.

(** ** The matcher finds only what the pattern allows *)
Module ReFacts.
Import StrFacts.

Lemma orelse_Some {A} (a b : option A) (x : A) :
  orelse a b = Some x -> a = Some x \/ (a = None /\ b = Some x).
Proof. destruct a; simpl; auto. Qed.

Lemma advance_0 (st : mstate) : advance 0 st = st.
Proof. destruct st. unfold advance. simpl. f_equal. lia. Qed.

Lemma rep_greedy_sound k p min st n s res :
  rep_greedy k p min st n s = Some res ->
  exists j, min <= j <= length s /\ forallb p (take j s) = true
            /\ k (advance (n + j) st) = Some res.
Proof.
  revert min n. induction s as [|c s IH]; intros min n; simpl.
  - destruct min; [|done]. intros H. exists 0. rewrite Nat.add_0_r. auto with lia.
  - assert (Hstop : match min with 0 => k (advance n st) | S _ => None end
                    = Some res ->
            exists j, min <= j <= S (length s)
                      /\ forallb p (take j (c :: s)) = true
                      /\ k (advance (n + j) st) = Some res).
    { destruct min; [|done]. intros H. exists 0.
      rewrite Nat.add_0_r. auto with lia. }
    destruct (p c) eqn:Hc; [|done].
    intros [H|[_ H]]%orelse_Some; [|auto].
    apply IH in H as (j & Hj & Hp & Hk). exists (S j). simpl.
    rewrite Hc, Hp. replace (n + S j) with (S n + j) by lia.
    split; [lia|done].
Qed.

Lemma rep_lazy_sound k p min st n s res :
  rep_lazy k p min st n s = Some res ->
  exists j, min <= j <= length s /\ forallb p (take j s) = true
            /\ k (advance (n + j) st) = Some res.
Proof.
  revert min n. induction s as [|c s IH]; intros min n; simpl.
  - destruct min; [|done]. intros [H|[_ H]]%orelse_Some; [|done].
    exists 0. rewrite Nat.add_0_r. auto with lia.
  - assert (Hmore : (if p c then rep_lazy k p (pred min) st (S n) s else None)
                    = Some res ->
            exists j, min <= j <= S (length s)
                      /\ forallb p (take j (c :: s)) = true
                      /\ k (advance (n + j) st) = Some res).
    { destruct (p c) eqn:Hc; [|done]. intros H.
      apply IH in H as (j & Hj & Hp & Hk). exists (S j). simpl.
      rewrite Hc, Hp. replace (n + S j) with (S n + j) by lia.
      split; [lia|done]. }
    destruct min; [|done].
    intros [H|[_ H]]%orelse_Some; [|auto].
    exists 0. rewrite Nat.add_0_r. auto with lia.
Qed.

(** Soundness: a successful attempt went through a point that the pattern
    allows, and the continuation succeeded from there. *)
Theorem rmatch_sound r : forall st k res,
  rmatch r st k = Some res ->
  exists st', Matches r st st' /\ k st' = Some res.
Proof.
  induction r as [l|p|g min p|r1 IH1 r2 IH2|r1 IH1 r2 IH2|n r IH|r IH| |];
    intros st k res; simpl.
  - destruct (startswith l (rest st)) eqn:Hl; [|done]. eauto.
  - destruct (rest st) as [|c s'] eqn:Hs; [done|].
    destruct (p c) eqn:Hc; [|done]. intros H. eexists; split; [|done].
    split; [|done]. eauto.
  - intros H. assert (exists j, min <= j <= length (rest st)
      /\ forallb p (take j (rest st)) = true
      /\ k (advance (0 + j) st) = Some res) as (j & ? & ? & ?).
    { destruct g; [by apply rep_greedy_sound|by apply rep_lazy_sound]. }
    eauto 10.
  - intros (st1 & H1 & H)%IH1. apply IH2 in H as (st2 & H2 & H). eauto.
  - intros [H|[_ H]]%orelse_Some.
    + apply IH1 in H as (st' & ? & ?). eauto.
    + apply IH2 in H as (st' & ? & ?). eauto.
  - intros (st1 & H1 & H)%IH. eauto.
  - destruct (rmatch r st Some) as [e|] eqn:He; [|done].
    apply IH in He as (st1 & ? & _). eauto.
  - destruct (pos st) eqn:Hp; [|done]. eauto.
  - destruct (rest st) as [|c [|]] eqn:Hs; [eauto| |done].
    destruct (ascii_eqb c nl) eqn:Hc; [|done].
    apply ascii_eqb_eq in Hc as ->. eauto.
Qed.

(** What was read between two points is a prefix of the text at the first. *)
Lemma consumed_app (st st' : mstate) (w : str) :
  rest st = w ++ rest st' -> consumed st st' = w.
Proof.
  intros H. unfold consumed. rewrite H, length_app.
  replace (length w + length (rest st') - length (rest st')) with (length w)
    by lia.
  apply take_app_length.
Qed.

Lemma rest_advance (n : nat) (st : mstate) :
  rest (advance n st) = drop n (rest st).
Proof. done. Qed.

Lemma Matches_prefix r : forall st st',
  Matches r st st' -> exists w, rest st = w ++ rest st'.
Proof.
  induction r as [l|p|g min p|r1 IH1 r2 IH2|r1 IH1 r2 IH2|n r IH|r IH| |];
    intros st st'; simpl.
  - intros [_ ->]. exists (take (length l) (rest st)).
    by rewrite rest_advance, take_drop.
  - intros [_ ->]. exists (take 1 (rest st)).
    by rewrite rest_advance, take_drop.
  - intros (n & _ & _ & ->). exists (take n (rest st)).
    by rewrite rest_advance, take_drop.
  - intros (st1 & [a Ha]%IH1 & [b Hb]%IH2). exists (a ++ b).
    by rewrite Ha, Hb, app_assoc.
  - intros [H|H]; auto.
  - intros (st1 & [a Ha]%IH & ->). by exists a.
  - intros [_ ->]. by exists [].
  - intros [_ ->]. by exists [].
  - intros [_ ->]. by exists [].
Qed.

Lemma Matches_reads r st st' :
  Matches r st st' -> rest st = consumed st st' ++ rest st'.
Proof.
  intros [w Hw]%Matches_prefix. by rewrite (consumed_app _ _ w).
Qed.

End ReFacts.

(** ** The conflict parser *)
Module ParserFacts.
Import StrFacts ReFacts.

Lemma Matches_Lit l st st' :
  Matches (Lit l) st st' -> rest st = l ++ rest st' /\ caps st' = caps st.
Proof.
  intros [Hl ->]. split; [|done]. rewrite rest_advance.
  by apply startswith_inv.
Qed.

Lemma Matches_Rep g min p st st' :
  Matches (Rep g min p) st st' ->
  exists w, rest st = w ++ rest st' /\ forallb p w = true
            /\ min <= length w /\ caps st' = caps st.
Proof.
  intros (n & Hn & Hp & ->). exists (take n (rest st)).
  rewrite rest_advance, take_drop, length_take. repeat split; [done|lia].
Qed.

Lemma Matches_Grp n r st st' :
  Matches (Grp n r) st st' ->
  exists st1, Matches r st st1 /\ rest st' = rest st1
              /\ caps st' = (n, consumed st st1) :: caps st1.
Proof. intros (st1 & H & ->). eauto. Qed.

Lemma Matches_Grp_Rep n g min p st st' :
  Matches (Grp n (Rep g min p)) st st' ->
  exists w, rest st = w ++ rest st' /\ forallb p w = true
            /\ min <= length w /\ caps st' = (n, w) :: caps st.
Proof.
  intros (st1 & H & -> & ->)%Matches_Grp.
  apply Matches_Rep in H as (w & Hw & Hp & Hmin & ->).
  exists w. by rewrite (consumed_app _ _ w).
Qed.

(** A match of [conflict_pattern] reads a conflict text; the groups are its
    labels and its sides. *)
Lemma conflict_match_shape (p : nat) (s : str) (m : rmatch_obj) :
  match_at conflict_pattern p s = Some m ->
  exists ref1 cur inc ref2 post,
    s = conflict_text ref1 cur inc ref2 ++ post
    /\ is_label ref1 /\ is_label ref2
    /\ m_text m = conflict_text ref1 cur inc ref2
    /\ group m 1 = ref1 /\ group m 2 = cur
    /\ group m 3 = inc /\ group m 4 = ref2.
Proof.
  unfold match_at. set (st := MState p s []).
  destruct (rmatch conflict_pattern st Some) as [e|] eqn:He; [|done].
  intros [= <-]. apply rmatch_sound in He as (e' & H & [= ->]).
  pose proof (Matches_reads _ _ _ H) as Hread.
  destruct H as (s1 & [H1 C1]%Matches_Lit & s2 & H2 & s3 & [H3 C3]%Matches_Lit
    & s4 & H4 & s5 & [H5 C5]%Matches_Lit & s6 & H6
    & s7 & [H7 C7]%Matches_Lit & H8).
  apply Matches_Grp_Rep in H2 as (ref1 & R2 & P2 & L2 & C2).
  apply Matches_Grp_Rep in H4 as (cur & R4 & _ & _ & C4).
  apply Matches_Grp_Rep in H6 as (inc & R6 & _ & _ & C6).
  apply Matches_Grp_Rep in H8 as (ref2 & R8 & P8 & L8 & C8).
  assert (Hs : s = conflict_text ref1 cur inc ref2 ++ rest e).
  { change s with (rest st). rewrite H1, R2, H3, R4, H5, R6, H7, R8.
    unfold conflict_text. by norm_app. }
  exists ref1, cur, inc, ref2, (rest e). split; [done|].
  assert (Hlabel : forall l : str, 1 <= length l -> l <> []).
  { intros [|] ?; simpl in *; [lia|done]. }
  split; [split; auto|]. split; [split; auto|].
  split. { simpl. apply consumed_app. done. }
  unfold group; simpl. rewrite C8, C7, C6, C5, C4, C3, C2, C1. done.
Qed.

(** Where no attempt succeeds, [finditer] yields nothing. *)
Lemma finditer_from_nil r : forall s p skip,
  (forall a b q, s = a ++ b -> match_at r q b = None) ->
  finditer_from r p skip s = [].
Proof.
  induction s as [|c s IH]; intros p skip Hno.
  - destruct skip; simpl; [|done]. by rewrite (Hno [] [] p).
  - assert (Hs : forall a b q, s = a ++ b -> match_at r q b = None).
    { intros a b q ->. by apply (Hno (c :: a)). }
    destruct skip; simpl.
    + rewrite (Hno [] (c :: s) p); [|done]. by apply IH.
    + by apply IH.
Qed.

Lemma finditer_from_elem r (m : rmatch_obj) : forall s p skip,
  m ∈ finditer_from r p skip s ->
  exists a b q, s = a ++ b /\ match_at r q b = Some m.
Proof.
  induction s as [|c s IH]; intros p skip.
  - destruct skip; simpl; [|by intros ?%elem_of_nil].
    destruct (match_at r p []) as [m'|] eqn:Hm; [|by intros ?%elem_of_nil].
    intros ->%list_elem_of_singleton. by exists [], [], p.
  - assert (Hs : forall p' skip', m ∈ finditer_from r p' skip' s ->
              exists a b q, c :: s = a ++ b /\ match_at r q b = Some m).
    { intros p' skip' (a & b & q & -> & Hm)%IH. by exists (c :: a), b, q. }
    destruct skip; simpl; [|by apply Hs].
    destruct (match_at r p (c :: s)) as [m'|] eqn:Hm; [|by apply Hs].
    intros [->|H]%elem_of_cons; [|by eapply Hs].
    by exists [], (c :: s), p.
Qed.

(** Every conflict that the parser returns is a conflict text of the
    buffer, with its labels and its sides. *)
Lemma parse_conflict_shape (content : str) (c : conflict) :
  c ∈ parse_conflict_sections content ->
  is_label (current_ref c) /\ is_label (incoming_ref c)
  /\ full_match c
     = conflict_text (current_ref c) (current_content c) (incoming_content c)
         (incoming_ref c)
  /\ contains (full_match c) content = true.
Proof.
  unfold parse_conflict_sections.
  intros (m & -> & (a & b & q & -> & Hm)%finditer_from_elem)%list_elem_of_fmap.
  apply conflict_match_shape in Hm
    as (ref1 & cur & inc & ref2 & post & -> & L1 & L2 & Ht & G1 & G2 & G3 & G4).
  unfold conflict_of_match. simpl. rewrite G1, G2, G3, G4, Ht.
  repeat split; try done; try apply L1; try apply L2.
  apply contains_iff. by exists a, post.
Qed.

(** A text in which one of the three tokens is missing has no conflict. *)
Lemma parse_no_markers (content : str) :
  has_merge_conflicts (Some content) = false ->
  parse_conflict_sections content = [].
Proof.
  intros Hno. unfold parse_conflict_sections, finditer.
  rewrite finditer_from_nil; [done|]. intros a b q ->.
  destruct (match_at conflict_pattern q b) as [m|] eqn:Hm; [|done].
  apply conflict_match_shape in Hm
    as (ref1 & cur & inc & ref2 & post & -> & _).
  exfalso. revert Hno. unfold has_merge_conflicts, conflict_text.
  apply not_false_iff_true. rewrite !andb_true_iff, !contains_iff.
  split; [split|].
  - exists a. eexists. by norm_app.
  - exists (a ++ marker_current ++ ref1 ++ nl :: cur ++ [nl]). eexists.
    by norm_app.
  - exists (a ++ marker_current ++ ref1 ++ nl :: cur
            ++ (nl :: marker_separator ++ [nl]) ++ inc ++ [nl]). eexists.
    by norm_app.
Qed.

Lemma nl_free_app (x y : str) : nl_free x -> nl_free y -> nl_free (x ++ y).
Proof. unfold nl_free. rewrite forallb_app. by intros -> ->. Qed.

(** The lines of a text in which the pattern has a match: a line with the
    current-side marker, at least one line, the separator line, at least one
    line, and a line that starts with the incoming-side marker. *)
Lemma conflict_lines (a ref1 cur inc ref2 post : str) :
  is_label ref1 -> is_label ref2 ->
  exists A lA C I h t,
    split_nl (a ++ conflict_text ref1 cur inc ref2 ++ post)
    = (A ++ [lA]) ++ C ++ marker_separator :: I ++ h :: t
    /\ contains marker_current lA = true /\ C <> [] /\ I <> []
    /\ startswith marker_incoming h = true.
Proof.
  intros [_ H1] [_ H2].
  replace (a ++ conflict_text ref1 cur inc ref2 ++ post)
    with ((a ++ marker_current ++ ref1) ++ nl :: cur ++ nl :: marker_separator
          ++ nl :: inc ++ nl :: (marker_incoming ++ ref2) ++ post)
    by (unfold conflict_text; by norm_app).
  rewrite (split_nl_app_nl (a ++ marker_current ++ ref1)),
    (split_nl_app_nl cur), (split_nl_app_nl marker_separator),
    (split_nl_app_nl inc).
  destruct (split_nl_app_nl_free a (marker_current ++ ref1))
    as (A & l & _ & ->); [by apply nl_free_app|].
  destruct (split_nl_nl_free_app (marker_incoming ++ ref2) post)
    as (h & t & _ & ->); [by apply nl_free_app|].
  exists A, (l ++ marker_current ++ ref1), (split_nl cur), (split_nl inc),
    ((marker_incoming ++ ref2) ++ h), t.
  split; [done|]. split; [|split; [|split]].
  - apply contains_iff. by exists l, ref1.
  - apply split_nl_nonempty.
  - apply split_nl_nonempty.
  - rewrite <- app_assoc. apply startswith_app.
Qed.

(** A text whose lines cannot be cut in that way has no conflict. *)
Lemma parse_lines_nil (L : list str) :
  L <> [] -> Forall nl_free L ->
  (forall A lA C I h t,
     L = (A ++ [lA]) ++ C ++ marker_separator :: I ++ h :: t ->
     contains marker_current lA = true -> C <> [] -> I <> [] ->
     startswith marker_incoming h = true -> False) ->
  parse_conflict_sections (join_nl L) = [].
Proof.
  intros Hne HL Hno. unfold parse_conflict_sections, finditer.
  rewrite finditer_from_nil; [done|]. intros a b q Hab.
  destruct (match_at conflict_pattern q b) as [m|] eqn:Hm; [|done].
  apply conflict_match_shape in Hm
    as (ref1 & cur & inc & ref2 & post & -> & Hl1 & Hl2 & _).
  destruct (conflict_lines a ref1 cur inc ref2 post Hl1 Hl2)
    as (A & lA & C & I & h & t & Hsplit & HlA & HC & HI & Hh).
  rewrite <- Hab, split_join_nl in Hsplit by done.
  exfalso. eauto.
Qed.

Lemma resolve_with_nil (merge : conflict -> str) (content : str) :
  parse_conflict_sections content = [] -> resolve_with merge content = content.
Proof. intros H. unfold resolve_with. by rewrite H. Qed.

End ParserFacts.

(** ** Resolution of a file *)
Module FileResolution.
Import StrFacts ReFacts ParserFacts.

(** C5. A buffer in which one of the three marker tokens does not occur (in
    particular a buffer with no marker at all) has no conflict block for the
    parser, each of the three strategies returns it unchanged, and the file
    is classified as fully resolved with its text as it was. *)
Theorem marker_free_buffer_unchanged
    (set_order : gset str -> list str) (name content : str) :
  contains marker_current content = false
  \/ contains marker_separator content = false
  \/ contains marker_incoming content = false ->
  parse_conflict_sections content = []
  /\ resolve_proto_conflict set_order content = content
  /\ resolve_go_conflict set_order content = content
  /\ resolve_generic_conflict content = content
  /\ fully_resolved (resolve_file set_order name (Some content)) = true
  /\ resolved_text content (resolve_file set_order name (Some content))
     = content.
Proof.
  intros Hno.
  assert (Hhas : has_merge_conflicts (Some content) = false).
  { simpl. destruct Hno as [H | [H | H]]; rewrite H;
      by rewrite ?andb_false_r. }
  pose proof (parse_no_markers _ Hhas) as Hparse.
  unfold resolve_proto_conflict, resolve_go_conflict, resolve_generic_conflict,
    resolve_with, resolve_file.
  rewrite Hparse, Hhas. done.
Qed.

Lemma marker_free_buffer_unchanged_witness :
  let content := text ["message Secret {"; "  string id = 1;"; "}"] in
  parse_conflict_sections content = []
  /\ resolve_proto_conflict elements content = content
  /\ resolve_go_conflict elements content = content
  /\ resolve_generic_conflict content = content
  /\ fully_resolved
       (resolve_file elements (lit "scan_result.proto") (Some content)) = true
  /\ resolved_text content
       (resolve_file elements (lit "scan_result.proto") (Some content))
     = content.
Proof.
  apply (marker_free_buffer_unchanged elements (lit "scan_result.proto")
           (text ["message Secret {"; "  string id = 1;"; "}"])).
  left. vm_compute. reflexivity.
Defined.

(** C4, as the code has it.  A file in which one of the three tokens is
    missing is put among the resolved files untouched.  Otherwise the chosen
    strategy is applied and the file is classified as fully resolved exactly
    when the current-side marker token does not occur in the text obtained;
    the separator and the incoming-side marker are not looked for. *)
Theorem fully_resolved_iff
    (set_order : gset str -> list str) (name : str) (file : option str) :
  fully_resolved (resolve_file set_order name file) = true
  <-> has_merge_conflicts file = false
      \/ exists content, file = Some content
           /\ contains marker_current (apply_strategy set_order name content)
              = false.
Proof.
  unfold resolve_file. destruct file as [content|]; [|by split; auto].
  destruct (has_merge_conflicts (Some content)) eqn:Hhas; simpl.
  - destruct (contains marker_current _) eqn:Hc; simpl.
    + split; [done|]. intros [?|(c' & [= <-] & Hc')]; congruence.
    + split; [|done]. intros _. right. eauto.
  - split; auto.
Qed.

(** C4 does not hold as stated: a heading underlined with "=" signs is left
    in the output, so the separator token occurs there, and the file is
    classified as fully resolved all the same. *)
Lemma fully_resolved_with_separator_left :
  let name := lit "README.rst" in
  let content := text ["Title"; "========"; "<<<<<<< HEAD"; "ours";
                       "======="; "theirs"; ">>>>>>> topic"] in
  let o := resolve_file elements name (Some content) in
  o = Resolved (text ["Title"; "========"; "theirs"; "ours"])
  /\ fully_resolved o = true
  /\ contains marker_separator (resolved_text content o) = true
  /\ ~ (fully_resolved o = true <->
        contains marker_current (resolved_text content o) = false
        /\ contains marker_separator (resolved_text content o) = false
        /\ contains marker_incoming (resolved_text content o) = false).
Proof.
  vm_compute. split; [done|]. split; [done|]. split; [done|].
  intros [H _]. by destruct H as (_ & ? & _).
Qed.

Lemma app_cons_unique {A} (x : A) (l1 l2 l1' l2' : list A) :
  x ∉ l1 -> x ∉ l2 -> l1 ++ x :: l2 = l1' ++ x :: l2' ->
  l1 = l1' /\ l2 = l2'.
Proof.
  revert l1'. induction l1 as [|a l1 IH]; intros [|b l1'] H1 H2; simpl.
  - by intros [= ->].
  - intros [= <- ->]. exfalso. apply H2, elem_of_app. right. by left.
  - intros [= -> _]. exfalso. apply H1. by left.
  - intros [= <- H]. apply IH in H as [-> ->]; [done| |done].
    intros ?. apply H1. by right.
Qed.

Lemma marker_line_not_separator (m r : str) :
  m = marker_current \/ m = marker_incoming -> m ++ r <> marker_separator.
Proof. by intros [-> | ->]. Qed.

(** X20. A region with a side of no line that stands alone in a buffer.  In
    a buffer whose only separator line is that of the region, a region whose
    current side has no line (the separator line comes right after the
    current-side marker line, and no line before holds the current-side
    marker) or whose incoming side has no line (the incoming-side marker
    line comes right after the separator line, and no line after starts
    with the incoming-side marker) is not a block for the parser: no
    strategy changes the buffer, the markers stay and the file is classified
    as not fully resolved. *)
Theorem zero_line_side_not_parsed
    (set_order : gset str -> list str) (name : str)
    (pre body post : list str) (ref1 ref2 content : str) :
  Forall nl_free (pre ++ body ++ post) -> nl_free ref1 -> nl_free ref2 ->
  marker_separator ∉ pre ++ body ++ post ->
  (content = join_nl (pre ++ [marker_current ++ ref1; marker_separator]
                      ++ body ++ [marker_incoming ++ ref2] ++ post)
   /\ Forall (fun l => contains marker_current l = false) pre)
  \/ (content = join_nl (pre ++ [marker_current ++ ref1] ++ body
                         ++ [marker_separator; marker_incoming ++ ref2]
                         ++ post)
      /\ Forall (fun l => startswith marker_incoming l = false) post) ->
  parse_conflict_sections content = []
  /\ resolve_proto_conflict set_order content = content
  /\ resolve_go_conflict set_order content = content
  /\ resolve_generic_conflict content = content
  /\ contains marker_current content = true
  /\ resolve_file set_order name (Some content) = Unresolved content.
Proof.
  intros Hfree Hr1 Hr2 Hsep Hcase.
  apply Forall_app in Hfree as [Hpre [Hbody Hpost]%Forall_app].
  apply not_elem_of_app in Hsep as [Spre [Sbody Spost]%not_elem_of_app].
  pose proof (marker_line_not_separator marker_current ref1 (or_introl eq_refl))
    as Hm1.
  pose proof (marker_line_not_separator marker_incoming ref2
                (or_intror eq_refl)) as Hm2.
  assert (Hf1 : nl_free (marker_current ++ ref1))
    by (apply nl_free_app; [reflexivity|done]).
  assert (Hf2 : nl_free (marker_incoming ++ ref2))
    by (apply nl_free_app; [reflexivity|done]).
  assert (Hfs : nl_free marker_separator) by reflexivity.
  assert (exists L, content = join_nl L
            /\ parse_conflict_sections (join_nl L) = []
            /\ marker_current ++ ref1 ∈ L /\ marker_separator ∈ L
            /\ marker_incoming ++ ref2 ∈ L) as (L & -> & Hparse & I1 & I2 & I3).
  { destruct Hcase as [[-> Hcur] | [-> Hinc]]; eexists; (split; [done|]).
    - split; [|by rewrite !elem_of_app, !elem_of_cons; auto 10].
      apply parse_lines_nil.
      + by destruct pre.
      + repeat first [apply Forall_app; split | apply Forall_cons; split
                     | apply Forall_nil]; done.
      + intros A lA C I h t HL HlA HC _ _.
        replace (pre ++ [marker_current ++ ref1; marker_separator] ++ body
                 ++ [marker_incoming ++ ref2] ++ post)
          with ((pre ++ [marker_current ++ ref1]) ++ marker_separator
                :: (body ++ [marker_incoming ++ ref2] ++ post)) in HL
          by by rewrite <- app_assoc.
        rewrite (app_assoc (A ++ [lA]) C) in HL.
        apply app_cons_unique in HL as [HL _].
        * destruct (exists_last HC) as (C' & c & ->).
          rewrite app_assoc in HL. apply app_inj_tail in HL as [-> _].
          rewrite Forall_forall in Hcur. rewrite Hcur in HlA; [done|].
          rewrite !elem_of_app, list_elem_of_singleton. auto.
        * rewrite elem_of_app, list_elem_of_singleton. by intros [?|?].
        * rewrite !elem_of_app, list_elem_of_singleton. by intros [?|[?|?]].
    - split; [|by rewrite !elem_of_app, !elem_of_cons; auto 10].
      apply parse_lines_nil.
      + by destruct pre.
      + repeat first [apply Forall_app; split | apply Forall_cons; split
                     | apply Forall_nil]; done.
      + intros A lA C I h t HL _ _ HI Hh.
        replace (pre ++ [marker_current ++ ref1] ++ body
                 ++ [marker_separator; marker_incoming ++ ref2] ++ post)
          with ((pre ++ [marker_current ++ ref1] ++ body) ++ marker_separator
                :: (marker_incoming ++ ref2) :: post) in HL
          by by rewrite <- !app_assoc.
        rewrite (app_assoc (A ++ [lA]) C) in HL.
        apply app_cons_unique in HL as [_ HL].
        * destruct I as [|i I]; [done|]. injection HL as _ ->.
          rewrite Forall_forall in Hinc. rewrite Hinc in Hh; [done|].
          rewrite elem_of_app, elem_of_cons. auto.
        * rewrite !elem_of_app, list_elem_of_singleton. by intros [?|[?|?]].
        * rewrite elem_of_cons. by intros [?|?]. }
  assert (Hc1 : contains marker_current (join_nl L) = true).
  { apply (contains_join_nl _ _ _ I1), contains_iff. by exists [], ref1. }
  assert (Hc2 : contains marker_separator (join_nl L) = true).
  { apply (contains_join_nl _ _ _ I2), contains_iff. by exists [], []. }
  assert (Hc3 : contains marker_incoming (join_nl L) = true).
  { apply (contains_join_nl _ _ _ I3), contains_iff. by exists [], ref2. }
  assert (Hsame : forall merge, resolve_with merge (join_nl L) = join_nl L)
    by (intros merge; by apply resolve_with_nil).
  assert (Hstrategy : apply_strategy set_order name (join_nl L) = join_nl L).
  { unfold apply_strategy. repeat case_bool_decide; apply Hsame. }
  unfold resolve_file, has_merge_conflicts.
  rewrite Hstrategy, Hc1, Hc2, Hc3. repeat split; try done; apply Hsame.
Qed.

Lemma zero_line_side_not_parsed_witness :
  let a := text ["message M {"; "<<<<<<< HEAD"; "======="; "string Foo = 5;";
                 ">>>>>>> topic"; "}"] in
  let b := text ["message M {"; "<<<<<<< HEAD"; "string Foo = 5;"; "=======";
                 ">>>>>>> topic"; "}"] in
  let name := lit "scan_result.proto" in
  (parse_conflict_sections a = []
   /\ resolve_file elements name (Some a) = Unresolved a)
  /\ (parse_conflict_sections b = []
      /\ resolve_file elements name (Some b) = Unresolved b).
Proof.
  split.
  - destruct (zero_line_side_not_parsed elements (lit "scan_result.proto")
                [lit "message M {"] [lit "string Foo = 5;"] [lit "}"]
                (lit "HEAD") (lit "topic")
                (text ["message M {"; "<<<<<<< HEAD"; "=======";
                       "string Foo = 5;"; ">>>>>>> topic"; "}"]))
      as (H1 & _ & _ & _ & _ & H6).
    + repeat constructor.
    + reflexivity.
    + reflexivity.
    + by rewrite !elem_of_app, !list_elem_of_singleton; intros [?|[?|?]].
    + left. split; [reflexivity|repeat constructor].
    + exact (conj H1 H6).
  - destruct (zero_line_side_not_parsed elements (lit "scan_result.proto")
                [lit "message M {"] [lit "string Foo = 5;"] [lit "}"]
                (lit "HEAD") (lit "topic")
                (text ["message M {"; "<<<<<<< HEAD"; "string Foo = 5;";
                       "======="; ">>>>>>> topic"; "}"]))
      as (H1 & _ & _ & _ & _ & H6).
    + repeat constructor.
    + reflexivity.
    + reflexivity.
    + by rewrite !elem_of_app, !list_elem_of_singleton; intros [?|[?|?]].
    + right. split; [reflexivity|repeat constructor].
    + exact (conj H1 H6).
Defined.

(** C9, at the input where the code departs from it: a region with no line
    on its current side, when a well-formed region follows, is not skipped.
    The lazy [.*?] of the pattern runs over the markers of the first region
    to the separator line of the second, so the parser returns one block
    that starts at the first region and ends with the second.  The
    schema-field strategy replaces the whole by the incoming side of the
    second region: the text of the first region is dropped, no marker is
    left and the file is classified as fully resolved. *)
Lemma zero_line_region_absorbed :
  let content := text ["<<<<<<< a"; "======="; "foo"; ">>>>>>> b";
                       "<<<<<<< c"; "x"; "======="; "y"; ">>>>>>> d"] in
  let o := resolve_file elements (lit "scan_result.proto") (Some content) in
  (exists c, parse_conflict_sections content = [c]
     /\ current_ref c = lit "a"
     /\ current_content c
        = text ["======="; "foo"; ">>>>>>> b"; "<<<<<<< c"; "x"]
     /\ incoming_content c = lit "y" /\ full_match c = content)
  /\ o = Resolved (lit "y")
  /\ contains marker_current (resolved_text content o) = false
  /\ fully_resolved o = true.
Proof.
  split; [eexists; split; [vm_compute; reflexivity|by vm_compute]|].
  by vm_compute.
Qed.

End FileResolution.

(** ** The generic strategy *)
Module GenericStrategy.
Import StrFacts.

(** C6, as the code has it.  The replacement text of the generic strategy is
    the incoming text, a line break and the current text when the current
    text has a character that is not white space and differs from the
    incoming text; otherwise it is the incoming text alone.  With both sides
    "A" it is "A". *)
Theorem generic_merged_section_spec (c : conflict) :
  (forallb is_space (current_content c) = false ->
   current_content c <> incoming_content c ->
   generic_merged_section c
   = incoming_content c ++ nl :: current_content c)
  /\ (forallb is_space (current_content c) = true
      \/ current_content c = incoming_content c ->
      generic_merged_section c = incoming_content c)
  /\ generic_merged_section
       (Conflict (lit "HEAD") (lit "A") (lit "topic") (lit "A")
          (conflict_text (lit "HEAD") (lit "A") (lit "A") (lit "topic")))
     = lit "A".
Proof.
  unfold generic_merged_section. split; [|split; [|done]].
  - intros Hsp Hne. rewrite bool_decide_eq_false_2.
    + by rewrite bool_decide_eq_false_2.
    + rewrite strip_nil_iff. congruence.
  - intros [Hsp|Heq].
    + rewrite bool_decide_eq_true_2; [done|]. by apply strip_nil_iff.
    + rewrite (bool_decide_eq_true_2 (_ = incoming_content c)); [|done].
      by rewrite andb_false_r.
Qed.

Lemma generic_merged_section_spec_witness :
  let c := Conflict (lit "HEAD") (lit "ours") (lit "topic") (lit "theirs")
             (conflict_text (lit "HEAD") (lit "ours") (lit "theirs")
                (lit "topic")) in
  let d := Conflict (lit "HEAD") (lit "  ") (lit "topic") (lit "theirs")
             (conflict_text (lit "HEAD") (lit "  ") (lit "theirs")
                (lit "topic")) in
  generic_merged_section c = text ["theirs"; "ours"]
  /\ generic_merged_section d = lit "theirs".
Proof.
  split.
  - apply (proj1 (generic_merged_section_spec
                    (Conflict (lit "HEAD") (lit "ours") (lit "topic")
                       (lit "theirs")
                       (conflict_text (lit "HEAD") (lit "ours") (lit "theirs")
                          (lit "topic"))))).
    + vm_compute. reflexivity.
    + vm_compute. discriminate.
  - apply (proj1 (proj2 (generic_merged_section_spec
                    (Conflict (lit "HEAD") (lit "  ") (lit "topic")
                       (lit "theirs")
                       (conflict_text (lit "HEAD") (lit "  ") (lit "theirs")
                          (lit "topic")))))).
    left. vm_compute. reflexivity.
Defined.

(** C6 does not hold as stated: a current side of one blank is non-empty and
    differs from the incoming side, yet it is not appended. *)
Lemma generic_blank_current_dropped :
  let content := text ["<<<<<<< HEAD"; " "; "======="; "A"; ">>>>>>> topic"] in
  exists c, parse_conflict_sections content = [c]
    /\ current_content c = lit " " /\ incoming_content c = lit "A"
    /\ current_content c <> [] /\ current_content c <> incoming_content c
    /\ generic_merged_section c = lit "A"
    /\ generic_merged_section c
       <> incoming_content c ++ nl :: current_content c
    /\ resolve_generic_conflict content = lit "A".
Proof.
  eexists. split; [vm_compute; reflexivity|]. vm_compute.
  repeat split; discriminate.
Qed.

End GenericStrategy.

(** ** Sorting *)
Module SortFacts.
Import StrFacts.

Lemma code_inj (a b : ascii) : code a = code b -> a = b.
Proof. intros H. apply ascii_eqb_eq. unfold ascii_eqb. by apply N.eqb_eq. Qed.

#[global] Instance str_le_total : Total str_le.
Proof.
  intros a. unfold str_le.
  induction a as [|x a IH]; intros [|y b]; simpl; auto.
  destruct (N.ltb_spec (code x) (code y)), (N.ltb_spec (code y) (code x));
    auto; lia.
Qed.

#[global] Instance str_le_trans : Transitive str_le.
Proof.
  intros a. unfold str_le.
  induction a as [|x a IH]; intros [|y b] [|z c]; simpl; auto; try done.
  destruct (N.ltb_spec (code x) (code y)), (N.ltb_spec (code y) (code x)),
    (N.ltb_spec (code y) (code z)), (N.ltb_spec (code z) (code y)),
    (N.ltb_spec (code x) (code z)), (N.ltb_spec (code z) (code x));
    try done; try lia.
  apply IH.
Qed.

#[global] Instance str_le_antisymm : AntiSymm (=) str_le.
Proof.
  intros a. unfold str_le.
  induction a as [|x a IH]; intros [|y b]; simpl; auto; try done.
  destruct (N.ltb_spec (code x) (code y)), (N.ltb_spec (code y) (code x));
    try done; try lia.
  intros Hab Hba. f_equal; [apply code_inj; lia|by apply IH].
Qed.

Lemma sorted_Sorted (l : list str) : Sorted str_le (sorted l).
Proof. apply (Sorted_merge_sort str_le). Qed.

Lemma sorted_Permutation (l : list str) : sorted l ≡ₚ l.
Proof. apply (merge_sort_Permutation str_le). Qed.

(** The result of [sorted] depends on the elements only, not on the order
    in which they come. *)
Lemma sorted_order_irrelevant (l1 l2 : list str) :
  l1 ≡ₚ l2 -> sorted l1 = sorted l2.
Proof.
  intros H. apply (Sorted_unique str_le); auto using sorted_Sorted.
  by rewrite !sorted_Permutation.
Qed.

Lemma elem_of_sorted (x : str) (l : list str) : x ∈ sorted l <-> x ∈ l.
Proof. by rewrite sorted_Permutation. Qed.

End SortFacts.

(** ** Determinism *)
Module Determinism.
Import SortFacts.

Lemma set_order_ok_elements : set_order_ok elements.
Proof. by intros X. Qed.

Lemma sorted_set_order (o1 o2 : gset str -> list str) (X : gset str) :
  set_order_ok o1 -> set_order_ok o2 -> sorted (o1 X) = sorted (o2 X).
Proof.
  intros H1 H2. apply sorted_order_irrelevant. by rewrite (H1 X), (H2 X).
Qed.

Lemma resolve_with_ext (f g : conflict -> str) (content : str) :
  (forall c, f c = g c) -> resolve_with f content = resolve_with g content.
Proof.
  intros Hfg. unfold resolve_with.
  generalize (parse_conflict_sections content), content at 2 4.
  intros l. induction l as [|c l IH]; intros acc; simpl; [done|].
  by rewrite Hfg, IH.
Qed.

Lemma proto_merged_section_order (o1 o2 : gset str -> list str) c :
  set_order_ok o1 -> set_order_ok o2 ->
  proto_merged_section o1 c = proto_merged_section o2 c.
Proof.
  intros H1 H2. unfold proto_merged_section.
  destruct (extract_oneof_entries (current_content c)) as [ce cm].
  destruct (extract_oneof_entries (incoming_content c)) as [ie im].
  by rewrite (sorted_set_order o1 o2).
Qed.

Lemma go_merged_section_order (o1 o2 : gset str -> list str) c :
  set_order_ok o1 -> set_order_ok o2 ->
  go_merged_section o1 c = go_merged_section o2 c.
Proof.
  intros H1 H2. unfold go_merged_section.
  by rewrite (sorted_set_order o1 o2).
Qed.

(** C8. The schema-field strategy and the import/case strategy give the
    same output for the same buffer whatever the order in which the sets
    they build hand out their elements: what they append is walked over in
    sorted order, and sorting does not depend on the order of arrival. *)
Theorem strategies_deterministic
    (o1 o2 : gset str -> list str) (content : str) :
  set_order_ok o1 -> set_order_ok o2 ->
  (forall X, sorted (o1 X) = sorted (o2 X) /\ Sorted str_le (sorted (o1 X)))
  /\ resolve_proto_conflict o1 content = resolve_proto_conflict o2 content
  /\ resolve_go_conflict o1 content = resolve_go_conflict o2 content.
Proof.
  intros H1 H2. split; [|split].
  - intros X. split; [by apply sorted_set_order|apply sorted_Sorted].
  - apply resolve_with_ext. intros c. by apply proto_merged_section_order.
  - apply resolve_with_ext. intros c. by apply go_merged_section_order.
Qed.

Lemma strategies_deterministic_witness :
  let content := text ["<<<<<<< HEAD"; "string Foo = 3;"; "int Bar = 6;";
                       "bool Abc = 7;"; "======="; "string Foo = 5;";
                       ">>>>>>> topic"] in
  let o2 := fun X : gset str => reverse (elements X) in
  (forall X, sorted (elements X) = sorted (o2 X)
             /\ Sorted str_le (sorted (elements X)))
  /\ resolve_proto_conflict elements content = resolve_proto_conflict o2 content
  /\ resolve_go_conflict elements content = resolve_go_conflict o2 content.
Proof.
  apply (strategies_deterministic elements
           (fun X : gset str => reverse (elements X))).
  - intros X. reflexivity.
  - intros X. apply reverse_Permutation.
Defined.

End Determinism.

(** ** The import/case strategy *)
Module ImportCaseStrategy.
Import StrFacts SortFacts Determinism.

Lemma switch_cases_fold (ms : list rmatch_obj) : forall cases : gmap str str,
  (forall t code, cases !! t = Some code -> exists body, code = case_code t body) ->
  forall t code, fold_left switch_case ms cases !! t = Some code ->
                 exists body, code = case_code t body.
Proof.
  induction ms as [|m ms IH]; intros cases Hc; simpl; [done|].
  apply IH. intros t code. unfold switch_case.
  destruct (decide (strip (group m 1) = t)) as [<-|Hne].
  - rewrite lookup_insert_eq. intros [= <-]. eauto.
  - rewrite lookup_insert_ne; [|done]. apply Hc.
Qed.

(** Every value of the dictionary of cases is a case re-emitted under
    "spb". *)
Lemma extract_switch_cases_code (content t code : str) :
  extract_switch_cases content !! t = Some code ->
  exists body, code = case_code t body.
Proof. apply switch_cases_fold. intros ?? H. by rewrite lookup_empty in H. Qed.

Lemma fold_left_append {A} (f : A -> str) (l : list A) (acc : str) :
  fold_left (fun acc x => acc ++ f x) l acc = acc ++ flat_map f l.
Proof.
  revert acc. induction l as [|x l IH]; intros acc; simpl.
  - by rewrite app_nil_r.
  - by rewrite IH, app_assoc.
Qed.

(** The replacement text is the incoming text and, after it, the cases of
    the current side that the incoming side lacks, in sorted order. *)
Lemma go_merged_section_eq (o : gset str -> list str) (c : conflict) :
  set_order_ok o ->
  go_merged_section o c
  = incoming_content c
    ++ flat_map (fun t => nl :: tab
                            :: item (extract_switch_cases (current_content c)) t [])
         (sorted (elements (dom (extract_switch_cases (current_content c))
                            ∖ dom (extract_switch_cases (incoming_content c))))).
Proof.
  intros Ho. unfold go_merged_section.
  rewrite (sorted_set_order o elements); [|done|apply set_order_ok_elements].
  apply (fold_left_append (fun t => nl :: tab :: item _ t [])).
Qed.

(** C10. Every case that the import/case strategy extracts is kept as
    "case *spb.<TypeTag>:", a line break and the case body, whatever package
    qualifier the source text had: a case written with the qualifier "other"
    comes out under "spb".  So the replacement text is the incoming text
    followed, for each case of the current side that the incoming side
    lacks, by a line break, a tab and the case under "spb". *)
Theorem cases_reemitted_under_spb :
  (forall content t code,
     extract_switch_cases content !! t = Some code ->
     exists body, code = lit "case *spb." ++ t ++ colon :: nl :: body)
  /\ (forall o c, set_order_ok o ->
       exists bodies : list (str * str),
         map fst bodies
         = sorted (elements
                     (dom (extract_switch_cases (current_content c))
                      ∖ dom (extract_switch_cases (incoming_content c))))
         /\ go_merged_section o c
            = incoming_content c
              ++ flat_map (fun tb => nl :: tab :: lit "case *spb." ++ fst tb
                                       ++ colon :: nl :: snd tb) bodies)
  /\ extract_switch_cases
       (text ["switch s := x.(type) {"; "case *other.Bar:"; "  return 1";
              "default:"; "  return 0"; "}"])
     = {[ lit "Bar" := text ["case *spb.Bar:"; "return 1"] ]}.
Proof.
  split; [exact extract_switch_cases_code|]. split; [|by vm_compute].
  intros o c Ho. rewrite (go_merged_section_eq o c Ho).
  set (cases := extract_switch_cases (current_content c)).
  set (names := sorted _).
  assert (Hnames : Forall (fun t => is_Some (cases !! t)) names).
  { apply Forall_forall. intros t [Ht _]%elem_of_sorted%elem_of_elements
      %elem_of_difference. by apply elem_of_dom. }
  clearbody names.
  cut (exists bodies : list (str * str),
         map fst bodies = names
         /\ flat_map (fun t => nl :: tab :: item cases t []) names
            = flat_map (fun tb => nl :: tab :: lit "case *spb." ++ fst tb
                                    ++ colon :: nl :: snd tb) bodies).
  { intros (bodies & Hb1 & Hb2). exists bodies. by rewrite Hb2. }
  induction Hnames as [|t names [code Hcode] _ (bodies & Hb1 & Hb2)].
  - by exists [].
  - destruct (extract_switch_cases_code _ _ _ Hcode) as [body ->].
    exists ((t, body) :: bodies). cbn [map flat_map fst snd].
    rewrite Hb1, Hb2. unfold item. by rewrite Hcode.
Qed.

Lemma cases_reemitted_under_spb_witness :
  let cur := text ["case *other.Bar:"; "  return 1"] in
  let c := Conflict (lit "HEAD") cur (lit "topic") (lit "}")
             (conflict_text (lit "HEAD") cur (lit "}") (lit "topic")) in
  (exists body,
     text ["case *spb.Bar:"; "return 1"]
     = lit "case *spb." ++ lit "Bar" ++ colon :: nl :: body)
  /\ (exists bodies : list (str * str),
        map fst bodies
        = sorted (elements
                    (dom (extract_switch_cases (current_content c))
                     ∖ dom (extract_switch_cases (incoming_content c))))
        /\ go_merged_section elements c
           = incoming_content c
             ++ flat_map (fun tb => nl :: tab :: lit "case *spb." ++ fst tb
                                      ++ colon :: nl :: snd tb) bodies).
Proof.
  split.
  - apply (proj1 cases_reemitted_under_spb
             (text ["case *other.Bar:"; "  return 1"]) (lit "Bar")).
    vm_compute. reflexivity.
  - apply (proj1 (proj2 cases_reemitted_under_spb) elements).
    intros X. reflexivity.
Defined.

(** C7, as the code has it.  The replacement text of the import/case
    strategy is built from the incoming text and the cases of the two sides
    alone: two blocks with the same incoming text and the same cases get the
    same text, whatever their imports.  When the current side has no case
    that the incoming side lacks, the text is the incoming text, and so are
    its imports.  The imports of the current side that the incoming side
    lacks are reported only, those whose quoted path is not in the incoming
    text. *)
Theorem missing_imports_not_spliced (o : gset str -> list str) (c : conflict) :
  set_order_ok o ->
  (forall c',
     incoming_content c' = incoming_content c ->
     extract_switch_cases (current_content c')
     = extract_switch_cases (current_content c) ->
     go_merged_section o c' = go_merged_section o c)
  /\ (dom (extract_switch_cases (current_content c))
      ⊆ dom (extract_switch_cases (incoming_content c)) ->
      go_merged_section o c = incoming_content c
      /\ extract_import_statements (go_merged_section o c)
         = extract_import_statements (incoming_content c))
  /\ (forall imp,
       imp ∈ go_reported_imports o c
       <-> imp ∈ extract_import_statements (current_content c)
           /\ (imp ∉ extract_import_statements (incoming_content c))
           /\ contains (dquote :: imp ++ [dquote]) (incoming_content c)
              = false).
Proof.
  intros Ho. split; [|split].
  - intros c' Hinc Hcases. unfold go_merged_section. by rewrite Hinc, Hcases.
  - intros Hsub. assert (Heq : go_merged_section o c = incoming_content c).
    { rewrite (go_merged_section_eq o c Ho).
      apply subseteq_empty_difference_L in Hsub. rewrite Hsub, elements_empty.
      apply app_nil_r. }
    by rewrite Heq.
  - intros imp. unfold go_reported_imports.
    rewrite list_elem_of_filter, elem_of_sorted, (Ho _), elem_of_elements,
      elem_of_difference. tauto.
Qed.

Lemma missing_imports_not_spliced_witness :
  let quoted := fun p : str => dquote :: p ++ [dquote] in
  let cur := join_nl [lit "import " ++ quoted (lit "fmt"); lit "case *spb.A:";
                      lit "  return 1"] in
  let inc := text ["case *spb.A:"; "  return 2"] in
  let c := Conflict (lit "HEAD") cur (lit "topic") inc
             (conflict_text (lit "HEAD") cur inc (lit "topic")) in
  go_merged_section elements c = inc
  /\ extract_import_statements (go_merged_section elements c)
     = extract_import_statements inc
  /\ lit "fmt" ∈ go_reported_imports elements c.
Proof.
  intros quoted cur inc c.
  pose proof (missing_imports_not_spliced elements c
                (fun X => reflexivity (elements X))) as (_ & H2 & H3).
  split; [|split].
  - apply H2. vm_compute. set_solver.
  - apply H2. vm_compute. set_solver.
  - apply H3. split; [vm_compute; set_solver|].
    split; [vm_compute; set_solver|]. vm_compute. reflexivity.
Defined.

(** C7 does not hold as stated: a case body appended from the current side
    may hold an import line, and then the imports of the output are more
    than the imports of the incoming side. *)
Lemma appended_case_body_carries_import :
  let quoted := fun p : str => dquote :: p ++ [dquote] in
  let cur := join_nl [lit "case *spb.X:"; lit "import " ++ quoted (lit "foo")] in
  let content := join_nl [lit "<<<<<<< HEAD"; cur; lit "======="; lit "x";
                          lit ">>>>>>> topic"] in
  exists c, parse_conflict_sections content = [c]
    /\ extract_import_statements (incoming_content c) = ∅
    /\ extract_import_statements (go_merged_section elements c)
       = {[ lit "foo" ]}
    /\ extract_import_statements (go_merged_section elements c)
       <> extract_import_statements (incoming_content c).
Proof.
  eexists. split; [vm_compute; reflexivity|].
  split; [by vm_compute|]. split; [by vm_compute|].
  vm_compute. discriminate.
Qed.

End ImportCaseStrategy.

(** ** Numbers in decimal *)
Module DecimalFacts.
Import StrFacts.

Lemma digit_cases (d : N) :
  (d < 10)%N ->
  d = 0%N \/ d = 1%N \/ d = 2%N \/ d = 3%N \/ d = 4%N \/ d = 5%N \/ d = 6%N
  \/ d = 7%N \/ d = 8%N \/ d = 9%N.
Proof. lia. Qed.

Lemma digit_val_char (d : N) : (d < 10)%N -> digit_val (digit_char d) = d.
Proof.
  intros H. destruct (digit_cases d H) as [->|[->|[->|[->|[->|[->|[->|[->|[->| ->]]]]]]]]];
    reflexivity.
Qed.

Lemma is_digit_char (d : N) : (d < 10)%N -> is_digit (digit_char d) = true.
Proof.
  intros H. destruct (digit_cases d H) as [->|[->|[->|[->|[->|[->|[->|[->|[->| ->]]]]]]]]];
    reflexivity.
Qed.

Lemma int_digits (fuel : nat) : forall (n : N) (acc : str),
  (n < 10 ^ N.of_nat (S fuel))%N ->
  int (digits fuel n acc) = int_from n acc.
Proof.
  assert (Hlast : forall n acc, (n < 10)%N ->
            int (digit_char (n mod 10) :: acc) = int_from n acc).
  { intros n acc Hn. unfold int, int_from. simpl.
    rewrite N.mod_small, digit_val_char by done. done. }
  induction fuel as [|f IH]; intros n acc Hn; simpl.
  - apply Hlast. exact Hn.
  - destruct (N.ltb_spec n 10) as [Hlt|Hge]; [by apply Hlast|].
    rewrite IH.
    + unfold int_from. simpl. rewrite digit_val_char
        by (apply N.mod_lt; lia). f_equal.
      rewrite (N.div_mod n 10) at 3 by lia. done.
    + apply N.Div0.div_lt_upper_bound.
      rewrite <- N.pow_succ_r', <- Nat2N.inj_succ. exact Hn.
Qed.

(** [int(str(n)) == n] *)
Lemma int_str_of_int (n : N) : int (str_of_int n) = n.
Proof.
  unfold str_of_int. rewrite int_digits; [done|].
  rewrite Nat2N.inj_succ, N2Nat.id.
  destruct n as [|p]; [done|].
  apply N.lt_le_trans with (2 ^ N.succ (N.log2 (N.pos p)))%N.
  - apply N.log2_spec. lia.
  - apply N.pow_le_mono_l. lia.
Qed.

Lemma digits_is_digit (fuel : nat) : forall (n : N) (acc : str),
  forallb is_digit acc = true -> forallb is_digit (digits fuel n acc) = true.
Proof.
  assert (Hd : forall n, is_digit (digit_char (n mod 10)) = true).
  { intros n. apply is_digit_char, N.mod_lt. lia. }
  induction fuel as [|f IH]; intros n acc Hacc; simpl.
  - by rewrite Hd.
  - destruct (n <? 10)%N; simpl; [by rewrite Hd|].
    apply IH. simpl. by rewrite Hd.
Qed.

Lemma str_of_int_is_digit (n : N) : forallb is_digit (str_of_int n) = true.
Proof. by apply digits_is_digit. Qed.

Lemma digits_nonempty (fuel : nat) : forall (n : N) (acc : str),
  digits fuel n acc <> [].
Proof.
  induction fuel as [|f IH]; intros n acc; simpl; [done|].
  destruct (n <? 10)%N; [done|apply IH].
Qed.

Lemma str_of_int_nonempty (n : N) : str_of_int n <> [].
Proof. apply digits_nonempty. Qed.

End DecimalFacts.

(** ** Running the matcher on a text of known shape *)
Module ReSteps.
Import StrFacts ReFacts.

Lemma step_seq (r1 r2 : regex) (st : mstate) k :
  rmatch (Seq r1 r2) st k = rmatch r1 st (fun st1 => rmatch r2 st1 k).
Proof. done. Qed.

Lemma step_lit (l s : str) (st : mstate) k :
  rest st = l ++ s ->
  rmatch (Lit l) st k = k (MState (pos st + length l) s (caps st)).
Proof.
  intros H. simpl. rewrite H, startswith_app. unfold advance.
  by rewrite H, drop_app_length.
Qed.

Lemma rep_greedy_longest k p (w s : str) (st : mstate) res :
  forallb p w = true -> stops p s ->
  forall min n, min <= length w ->
    k (advance (n + length w) st) = Some res ->
    rep_greedy k p min st n (w ++ s) = Some res.
Proof.
  intros Hw Hs. induction w as [|c w IH]; intros min n Hmin Hk.
  - destruct min; [|simpl in Hmin; lia]. rewrite Nat.add_0_r in Hk.
    destruct s as [|c s]; simpl; [done|]. simpl in Hs. by rewrite Hs.
  - cbn [forallb] in Hw. apply andb_prop in Hw as [Hc Hw].
    cbn [app rep_greedy]. rewrite Hc, (IH Hw); [done|simpl in *; lia|].
    simpl in Hk. by replace (S n + length w) with (n + S (length w)) by lia.
Qed.

(** A greedy repetition followed by something outside its class reads the
    whole run, when the rest of the pattern succeeds from there. *)
Lemma step_rep (p : ascii -> bool) (min : nat) (w s : str) (st : mstate) k res :
  rest st = w ++ s -> forallb p w = true -> stops p s -> min <= length w ->
  k (MState (pos st + length w) s (caps st)) = Some res ->
  rmatch (Rep true min p) st k = Some res.
Proof.
  intros H Hw Hs Hmin Hk. simpl. rewrite H.
  apply rep_greedy_longest; try done.
  unfold advance. cbn [Nat.add]. by rewrite H, drop_app_length.
Qed.

Lemma step_grp_rep (g : nat) (p : ascii -> bool) (min : nat) (w s : str)
    (st : mstate) k res :
  rest st = w ++ s -> forallb p w = true -> stops p s -> min <= length w ->
  k (MState (pos st + length w) s ((g, w) :: caps st)) = Some res ->
  rmatch (Grp g (Rep true min p)) st k = Some res.
Proof.
  intros H Hw Hs Hmin Hk. cbn [rmatch].
  change (rmatch (Rep true min p) st
            (fun st1 => k (capture g st st1)) = Some res).
  apply (step_rep p min w s); try done.
  unfold capture. cbn [pos rest caps].
  rewrite (consumed_app st _ w); done.
Qed.

End ReSteps.

(** ** The field declarations of the schema *)
Module SchemaFacts.
Import StrFacts ReFacts ParserFacts ReSteps DecimalFacts SortFacts.

Ltac ascii_cases c :=
  destruct c as [[] [] [] [] [] [] [] []]; vm_compute; congruence.

Lemma word_not_space (c : ascii) : is_word c = true -> is_space c = false.
Proof. ascii_cases c. Qed.

Lemma word_not_comment (c : ascii) (w : str) :
  is_word c = true -> startswith (lit "//") (c :: w) = false.
Proof. ascii_cases c. Qed.

Lemma word_not_nl (c : ascii) : is_word c = true -> not_char nl c = true.
Proof. ascii_cases c. Qed.

Lemma digit_not_space (c : ascii) : is_digit c = true -> is_space c = false.
Proof. ascii_cases c. Qed.

Lemma digit_not_nl (c : ascii) : is_digit c = true -> not_char nl c = true.
Proof. ascii_cases c. Qed.

Lemma forallb_impl (p q : ascii -> bool) (w : str) :
  (forall c, p c = true -> q c = true) ->
  forallb p w = true -> forallb q w = true.
Proof.
  intros Hpq. induction w as [|c w IH]; simpl; [done|].
  intros [Hc Hw]%andb_prop. by rewrite (Hpq c Hc), IH.
Qed.

Lemma identifier_head (w : str) :
  is_identifier w -> exists c w', w = c :: w' /\ is_word c = true.
Proof.
  intros [Hne Hw]. destruct w as [|c w]; [done|].
  apply andb_prop in Hw as [Hc _]. eauto.
Qed.

Lemma rstrip_snoc (s : str) (c : ascii) :
  is_space c = false -> rstrip (s ++ [c]) = s ++ [c].
Proof.
  intros Hc. induction s as [|d s IH]; simpl; [by rewrite Hc|].
  rewrite IH. by destruct s.
Qed.

Lemma strip_field_line (t n : str) (num : N) :
  is_identifier t -> strip (field_line t n num) = field_decl t n num.
Proof.
  intros (c & t' & -> & Hc)%identifier_head. unfold strip, field_line.
  replace (lit "    " ++ (c :: t') ++ lit " " ++ n ++ lit " = "
           ++ str_of_int num ++ lit ";")
    with ((lit "    " ++ (c :: t') ++ lit " " ++ n ++ lit " = "
           ++ str_of_int num) ++ [ascii_of_nat 59])
    by (by rewrite <- !app_assoc).
  rewrite rstrip_snoc by done. rewrite <- !app_assoc. simpl.
  by rewrite (word_not_space c Hc).
Qed.

(** The pattern on a declaration the resolver wrote: the groups are the
    type, the name and the digits. *)
Lemma match_field_decl (t n : str) (num : N) :
  is_identifier t -> is_identifier n ->
  exists m, re_match field_pattern (field_decl t n num) = Some m
            /\ group m 1 = t /\ group m 2 = n /\ group m 3 = str_of_int num.
Proof.
  intros Ht Hn.
  destruct (identifier_head n Hn) as (cn & n' & En & Hcn).
  destruct Ht as [Ht0 Ht], Hn as [Hn0 Hn].
  assert (Hlen : forall w : str, w <> [] -> 1 <= length w).
  { intros [|] ?; simpl; [done|lia]. }
  pose proof (str_of_int_is_digit num) as Hd.
  pose proof (str_of_int_nonempty num) as Hd0.
  destruct (str_of_int num) as [|cd d'] eqn:Ed; [done|].
  assert (Hcd : is_digit cd = true) by (by apply andb_prop in Hd as [? _]).
  cut (exists e, rmatch field_pattern (MState 0 (field_decl t n num) []) Some
                 = Some e
                 /\ rest e = []
                 /\ caps e = [(3, cd :: d'); (2, n); (1, t)]).
  { intros (e & He & Hrest & Hcaps). unfold re_match, match_at.
    rewrite He. eexists. split; [done|]. unfold group. cbn [m_groups].
    rewrite Hcaps. by rewrite <- Ed. }
  eexists. split; [|split].
  - unfold field_pattern, field_decl. rewrite Ed. cbn [cat].
    rewrite step_seq.
    eapply (step_grp_rep 1 is_word 1 t); [done|done|done|by apply Hlen|].
    rewrite step_seq.
    eapply (step_rep is_space 1 (lit " ")); [done|done| |simpl; lia|].
    { rewrite En. simpl. by apply word_not_space. }
    rewrite step_seq.
    eapply (step_grp_rep 2 is_word 1 n); [done|done|done|by apply Hlen|].
    rewrite step_seq.
    eapply (step_rep is_space 0 (lit " ")); [done|done|done|lia|].
    rewrite step_seq.
    rewrite (step_lit (lit "=") (lit " " ++ (cd :: d') ++ lit ";")) by done.
    rewrite step_seq.
    eapply (step_rep is_space 0 (lit " ")); [done|done| |lia|].
    { simpl. by apply digit_not_space. }
    rewrite step_seq.
    eapply (step_grp_rep 3 is_digit 1 (cd :: d') (lit ";"));
      [done|done|done|simpl; lia|].
    rewrite (step_lit (lit ";") []) by done. reflexivity.
  - reflexivity.
  - reflexivity.
Qed.

(** The loop body on a line the resolver wrote: the entry is recorded. *)
Lemma oneof_line_field_line (st : oneof_state) (t n : str) (num : N) :
  is_identifier t -> is_identifier n ->
  oneof_line st (field_line t n num)
  = (<[n := (t, num)]> (fst st), N.max (snd st) num).
Proof.
  intros Ht Hn. unfold oneof_line. rewrite (strip_field_line t n num Ht).
  destruct (match_field_decl t n num Ht Hn) as (m & -> & -> & -> & ->).
  rewrite int_str_of_int.
  destruct (identifier_head t Ht) as (c & t' & -> & Hc).
  rewrite bool_decide_eq_false_2 by done.
  unfold field_decl. rewrite <- app_comm_cons.
  by rewrite (word_not_comment c _ Hc).
Qed.

(** What the pattern reads as type and as name are identifiers. *)
Lemma field_match_shape (line : str) (m : rmatch_obj) :
  re_match field_pattern line = Some m ->
  is_identifier (group m 1) /\ is_identifier (group m 2).
Proof.
  unfold re_match, match_at. set (st := MState 0 line []).
  destruct (rmatch field_pattern st Some) as [e|] eqn:He; [|done].
  intros [= <-]. apply rmatch_sound in He as (e' & H & [= ->]).
  destruct H as (s1 & H1 & s2 & H2 & s3 & H3 & s4 & H4
    & s5 & [_ C5]%Matches_Lit & s6 & H6 & s7 & H7 & [_ C8]%Matches_Lit).
  apply Matches_Grp_Rep in H1 as (t & _ & Pt & Lt & C1).
  apply Matches_Rep in H2 as (_ & _ & _ & _ & C2).
  apply Matches_Grp_Rep in H3 as (n & _ & Pn & Ln & C3).
  apply Matches_Rep in H4 as (_ & _ & _ & _ & C4).
  apply Matches_Rep in H6 as (_ & _ & _ & _ & C6).
  apply Matches_Grp_Rep in H7 as (d & _ & _ & _ & C7).
  unfold group; simpl. rewrite C8, C7, C6, C5, C4, C3, C2, C1. simpl.
  assert (Hne : forall w : str, 1 <= length w -> w <> []).
  { intros [|] ?; simpl in *; [lia|done]. }
  split; split; auto.
Qed.

Lemma oneof_line_ok (st : oneof_state) (line : str) :
  oneof_ok st -> oneof_ok (oneof_line st line).
Proof.
  intros Hst. unfold oneof_line.
  destruct (_ || _); [done|].
  destruct (re_match field_pattern (strip line)) as [m|] eqn:Hm; [|done].
  apply field_match_shape in Hm as [Ht Hn].
  intros n t num. cbn [fst snd].
  destruct (decide (group m 2 = n)) as [<-|Hne].
  - rewrite lookup_insert_eq. intros [= <- <-]. split; [done|]. split; [done|lia].
  - rewrite lookup_insert_ne by done. intros (? & ? & ?)%Hst.
    split; [done|]. split; [done|lia].
Qed.

Lemma fold_oneof_ok (ls : list str) (st : oneof_state) :
  oneof_ok st -> oneof_ok (fold_left oneof_line ls st).
Proof.
  revert st. induction ls as [|l ls IH]; intros st Hst; simpl; [done|].
  by apply IH, oneof_line_ok.
Qed.

Lemma extract_oneof_ok (content : str) :
  oneof_ok (extract_oneof_entries content).
Proof.
  apply fold_oneof_ok. intros n t num H. cbn [fst] in H.
  by rewrite lookup_empty in H.
Qed.

(** White space at the end of a text adds no entry. *)
Lemma oneof_line_app_space (st : oneof_state) (l w : str) :
  forallb is_space w = true -> oneof_line st (l ++ w) = oneof_line st l.
Proof.
  intros Hw. unfold oneof_line, strip. by rewrite rstrip_app_space.
Qed.

Lemma fold_split_snoc (st : oneof_state) (r : str) (c : ascii) :
  is_space c = true ->
  fold_left oneof_line (split_nl (r ++ [c])) st
  = fold_left oneof_line (split_nl r) st.
Proof.
  intros Hc. destruct (ascii_eqb c nl) eqn:Hnl.
  - apply ascii_eqb_eq in Hnl as ->.
    by rewrite split_nl_app_nl, fold_left_app.
  - destruct (split_nl_app_nl_free r [c]) as (ls & l & -> & ->).
    { unfold nl_free, not_char. simpl. by rewrite Hnl. }
    rewrite !fold_left_app. simpl. apply oneof_line_app_space.
    simpl. by rewrite Hc.
Qed.

Lemma fold_split_app_space (st : oneof_state) (w : str) : forall r : str,
  forallb is_space w = true ->
  fold_left oneof_line (split_nl (r ++ w)) st
  = fold_left oneof_line (split_nl r) st.
Proof.
  induction w as [|c w IH]; intros r Hw.
  - by rewrite app_nil_r.
  - simpl in Hw. apply andb_prop in Hw as [Hc Hw].
    rewrite (cons_middle c r w), app_assoc, IH by done.
    by apply fold_split_snoc.
Qed.

Lemma extract_rstrip (s : str) :
  extract_oneof_entries (rstrip s) = extract_oneof_entries s.
Proof.
  destruct (rstrip_decomp s) as (w & Hs & Hw). unfold extract_oneof_entries.
  rewrite Hs at 2. symmetry. by apply fold_split_app_space.
Qed.

(** Lines put after a text are read after it. *)
Lemma extract_app_lines (a : str) (lines : list str) :
  lines <> [] -> Forall nl_free lines ->
  extract_oneof_entries (a ++ nl :: join_nl lines)
  = fold_left oneof_line lines (extract_oneof_entries a).
Proof.
  intros Hne Hfree. unfold extract_oneof_entries.
  by rewrite split_nl_app_nl, fold_left_app, split_join_nl.
Qed.

Lemma nl_free_identifier (w : str) : is_identifier w -> nl_free w.
Proof. intros [_ Hw]. apply (forallb_impl is_word); [apply word_not_nl|done]. Qed.

Lemma nl_free_field_line (t n : str) (num : N) :
  is_identifier t -> is_identifier n -> nl_free (field_line t n num).
Proof.
  intros Ht%nl_free_identifier Hn%nl_free_identifier. unfold field_line.
  repeat apply nl_free_app; try done.
  apply (forallb_impl is_digit); [apply digit_not_nl|].
  apply str_of_int_is_digit.
Qed.

Lemma additional_lines_nl_free ce (names : list str) : forall next,
  Forall (known ce) names -> Forall nl_free (additional_lines ce names next).
Proof.
  induction names as [|n names IH]; intros next Hk; simpl; [done|].
  apply Forall_cons in Hk as [[Hn Ht] Hk].
  apply Forall_cons. split; [by apply nl_free_field_line|by apply IH].
Qed.

Lemma fold_additional_lines ce (names : list str) : forall next st,
  Forall (known ce) names ->
  fst (fold_left oneof_line (additional_lines ce names next) st)
  = add_entries ce names next (fst st).
Proof.
  induction names as [|n names IH]; intros next st Hk; simpl; [done|].
  apply Forall_cons in Hk as [[Hn Ht] Hk].
  rewrite oneof_line_field_line by done. by rewrite IH.
Qed.

(** The names of the current side only, in the order of the loop. *)
Lemma current_only_names (o : gset str -> list str) (c : conflict) :
  set_order_ok o ->
  sorted (o (current_only c)) = sorted (elements (current_only c))
  /\ Forall (known (current_entries c)) (sorted (elements (current_only c))).
Proof.
  intros Ho. split.
  { apply sorted_order_irrelevant. by rewrite (Ho _). }
  apply Forall_forall. intros n Hn%elem_of_sorted%elem_of_elements.
  apply elem_of_difference in Hn as [[[t num] Hn]%elem_of_dom _].
  unfold known, item. rewrite Hn.
  destruct (extract_oneof_ok (current_content c) n t num Hn) as (? & ? & _).
  done.
Qed.

(** The text put in the place of a conflict, in closed form. *)
Lemma proto_merged_section_eq (o : gset str -> list str) (c : conflict) :
  set_order_ok o ->
  proto_merged_section o c
  = match additional_lines (current_entries c)
            (sorted (elements (current_only c)))
            (N.max (incoming_max c) (current_max c) + 1) with
    | [] => incoming_content c
    | lines => rstrip (incoming_content c) ++ nl :: join_nl lines
    end.
Proof.
  intros Ho. destruct (current_only_names o c Ho) as [Hsort _].
  unfold proto_merged_section.
  unfold current_only, current_entries, incoming_entries, incoming_max,
    current_max in *.
  destruct (extract_oneof_entries (current_content c)) as [ce cm].
  destruct (extract_oneof_entries (incoming_content c)) as [ie im].
  cbn [fst snd] in *. rewrite Hsort. case_bool_decide as Hempty; [|done].
  by rewrite Hempty, elements_empty.
Qed.

(** The entries of the text put in the place of a conflict: those of the
    incoming side and those of the lines added. *)
Lemma merged_entries_eq (o : gset str -> list str) (c : conflict) :
  set_order_ok o ->
  merged_entries o c
  = add_entries (current_entries c) (sorted (elements (current_only c)))
      (N.max (incoming_max c) (current_max c) + 1) (incoming_entries c).
Proof.
  intros Ho. destruct (current_only_names o c Ho) as [_ Hknown].
  unfold merged_entries. rewrite (proto_merged_section_eq o c Ho).
  set (names := sorted (elements (current_only c))) in *.
  set (next := (N.max (incoming_max c) (current_max c) + 1)%N).
  destruct (additional_lines (current_entries c) names next)
    as [|l ls] eqn:Hlines.
  - destruct names; [done|discriminate].
  - rewrite extract_app_lines, extract_rstrip, <- Hlines; [|done|].
    + by apply fold_additional_lines.
    + rewrite <- Hlines. by apply additional_lines_nl_free.
Qed.

Lemma add_entries_lookup ce (names : list str) :
  forall next (m : gmap str (str * N)) x v,
    add_entries ce names next m !! x = Some v ->
    ((x ∉ names) /\ m !! x = Some v)
    \/ exists i, names !! i = Some x
                 /\ v = (fst (item ce x ([], 0%N)), (next + N.of_nat i)%N).
Proof.
  induction names as [|n names IH]; intros next m x v; simpl.
  - intros H. left. split; [apply not_elem_of_nil|done].
  - intros [[Hx H]|(i & Hi & ->)]%IH.
    + destruct (decide (n = x)) as [->|Hne].
      * rewrite lookup_insert_eq in H. injection H as <-.
        right. exists 0. split; [done|]. f_equal. lia.
      * rewrite lookup_insert_ne in H by done. left. split; [|done].
        apply not_elem_of_cons. split; [congruence|done].
    + right. exists (S i). split; [done|]. f_equal. lia.
Qed.

Lemma add_entries_lookup_other ce (names : list str) :
  forall next (m : gmap str (str * N)) x,
    x ∉ names -> add_entries ce names next m !! x = m !! x.
Proof.
  induction names as [|n names IH]; intros next m x Hx; simpl; [done|].
  apply not_elem_of_cons in Hx as [Hne Hx].
  rewrite IH by done. by apply lookup_insert_ne.
Qed.

Lemma additional_lines_imap ce (names : list str) : forall next,
  additional_lines ce names next
  = imap (fun i n => field_line (fst (item ce n ([], 0%N))) n
                       (next + N.of_nat i)) names.
Proof.
  induction names as [|n names IH]; intros next; simpl; [done|].
  rewrite IH. f_equal; [f_equal; lia|].
  apply imap_ext. intros i x _. simpl. f_equal. lia.
Qed.

End SchemaFacts.

(** ** The schema-field strategy *)
Module SchemaFieldStrategy.
Import StrFacts SortFacts SchemaFacts.

Lemma elem_of_current_only_names (c : conflict) (n : str) :
  n ∈ sorted (elements (current_only c))
  <-> n ∈ dom (current_entries c) /\ n ∉ dom (incoming_entries c).
Proof.
  unfold current_only.
  by rewrite elem_of_sorted, elem_of_elements, elem_of_difference.
Qed.

(** C1. The field names that the current side has and the incoming side
    lacks are walked over in sorted order, without repetition; the
    replacement text is the incoming text, trimmed of the white space at its
    end, followed by one line per such name, the line of rank [i] carrying
    the type of the current side, the name and the number
    [max(incoming_max, current_max) + 1 + i]; with no such name it is the
    incoming text.  Every entry of the incoming side is an entry of the
    replacement text with its type and number.  For incoming
    "string Foo = 5;" and current "string Foo = 3;" and "int Bar = 6;" the
    result keeps "string Foo = 5;" and adds "int Bar = 7;". *)
Theorem current_only_fields_appended
    (o : gset str -> list str) (c : conflict) :
  set_order_ok o ->
  let names := sorted (elements (current_only c)) in
  let next_number := (N.max (incoming_max c) (current_max c) + 1)%N in
  let line := fun (i : nat) (n : str) =>
    field_line (fst (item (current_entries c) n ([], 0%N))) n
      (next_number + N.of_nat i) in
  (Sorted str_le names /\ NoDup names
   /\ forall n, n ∈ names
        <-> n ∈ dom (current_entries c) /\ n ∉ dom (incoming_entries c))
  /\ proto_merged_section o c
     = match names with
       | [] => incoming_content c
       | _ => rstrip (incoming_content c) ++ nl :: join_nl (imap line names)
       end
  /\ (exists w, incoming_content c = rstrip (incoming_content c) ++ w
                /\ forallb is_space w = true)
  /\ (forall n v, incoming_entries c !! n = Some v ->
                  merged_entries o c !! n = Some v)
  /\ proto_merged_section o
       (Conflict (lit "HEAD") (text ["string Foo = 3;"; "int Bar = 6;"])
          (lit "topic") (lit "string Foo = 5;")
          (conflict_text (lit "HEAD") (text ["string Foo = 3;"; "int Bar = 6;"])
             (lit "string Foo = 5;") (lit "topic")))
     = text ["string Foo = 5;"; "    int Bar = 7;"].
Proof.
  intros Ho names next_number line. split; [|split; [|split; [|split]]].
  - split; [apply sorted_Sorted|]. split.
    + unfold names. rewrite sorted_Permutation. apply NoDup_elements.
    + apply elem_of_current_only_names.
  - rewrite (proto_merged_section_eq o c Ho), additional_lines_imap.
    fold names next_number line. by destruct names.
  - apply rstrip_decomp.
  - intros n v Hn. rewrite (merged_entries_eq o c Ho).
    rewrite add_entries_lookup_other; [done|].
    intros [_ Hnot]%elem_of_current_only_names. apply Hnot.
    apply elem_of_dom. eauto.
  - rewrite (proto_merged_section_eq o _ Ho). by vm_compute.
Qed.

Lemma current_only_fields_appended_witness :
  let c := Conflict (lit "HEAD")
             (text ["string Foo = 3;"; "int Bar = 6;"; "bool Abc = 2;"])
             (lit "topic") (text ["string Foo = 5;"; ""])
             (conflict_text (lit "HEAD")
                (text ["string Foo = 3;"; "int Bar = 6;"; "bool Abc = 2;"])
                (text ["string Foo = 5;"; ""]) (lit "topic")) in
  sorted (elements (current_only c)) = [lit "Abc"; lit "Bar"]
  /\ proto_merged_section elements c
     = text ["string Foo = 5;"; "    bool Abc = 7;"; "    int Bar = 8;"]
  /\ merged_entries elements c !! lit "Foo" = Some (lit "string", 5%N).
Proof.
  intros c.
  destruct (current_only_fields_appended elements c
              (fun X => reflexivity (elements X)))
    as (_ & Htext & _ & Hentries & _).
  split; [by vm_compute|]. split.
  - rewrite Htext. by vm_compute.
  - apply Hentries. by vm_compute.
Defined.

(** C2, as the code has it.  When the entries of the incoming side carry
    pairwise distinct numbers, so do the entries of the replacement text,
    also when the two sides use the same number for different names: the
    numbers given to the names of the current side only start above every
    number of both sides and go up by one. *)
Theorem merged_numbers_unique (o : gset str -> list str) (c : conflict) :
  set_order_ok o ->
  (forall a b va vb, a <> b ->
     incoming_entries c !! a = Some va -> incoming_entries c !! b = Some vb ->
     snd va <> snd vb) ->
  forall a b va vb, a <> b ->
    merged_entries o c !! a = Some va -> merged_entries o c !! b = Some vb ->
    snd va <> snd vb.
Proof.
  intros Ho Hinc a b va vb Hab. rewrite (merged_entries_eq o c Ho).
  set (next := (N.max (incoming_max c) (current_max c) + 1)%N).
  assert (Hle : forall x v, incoming_entries c !! x = Some v ->
                            (snd v < next)%N).
  { intros x [t num] Hx.
    destruct (extract_oneof_ok (incoming_content c) x t num Hx) as (_ & _ & H).
    unfold next, incoming_max. simpl. lia. }
  intros [[_ Ha]|(i & Hi & ->)]%add_entries_lookup
         [[_ Hb]|(j & Hj & ->)]%add_entries_lookup.
  - by apply (Hinc a b).
  - apply Hle in Ha. simpl. lia.
  - apply Hle in Hb. simpl. lia.
  - simpl. intros Heq. apply Hab.
    assert (i = j) as -> by lia. congruence.
Qed.

Lemma merged_numbers_unique_witness :
  let c := Conflict (lit "HEAD") (lit "int Bar = 5;")
             (lit "topic") (lit "string Foo = 5;")
             (conflict_text (lit "HEAD") (lit "int Bar = 5;")
                (lit "string Foo = 5;") (lit "topic")) in
  merged_entries elements c !! lit "Foo" = Some (lit "string", 5%N)
  /\ merged_entries elements c !! lit "Bar" = Some (lit "int", 6%N)
  /\ snd (lit "string", 5%N) <> snd (lit "int", 6%N).
Proof.
  intros c. split; [by vm_compute|]. split; [by vm_compute|].
  apply (merged_numbers_unique elements c (fun X => reflexivity (elements X)))
    with (a := lit "Foo") (b := lit "Bar").
  - intros a b va vb Hab.
    replace (incoming_entries c)
      with ({[ lit "Foo" := (lit "string", 5%N) ]} : gmap str (str * N))
      by (by vm_compute).
    intros [<- _]%lookup_singleton_Some [<- _]%lookup_singleton_Some. done.
  - discriminate.
  - by vm_compute.
  - by vm_compute.
Defined.

(** C2 does not hold as stated: two names of the incoming side alone with
    one number keep that number, since the numbers of the incoming side are
    left as they are. *)
Lemma incoming_duplicate_numbers_kept :
  let content := text ["<<<<<<< HEAD"; "int C = 1;"; "=======";
                       "string A = 1;"; "string B = 1;"; ">>>>>>> topic"] in
  exists c, parse_conflict_sections content = [c]
    /\ merged_entries elements c !! lit "A" = Some (lit "string", 1%N)
    /\ merged_entries elements c !! lit "B" = Some (lit "string", 1%N)
    /\ lit "A" <> lit "B"
    /\ resolve_proto_conflict elements content
       = text ["string A = 1;"; "string B = 1;"; "    int C = 2;"].
Proof.
  eexists. split; [vm_compute; reflexivity|].
  split; [by vm_compute|]. split; [by vm_compute|]. split; [discriminate|].
  by vm_compute.
Qed.

End SchemaFieldStrategy.

(** ** The supersede rule of the schema-field strategy *)
Module SupersedeRule.
Import StrFacts ReFacts ParserFacts SortFacts DecimalFacts SchemaFacts
  SchemaFieldStrategy.

Lemma word_not_equals (c : ascii) :
  is_word c = true -> c <> ascii_of_nat 61.
Proof. ascii_cases c. Qed.

Lemma space_not_a_word (c : ascii) : is_space c = true -> is_word c = false.
Proof.
  intros Hc. destruct (is_word c) eqn:Hw; [|done].
  apply word_not_space in Hw. congruence.
Qed.

Lemma not_in_class (p : ascii -> bool) (w : str) (c : ascii) :
  forallb p w = true -> p c = false -> c ∉ w.
Proof.
  intros Hw Hc Hin%list_elem_of_In. rewrite forallb_forall in Hw.
  apply Hw in Hin. congruence.
Qed.

(** The run of a class at the end of a text is read in one way only. *)
Lemma run_at_end_unique (p : ascii -> bool) (x y : str) (c d : ascii) :
  forallb p x = true -> forallb p y = true -> p c = false -> p d = false ->
  forall u v, u ++ c :: x = v ++ d :: y -> u = v /\ c = d /\ x = y.
Proof.
  intros Hx Hy Hc Hd. induction u as [|e u IH]; intros [|f v]; simpl.
  - by intros [= -> ->].
  - intros [= -> ->]. rewrite forallb_app in Hx. simpl in Hx.
    rewrite Hd in Hx. by rewrite andb_false_r in Hx.
  - intros [= <- <-]. rewrite forallb_app in Hy. simpl in Hy.
    rewrite Hc in Hy. by rewrite andb_false_r in Hy.
  - intros [= -> H]. by destruct (IH v H) as (-> & -> & ->).
Qed.

Lemma identifier_last (w : str) :
  is_identifier w -> exists w' c, w = w' ++ [c] /\ is_word c = true
                                  /\ forallb is_word w' = true.
Proof.
  intros [Hne Hw]. destruct (exists_last Hne) as (w' & c & ->).
  exists w', c. rewrite forallb_app in Hw.
  apply andb_prop in Hw as [Hw' Hc]. simpl in Hc.
  rewrite andb_true_r in Hc. done.
Qed.

(** A text of one line that stands in two texts joined by a line break
    stands in one of them. *)
Lemma contains_nl_split (d x y : str) :
  nl_free d -> contains d (x ++ nl :: y) = true ->
  contains d x = true \/ contains d y = true.
Proof.
  intros Hd (a & b & H)%contains_iff.
  assert (Hnl : nl ∉ d).
  { apply (not_in_class (not_char nl)); [done|].
    unfold not_char. by rewrite ascii_eqb_refl. }
  apply app_eq_inv in H as [(k & -> & H)|(k & -> & H)].
  - left. apply contains_iff.
    symmetry in H. apply app_eq_inv in H as [(k' & -> & H)|(k' & -> & H)].
    + exists a, k'. done.
    + destruct k' as [|e k'].
      * exists a, []. by rewrite !app_nil_r.
      * injection H as He _. subst e. exfalso. apply Hnl.
        apply elem_of_app. right. by left.
  - destruct k as [|e k].
    + simpl in H. destruct d as [|e d].
      * left. apply contains_iff. exists x, []. by rewrite app_nil_r.
      * injection H as He _. subst e. exfalso. apply Hnl. by left.
    + injection H as _ ->. right. apply contains_iff. by exists k, b.
Qed.

Lemma contains_join_lines (d : str) (ls : list str) :
  nl_free d -> d <> [] -> contains d (join_nl ls) = true ->
  exists l, l ∈ ls /\ contains d l = true.
Proof.
  intros Hd Hne. induction ls as [|l ls IH].
  - simpl. by destruct d.
  - destruct ls as [|l' ls].
    + intros H. exists l. split; [by left|done].
    + change (join_nl (l :: l' :: ls)) with (l ++ nl :: join_nl (l' :: ls)).
      intros [H|H]%contains_nl_split; [|apply IH in H as (l0 & Hl0 & H)|done].
      * exists l. split; [by left|done].
      * exists l0. split; [by right|done].
Qed.

(** A line written for another field holds no declaration of [n]. *)
Lemma field_line_no_declaration (t x n d : str) (num : N) :
  is_identifier t -> is_identifier x -> is_identifier n -> x <> n ->
  declares n d -> contains d (field_line t x num) = false.
Proof.
  intros Ht Hx Hn Hne
    (Hfree & dt & ws1 & ws2 & more & -> & Hdt & Hws1 & Hs1 & Hs2).
  destruct (contains _ _) eqn:Hc; [|done]. exfalso.
  apply contains_iff in Hc as (a & b & Hc).
  destruct (identifier_last x Hx) as (x' & cx & -> & Hcx & Hx').
  destruct (identifier_last n Hn) as (n' & cn & -> & Hcn & Hn').
  destruct (exists_last Hws1) as (ws1' & s & ->).
  assert (Hs : is_space s = true).
  { rewrite forallb_app in Hs1. apply andb_prop in Hs1 as [_ Hs].
    simpl in Hs. by rewrite andb_true_r in Hs. }
  assert (Heq : lit "    " ++ t ++ lit " " ++ x' ++ cx :: lit " "
                = a ++ dt ++ ws1' ++ [s] ++ n' ++ cn :: ws2).
  { unfold field_line in Hc.
    apply (FileResolution.app_cons_unique (ascii_of_nat 61) _
             (lit " " ++ str_of_int num ++ lit ";") _ (more ++ b)).
    - assert (Hlit : forall w : str,
                forallb (not_char (ascii_of_nat 61)) w = true ->
                ascii_of_nat 61 ∉ w).
      { intros w Hw. by apply (not_in_class _ w _ Hw). }
      destruct Ht as [_ Ht]. rewrite !elem_of_app, elem_of_cons.
      intros [H|[H|[H|[H|[H|H]]]]].
      + by apply (Hlit (lit "    ")) in H.
      + by apply (not_in_class is_word t _ Ht) in H.
      + by apply (Hlit (lit " ")) in H.
      + by apply (not_in_class is_word x' _ Hx') in H.
      + by apply (word_not_equals cx Hcx).
      + by apply (Hlit (lit " ")) in H.
    - assert (Hlit : forall w : str,
                forallb (not_char (ascii_of_nat 61)) w = true ->
                ascii_of_nat 61 ∉ w).
      { intros w Hw. by apply (not_in_class _ w _ Hw). }
      rewrite !elem_of_app. intros [H|[H|H]].
      + by apply (Hlit (lit " ")) in H.
      + by apply (not_in_class is_digit _ _ (str_of_int_is_digit num)) in H.
      + by apply (Hlit (lit ";")) in H.
    - revert Hc. clear. cbn. norm_app. cbn. norm_app. done. }
  destruct (run_at_end_unique is_space (lit " ") ws2 cx cn eq_refl Hs2
              (word_not_space _ Hcx) (word_not_space _ Hcn)
              (lit "    " ++ t ++ lit " " ++ x')
              (a ++ dt ++ ws1' ++ [s] ++ n')) as (Heq' & -> & _).
  { revert Heq. clear. cbn. norm_app. cbn. norm_app. done. }
  destruct (run_at_end_unique is_word x' n' (ascii_of_nat 32) s Hx' Hn'
              eq_refl (space_not_a_word _ Hs)
              (lit "    " ++ t) (a ++ dt ++ ws1')) as (_ & _ & ->).
  { revert Heq'. clear. cbn. norm_app. cbn. norm_app. done. }
  done.
Qed.

Lemma additional_lines_no_declaration ce (names : list str) (n d : str) :
  is_identifier n -> n ∉ names -> declares n d ->
  forall next, Forall (known ce) names ->
    Forall (fun l => contains d l = false) (additional_lines ce names next).
Proof.
  intros Hn Hnot Hd. induction names as [|x names IH]; intros next Hk; simpl;
    [done|].
  apply Forall_cons in Hk as [[Hx Ht] Hk].
  apply not_elem_of_cons in Hnot as [Hne Hnot].
  apply Forall_cons. split.
  - by apply (field_line_no_declaration _ x n).
  - by apply IH.
Qed.

Lemma declares_nonempty (n d : str) : declares n d -> d <> [].
Proof.
  intros (_ & t & ws1 & ws2 & more & -> & [Ht _] & _). by destruct t.
Qed.

(** What the schema-field strategy writes declares no name of the incoming
    side: a declaration of such a name stands in the replacement text only
    where the incoming text holds it. *)
Lemma declaration_from_incoming (o : gset str -> list str) (c : conflict)
    (n d : str) :
  set_order_ok o -> n ∈ dom (incoming_entries c) -> declares n d ->
  contains d (proto_merged_section o c) = true ->
  contains d (incoming_content c) = true.
Proof.
  intros Ho Hinc Hd. rewrite (proto_merged_section_eq o c Ho).
  destruct (current_only_names o c Ho) as [_ Hknown].
  assert (Hn : is_identifier n).
  { apply elem_of_dom in Hinc as [[t num] Hinc].
    by destruct (extract_oneof_ok (incoming_content c) n t num Hinc). }
  assert (Hnot : n ∉ sorted (elements (current_only c))).
  { by intros [_ H]%elem_of_current_only_names. }
  pose proof (additional_lines_no_declaration (current_entries c) _ n d Hn Hnot
                Hd (N.max (incoming_max c) (current_max c) + 1) Hknown)
    as Hlines.
  destruct (additional_lines _ _ _) as [|l ls]; [done|].
  intros [H|H]%contains_nl_split; [| |by destruct Hd].
  - destruct (rstrip_decomp (incoming_content c)) as (w & Hw & _).
    rewrite Hw. by apply contains_app_l.
  - apply contains_join_lines in H as (l0 & Hl0 & H);
      [|by destruct Hd|by apply (declares_nonempty n)].
    rewrite Forall_forall in Hlines. rewrite (Hlines l0 Hl0) in H. done.
Qed.

(** What [field_pattern] reads on a line is a declaration of the name it
    gives. *)
Lemma field_match_declares (line : str) (m : rmatch_obj) :
  nl_free line -> re_match field_pattern line = Some m ->
  declares (group m 2) (m_text m).
Proof.
  intros Hfree. unfold re_match, match_at. set (st := MState 0 line []).
  destruct (rmatch field_pattern st Some) as [e|] eqn:He; [|done].
  intros [= <-]. apply rmatch_sound in He as (e' & H & [= ->]).
  destruct H as (s1 & H1 & s2 & H2 & s3 & H3 & s4 & H4
    & s5 & [H5 C5]%Matches_Lit & s6 & H6 & s7 & H7 & [H8 C8]%Matches_Lit).
  apply Matches_Grp_Rep in H1 as (t & R1 & Pt & Lt & C1).
  apply Matches_Rep in H2 as (ws1 & R2 & P2 & L2 & C2).
  apply Matches_Grp_Rep in H3 as (n & R3 & Pn & Ln & C3).
  apply Matches_Rep in H4 as (ws2 & R4 & P4 & _ & C4).
  apply Matches_Rep in H6 as (ws3 & R6 & _ & _ & C6).
  apply Matches_Grp_Rep in H7 as (d & R7 & _ & _ & C7).
  assert (Hne : forall w : str, 1 <= length w -> w <> []).
  { intros [|] ?; simpl in *; [lia|done]. }
  assert (Hline : line = (t ++ ws1 ++ n ++ ws2 ++ lit "=" ++ ws3 ++ d
                          ++ lit ";") ++ rest e).
  { change line with (rest st). rewrite R1, R2, R3, R4, H5, R6, R7, H8.
    by norm_app. }
  assert (Htext : consumed st e
                  = t ++ ws1 ++ n ++ ws2 ++ lit "=" ++ ws3 ++ d ++ lit ";").
  { by apply consumed_app. }
  unfold group. cbn [m_text m_groups]. rewrite Htext, C8, C7, C6, C5, C4, C3.
  simpl. split.
  - unfold nl_free in *. rewrite Hline, forallb_app in Hfree.
    by apply andb_prop in Hfree as [? _].
  - exists t, ws1, ws2, (ws3 ++ d ++ lit ";"). split; [done|].
    split; [split; auto|]. split; [auto|]. done.
Qed.

(** C3, as the code has it.  For a field name that both sides declare, the
    entry of the replacement text is the entry of the incoming side, type
    and number.  The replacement text is the incoming text followed only by
    lines for the names of the current side alone, none of them for that
    name.  So a declaration of that name, the one of the current side
    included, stands in the replacement text only where the incoming text
    itself holds it; this is so for whatever [field_pattern] reads on a line
    as a declaration of that name. *)
Theorem incoming_declaration_wins
    (o : gset str -> list str) (c : conflict) (n : str) (v : str * N) :
  set_order_ok o ->
  n ∈ dom (current_entries c) ->
  incoming_entries c !! n = Some v ->
  merged_entries o c !! n = Some v
  /\ (exists names lines,
        names = sorted (elements (current_only c))
        /\ (n ∉ names)
        /\ lines = imap (fun i x =>
                           field_line (fst (item (current_entries c) x ([], 0%N)))
                             x (N.max (incoming_max c) (current_max c) + 1
                                + N.of_nat i)) names
        /\ proto_merged_section o c
           = match lines with
             | [] => incoming_content c
             | _ => rstrip (incoming_content c) ++ nl :: join_nl lines
             end)
  /\ (forall d, declares n d ->
        contains d (proto_merged_section o c) = true ->
        contains d (incoming_content c) = true)
  /\ (forall line m,
        nl_free line -> re_match field_pattern line = Some m ->
        group m 2 = n ->
        contains (m_text m) (proto_merged_section o c) = true ->
        contains (m_text m) (incoming_content c) = true).
Proof.
  intros Ho Hcur Hinc.
  assert (Hnot : n ∉ sorted (elements (current_only c))).
  { intros [_ H]%elem_of_current_only_names. apply H, elem_of_dom. eauto. }
  assert (Hdom : n ∈ dom (incoming_entries c)) by (apply elem_of_dom; eauto).
  split; [|split; [|split]].
  - rewrite (merged_entries_eq o c Ho). by rewrite add_entries_lookup_other.
  - eexists _, _. split; [reflexivity|]. split; [exact Hnot|].
    split; [reflexivity|].
    rewrite (proto_merged_section_eq o c Ho), additional_lines_imap.
    by destruct (imap _ _).
  - intros d. by apply (declaration_from_incoming o c n).
  - intros line m Hfree Hm Hn.
    apply (declaration_from_incoming o c n); [done|done|].
    rewrite <- Hn. by apply (field_match_declares line).
Qed.

Lemma incoming_declaration_wins_witness :
  let c := Conflict (lit "HEAD") (text ["string Foo = 3;"; "int Bar = 6;"])
             (lit "topic") (lit "bytes Foo = 5;")
             (conflict_text (lit "HEAD")
                (text ["string Foo = 3;"; "int Bar = 6;"])
                (lit "bytes Foo = 5;") (lit "topic")) in
  merged_entries elements c !! lit "Foo" = Some (lit "bytes", 5%N)
  /\ proto_merged_section elements c
     = text ["bytes Foo = 5;"; "    int Bar = 7;"]
  /\ contains (lit "string Foo = 3;") (proto_merged_section elements c)
     = false.
Proof.
  intros c.
  destruct (incoming_declaration_wins elements c (lit "Foo") (lit "bytes", 5%N)
              (fun X => reflexivity (elements X)))
    as (H1 & _ & H3 & _).
  - by vm_compute.
  - by vm_compute.
  - split; [exact H1|]. split; [by vm_compute|].
    destruct (contains (lit "string Foo = 3;") _) eqn:Hc; [|done].
    apply H3 in Hc; [by vm_compute in Hc|].
    split; [reflexivity|].
    exists (lit "string"), (lit " "), (lit " "), (lit " 3;").
    split; [reflexivity|]. split; [split; [discriminate|reflexivity]|].
    split; [discriminate|]. split; reflexivity.
Defined.

(** C3 does not hold as stated: the incoming text is kept as it is, so a
    declaration of the current side that the incoming text also holds, in a
    comment or on a line that a later line of the incoming side overrides,
    stands in the output. *)
Lemma current_declaration_kept_in_incoming_text :
  let a := text ["<<<<<<< HEAD"; "string Foo = 3;"; "=======";
                 "bytes Foo = 5; // was: string Foo = 3;"; ">>>>>>> topic"] in
  let b := text ["<<<<<<< HEAD"; "string Foo = 3;"; "=======";
                 "string Foo = 3;"; "bytes Foo = 5;"; ">>>>>>> topic"] in
  (exists c, parse_conflict_sections a = [c]
     /\ current_entries c !! lit "Foo" = Some (lit "string", 3%N)
     /\ incoming_entries c !! lit "Foo" = Some (lit "bytes", 5%N)
     /\ resolve_proto_conflict elements a
        = lit "bytes Foo = 5; // was: string Foo = 3;"
     /\ contains (lit "string Foo = 3;") (resolve_proto_conflict elements a)
        = true)
  /\ (exists c, parse_conflict_sections b = [c]
        /\ current_entries c !! lit "Foo" = Some (lit "string", 3%N)
        /\ incoming_entries c !! lit "Foo" = Some (lit "bytes", 5%N)
        /\ resolve_proto_conflict elements b
           = text ["string Foo = 3;"; "bytes Foo = 5;"]
        /\ contains (lit "string Foo = 3;")
             (resolve_proto_conflict elements b) = true).
Proof.
  split; (eexists; split; [vm_compute; reflexivity|]);
    (split; [by vm_compute|]); (split; [by vm_compute|]);
    (split; by vm_compute).
Qed.

End SupersedeRule.

(** ** The matcher misses nothing that the pattern allows *)
Module ReComplete.
Import StrFacts ReFacts.

Lemma orelse_None {A} (a b : option A) :
  orelse a b = None -> a = None /\ b = None.
Proof. destruct a; simpl; [done|auto]. Qed.

Lemma rep_greedy_complete k p (st : mstate) : forall s min n,
  rep_greedy k p min st n s = None ->
  forall j, min <= j <= length s -> forallb p (take j s) = true ->
            k (advance (n + j) st) = None.
Proof.
  induction s as [|c s IH]; intros min n H j Hj Hp; simpl in *.
  - assert (j = 0) as -> by lia. assert (min = 0) as -> by lia.
    by rewrite Nat.add_0_r.
  - destruct j as [|j].
    + assert (min = 0) as -> by lia. rewrite Nat.add_0_r.
      destruct (p c); [by apply orelse_None in H as [_ ?]|done].
    + simpl in Hp. apply andb_prop in Hp as [Hc Hp]. rewrite Hc in H.
      apply orelse_None in H as [H _].
      replace (n + S j) with (S n + j) by lia.
      apply (IH (pred min) (S n) H); [lia|done].
Qed.

Lemma rep_lazy_complete k p (st : mstate) : forall s min n,
  rep_lazy k p min st n s = None ->
  forall j, min <= j <= length s -> forallb p (take j s) = true ->
            k (advance (n + j) st) = None.
Proof.
  induction s as [|c s IH]; intros min n H j Hj Hp; simpl in *.
  - assert (j = 0) as -> by lia. assert (min = 0) as -> by lia.
    rewrite Nat.add_0_r. by apply orelse_None in H as [? _].
  - destruct j as [|j].
    + assert (min = 0) as -> by lia. rewrite Nat.add_0_r.
      by apply orelse_None in H as [? _].
    + simpl in Hp. apply andb_prop in Hp as [Hc Hp]. rewrite Hc in H.
      assert (H' : rep_lazy k p (pred min) st (S n) s = None).
      { destruct min; [by apply orelse_None in H as [_ ?]|done]. }
      replace (n + S j) with (S n + j) by lia.
      apply (IH (pred min) (S n) H'); [lia|done].
Qed.

(** Completeness: when an attempt fails, the continuation fails at every
    point that the pattern allows. *)
Theorem rmatch_complete r : forall st k,
  rmatch r st k = None ->
  forall st', Matches r st st' -> k st' = None.
Proof.
  induction r as [l|p|g min p|r1 IH1 r2 IH2|r1 IH1 r2 IH2|n r IH|r IH| |];
    intros st k H st'; simpl in *.
  - intros [Hl ->]. by rewrite Hl in H.
  - intros [(c & s' & Hs & Hc) ->]. by rewrite Hs, Hc in H.
  - intros (n & Hn & Hp & ->).
    destruct g; [by apply (rep_greedy_complete k p st _ _ 0 H)
                |by apply (rep_lazy_complete k p st _ _ 0 H)].
  - intros (st1 & H1 & H2). apply (IH2 st1 k); [|done].
    by apply (IH1 st _ H).
  - apply orelse_None in H as [Ha Hb]. intros [H1|H2]; eauto.
  - intros (st1 & H1 & ->). by apply (IH st _ H).
  - intros [(st1 & H1) ->].
    destruct (rmatch r st Some) as [e|] eqn:He; [done|].
    by pose proof (IH st Some He st1 H1).
  - intros [Hp ->]. by rewrite Hp in H.
  - intros [[Hs|Hs] ->]; rewrite Hs in H; [done|]. by rewrite ascii_eqb_refl in H.
Qed.

(** An attempt succeeds exactly when the pattern allows some reading. *)
Corollary match_at_Some_iff (r : regex) (p : nat) (s : str) :
  (exists m, match_at r p s = Some m)
  <-> exists e, Matches r (MState p s []) e.
Proof.
  unfold match_at. split.
  - intros [m Hm]. destruct (rmatch r _ Some) as [e|] eqn:He; [|done].
    apply rmatch_sound in He as (e' & H & _). eauto.
  - intros [e He]. destruct (rmatch r _ Some) as [e'|] eqn:He'; [eauto|].
    by pose proof (rmatch_complete r _ _ He' e He).
Qed.

End ReComplete.

(** ** What the parser returns, and when *)
Module ParserLayout.
Import StrFacts ReFacts ParserFacts ReComplete.

Lemma match_at_text (r : regex) (p : nat) (s : str) (m : rmatch_obj) :
  match_at r p s = Some m -> m_text m = take (length (m_text m)) s.
Proof.
  unfold match_at. destruct (rmatch r _ Some) as [e|]; [|done].
  intros [= <-]. unfold consumed. simpl.
  rewrite length_take. f_equal. lia.
Qed.

Lemma interleave_step (g sp : str) (gaps spans : list str) :
  interleave (g :: gaps) (sp :: spans) = g ++ sp ++ interleave gaps spans.
Proof. done. Qed.

Lemma interleave_cons (c : ascii) (g : str) (gaps spans : list str) :
  interleave ((c :: g) :: gaps) spans = c :: interleave (g :: gaps) spans.
Proof. by destruct spans. Qed.

(** [finditer] cuts the part of the subject that it scans into gaps and
    matched texts, in order and without overlap. *)
Lemma finditer_from_layout r : forall s p skip,
  exists gaps,
    length gaps = S (length (finditer_from r p skip s))
    /\ drop skip s = interleave gaps (map m_text (finditer_from r p skip s)).
Proof.
  induction s as [|c s IH]; intros p skip.
  - destruct skip; simpl; [|by exists [[]]].
    destruct (match_at r p []) as [m|] eqn:Hm; [|by exists [[]]].
    apply match_at_text in Hm. rewrite take_nil in Hm.
    exists [[]; []]. simpl. by rewrite Hm.
  - destruct skip as [|n]; [|apply IH].
    cbn [finditer_from drop].
    destruct (match_at r p (c :: s)) as [m|] eqn:Hm.
    + apply match_at_text in Hm.
      destruct (IH (S p) (pred (length (m_text m)))) as (gaps & Hlen & Hs).
      set (ms := finditer_from r (S p) (pred (length (m_text m))) s) in *.
      cbn [map length]. clearbody ms.
      destruct (m_text m) as [|c' t] eqn:Ht.
      * destruct gaps as [|g gaps]; [done|].
        exists ([] :: (c :: g) :: gaps). cbn [length] in *.
        split; [by rewrite Hlen|].
        rewrite interleave_step, !app_nil_l, interleave_cons. f_equal.
        exact Hs.
      * exists ([] :: gaps). cbn [length pred] in *.
        split; [by rewrite Hlen|].
        rewrite interleave_step, app_nil_l, <- Hs.
        rewrite <- (take_drop (S (length t)) (c :: s)) at 1.
        by rewrite <- Hm.
    + destruct (IH (S p) 0) as (gaps & Hlen & Hs).
      destruct gaps as [|g gaps]; [done|].
      exists ((c :: g) :: gaps). split; [done|].
      rewrite interleave_cons. f_equal. exact Hs.
Qed.

(** X1. Whatever the buffer, it is made of the raw spans of the conflicts
    that the parser returns, in the order returned and without overlap, with
    gaps between them; and every conflict returned is well formed. *)
Theorem parsed_conflicts_layout (content : str) :
  (exists gaps,
     length gaps = S (length (parse_conflict_sections content))
     /\ content
        = interleave gaps (map full_match (parse_conflict_sections content)))
  /\ Forall well_formed (parse_conflict_sections content).
Proof.
  split.
  - destruct (finditer_from_layout conflict_pattern content 0 0)
      as (gaps & Hlen & Hs).
    exists gaps. unfold parse_conflict_sections, finditer.
    rewrite length_map, <- list_fmap_compose. done.
  - apply Forall_forall. intros c Hc.
    apply parse_conflict_shape in Hc as (? & ? & ? & _). done.
Qed.

Lemma Matches_Lit_intro (l s : str) (st : mstate) :
  rest st = l ++ s ->
  Matches (Lit l) st (MState (pos st + length l) s (caps st)).
Proof.
  intros H. split; [rewrite H; apply startswith_app|].
  unfold advance. by rewrite H, drop_app_length.
Qed.

Lemma Matches_Rep_intro g min p (w s : str) (st : mstate) :
  rest st = w ++ s -> forallb p w = true -> min <= length w ->
  Matches (Rep g min p) st (MState (pos st + length w) s (caps st)).
Proof.
  intros H Hw Hmin. exists (length w). rewrite H, length_app.
  split; [lia|]. rewrite take_app_length. split; [done|].
  unfold advance. by rewrite H, drop_app_length.
Qed.

Lemma Matches_Grp_Rep_intro n g min p (w s : str) (st : mstate) :
  rest st = w ++ s -> forallb p w = true -> min <= length w ->
  Matches (Grp n (Rep g min p)) st
    (MState (pos st + length w) s ((n, w) :: caps st)).
Proof.
  intros H Hw Hmin. eexists. split; [by apply (Matches_Rep_intro g min p w s)|].
  unfold capture. simpl. by rewrite (consumed_app st _ w).
Qed.

Lemma forallb_any (w : str) : forallb any_char w = true.
Proof. by induction w. Qed.

(** The pattern allows a reading of every conflict text. *)
Lemma conflict_text_Matches (q : nat) (ref1 cur inc ref2 post : str) :
  is_label ref1 -> is_label ref2 ->
  exists e,
    Matches conflict_pattern
      (MState q (conflict_text ref1 cur inc ref2 ++ post) []) e.
Proof.
  intros [N1 L1] [N2 L2].
  assert (Hlen : forall w : str, w <> [] -> 1 <= length w).
  { intros [|] ?; simpl; [done|lia]. }
  eexists. unfold conflict_pattern, conflict_text. cbn [cat].
  eexists. split; [apply Matches_Lit_intro; cbn [rest]; by norm_app|].
  eexists. split.
  { apply (Matches_Grp_Rep_intro 1 true 1 (not_char nl) ref1);
      [reflexivity|done|by apply Hlen]. }
  eexists. split; [by apply (Matches_Lit_intro [nl])|].
  eexists. split.
  { apply (Matches_Grp_Rep_intro 2 false 0 any_char cur);
      [reflexivity|apply forallb_any|lia]. }
  eexists. split; [by apply Matches_Lit_intro|].
  eexists. split.
  { apply (Matches_Grp_Rep_intro 3 false 0 any_char inc);
      [reflexivity|apply forallb_any|lia]. }
  eexists. split; [by apply Matches_Lit_intro|].
  apply (Matches_Grp_Rep_intro 4 true 1 (not_char nl) ref2 post);
    [reflexivity|done|by apply Hlen].
Qed.

Lemma finditer_nil_no_match r : forall s p,
  finditer_from r p 0 s = [] ->
  forall a b, s = a ++ b -> match_at r (p + length a) b = None.
Proof.
  induction s as [|c s IH]; intros p H a b Hab.
  - symmetry in Hab. apply app_eq_nil in Hab as [-> ->].
    simpl in *. rewrite Nat.add_0_r.
    by destruct (match_at r p []).
  - simpl in H. destruct (match_at r p (c :: s)) as [m|] eqn:Hm; [done|].
    destruct a as [|c' a]; simpl in Hab.
    + subst b. simpl. by rewrite Nat.add_0_r.
    + injection Hab as -> ->. simpl.
      replace (p + S (length a)) with (S p + length a) by lia.
      by apply IH.
Qed.

(** X2. The parser returns no conflict exactly when the buffer holds no
    conflict text: no "<<<<<<< " with a label, a line break, some text, a
    separator line, some text, and a line that starts with ">>>>>>> " and a
    label. *)
Theorem parse_nil_iff (content : str) :
  parse_conflict_sections content = []
  <-> ~ exists a ref1 cur inc ref2 post,
          content = a ++ conflict_text ref1 cur inc ref2 ++ post
          /\ is_label ref1 /\ is_label ref2.
Proof.
  split.
  - intros Hnil (a & ref1 & cur & inc & ref2 & post & -> & L1 & L2).
    unfold parse_conflict_sections, finditer in Hnil.
    apply fmap_nil_inv in Hnil.
    pose proof (finditer_nil_no_match _ _ _ Hnil a _ eq_refl) as Hno.
    destruct (conflict_text_Matches (0 + length a) ref1 cur inc ref2 post L1 L2)
      as [e He].
    destruct (proj2 (match_at_Some_iff conflict_pattern (0 + length a)
                       (conflict_text ref1 cur inc ref2 ++ post)))
      as [m Hm]; [eauto|]. congruence.
  - intros Hno.
    destruct (parse_conflict_sections content) as [|c cs] eqn:Hparse; [done|].
    exfalso. apply Hno.
    assert (Hc : c ∈ parse_conflict_sections content)
      by (rewrite Hparse; by left).
    apply parse_conflict_shape in Hc as (L1 & L2 & Hfm & Hin).
    apply contains_iff in Hin as (a & post & ->).
    exists a, (current_ref c), (current_content c), (incoming_content c),
      (incoming_ref c), post. by rewrite <- Hfm.
Qed.

End ParserLayout.

(** ** A buffer with one conflict *)
Module SingleConflict.
Import StrFacts ReFacts ParserFacts ReSteps ReComplete ParserLayout.

(** A lazy repetition stops at the first point from which the rest of the
    pattern succeeds. *)
Lemma rep_lazy_first k p (st : mstate) res : forall j s n,
  j <= length s -> forallb p (take j s) = true ->
  (forall i, i < j -> k (advance (n + i) st) = None) ->
  k (advance (n + j) st) = Some res ->
  rep_lazy k p 0 st n s = Some res.
Proof.
  induction j as [|j IH]; intros s n Hj Hp Hno Hk.
  - rewrite Nat.add_0_r in Hk. destruct s; simpl; by rewrite Hk.
  - destruct s as [|c s]; [simpl in Hj; lia|].
    simpl in Hp. apply andb_prop in Hp as [Hc Hp]. simpl.
    pose proof (Hno 0 (Nat.lt_0_succ j)) as H0. rewrite Nat.add_0_r in H0.
    rewrite H0, Hc. simpl. apply IH; [simpl in Hj; lia|done| |].
    + intros i Hi. replace (S n + i) with (n + S i) by lia. apply Hno. lia.
    + by replace (S n + j) with (n + S j) by lia.
Qed.

Lemma step_grp_lazy (g : nat) (w s : str) (st : mstate) k res :
  rest st = w ++ s ->
  (forall i, i < length w ->
     k (MState (pos st + i) (drop i (w ++ s)) ((g, take i w) :: caps st))
     = None) ->
  k (MState (pos st + length w) s ((g, w) :: caps st)) = Some res ->
  rmatch (Grp g (lazy_star any_char)) st k = Some res.
Proof.
  intros H Hno Hk. cbn [rmatch lazy_star].
  assert (Hcap : forall i, i <= length w ->
            capture g st (advance i st)
            = MState (pos st + i) (drop i (w ++ s)) ((g, take i w) :: caps st)).
  { intros i Hi. unfold capture, advance. cbn [pos rest caps]. rewrite H.
    f_equal. f_equal. f_equal. apply consumed_app. cbn [rest].
    rewrite H. rewrite <- (take_drop i (w ++ s)) at 1.
    by rewrite take_app_le by done. }
  apply (rep_lazy_first _ any_char st res (length w)).
  - rewrite H, length_app. lia.
  - apply forallb_any.
  - intros i Hi. cbn [Nat.add]. rewrite Hcap by lia. by apply Hno.
  - cbn [Nat.add]. rewrite Hcap by lia.
    by rewrite drop_app_length, take_ge by lia.
Qed.

(** A text that does not hold [t], followed by [t]: the first place where
    [t] is found is the end of the text, when the first character of [t]
    does not come again in [t]. *)
Lemma no_early_occurrence (c0 : ascii) (t' x y : str) :
  c0 ∉ t' -> contains (c0 :: t') x = false ->
  forall i, i < length x ->
    startswith (c0 :: t') (drop i (x ++ (c0 :: t') ++ y)) = false.
Proof.
  intros Hc0 Hx i Hi. apply not_true_is_false. intros Hst.
  apply startswith_iff in Hst as [z Hz].
  rewrite drop_app_le in Hz by lia.
  assert (Hb : drop i x <> []).
  { intros Hnil%(f_equal length). rewrite length_drop in Hnil. simpl in Hnil. lia. }
  assert (Hcontra : contains (c0 :: t') x = true -> False) by congruence.
  apply app_eq_inv in Hz as [(k & Hb1 & _)|(k & Ht & Hk)].
  - apply Hcontra, contains_iff. exists (take i x), k.
    by rewrite <- Hb1, take_drop.
  - destruct (drop i x) as [|b0 b] eqn:Hd; [done|].
    simpl in Ht. injection Ht as <- ->.
    destruct k as [|k0 k].
    + apply Hcontra, contains_iff. exists (take i x), [].
      rewrite !app_nil_r. rewrite <- (take_drop i x) at 1. by rewrite Hd.
    + simpl in Hk. injection Hk as <- _. apply Hc0.
      apply elem_of_app. right. by left.
Qed.

Lemma startswith_app_prefix (a b s : str) :
  startswith a s = false -> startswith (a ++ b) s = false.
Proof.
  intros Ha. apply not_true_is_false. intros [z ->]%startswith_iff.
  rewrite <- app_assoc, startswith_app in Ha. done.
Qed.

Lemma seq_lit_fail (l : str) (r : regex) (st : mstate) k :
  startswith l (rest st) = false -> rmatch (Seq (Lit l) r) st k = None.
Proof. intros H. simpl. by rewrite H. Qed.

Lemma at_line_end_stops (post : str) :
  at_line_end post -> stops (not_char nl) post.
Proof.
  intros [->|[post' ->]]; simpl; [done|].
  unfold not_char. by rewrite ascii_eqb_refl.
Qed.

(** At the start of a conflict text whose sides hold no further separator
    line and no further incoming-side marker line, the pattern reads the
    whole text, and its groups are the labels and the sides. *)
Lemma conflict_match_exact (q : nat) (ref1 cur inc ref2 post : str) :
  is_label ref1 -> is_label ref2 ->
  contains (nl :: marker_separator) cur = false ->
  contains (nl :: marker_incoming) inc = false ->
  at_line_end post ->
  match_at conflict_pattern q (conflict_text ref1 cur inc ref2 ++ post)
  = Some (Match q (conflict_text ref1 cur inc ref2)
            [(4, ref2); (3, inc); (2, cur); (1, ref1)]).
Proof.
  intros [N1 L1] [N2 L2] Hcur Hinc Hpost%at_line_end_stops.
  assert (Hlen : forall w : str, w <> [] -> 1 <= length w).
  { intros [|] ?; simpl; [done|lia]. }
  set (t3 := (nl :: marker_incoming) ++ ref2 ++ post).
  set (t2 := (nl :: marker_separator) ++ [nl] ++ inc ++ t3).
  set (t1 := ref1 ++ [nl] ++ cur ++ t2).
  assert (Htext : conflict_text ref1 cur inc ref2 ++ post = marker_current ++ t1).
  { unfold conflict_text, t1, t2, t3. by norm_app. }
  cut (rmatch conflict_pattern (MState q (marker_current ++ t1) []) Some
       = Some (MState (q + length marker_current + length ref1 + 1 + length cur
                       + length (nl :: marker_separator ++ [nl]) + length inc
                       + length (nl :: marker_incoming) + length ref2)
                 post [(4, ref2); (3, inc); (2, cur); (1, ref1)])).
  { intros H. unfold match_at. rewrite Htext, H. f_equal. f_equal.
    apply consumed_app. cbn [rest]. by rewrite <- Htext. }
  unfold conflict_pattern. cbn [cat].
  rewrite step_seq, (step_lit marker_current t1) by done.
  rewrite step_seq.
  eapply (step_grp_rep 1 (not_char nl) 1 ref1 ([nl] ++ cur ++ t2));
    [done|done| |by apply Hlen|].
  { simpl. unfold not_char. by rewrite ascii_eqb_refl. }
  rewrite step_seq, (step_lit [nl] (cur ++ t2)) by done.
  rewrite step_seq.
  eapply (step_grp_lazy 2 cur t2); [done| |].
  { intros i Hi. apply seq_lit_fail. cbn [rest].
    apply (startswith_app_prefix (nl :: marker_separator) [nl]).
    apply (no_early_occurrence nl marker_separator cur); [|done|done].
    by intros ?%list_elem_of_In; simpl in *; intuition discriminate. }
  rewrite step_seq,
    (step_lit (nl :: marker_separator ++ [nl]) (inc ++ t3)) by done.
  rewrite step_seq.
  eapply (step_grp_lazy 3 inc t3); [done| |].
  { intros i Hi. apply seq_lit_fail. cbn [rest].
    apply (no_early_occurrence nl marker_incoming inc); [|done|done].
    by intros ?%list_elem_of_In; simpl in *; intuition discriminate. }
  rewrite step_seq, (step_lit (nl :: marker_incoming) (ref2 ++ post)) by done.
  eapply (step_grp_rep 4 (not_char nl) 1 ref2 post);
    [done|done|done|by apply Hlen|].
  cbn [pos caps length]. repeat f_equal; lia.
Qed.

Lemma match_needs_marker (q : nat) (s : str) :
  startswith marker_current s = false -> match_at conflict_pattern q s = None.
Proof.
  intros H. unfold match_at, conflict_pattern. cbn [cat].
  by rewrite seq_lit_fail.
Qed.

Lemma suffix_of_line_start (pre a b : str) :
  at_line_start pre -> pre = a ++ b -> b <> [] -> exists b', b = b' ++ [nl].
Proof.
  intros [->|[pre' ->]] Hab Hb.
  - symmetry in Hab. by apply app_eq_nil in Hab as [_ ->].
  - destruct (exists_last Hb) as (b' & x & ->).
    rewrite app_assoc in Hab. apply app_inj_tail in Hab as [_ <-]. eauto.
Qed.

(** No occurrence of a marker begins in a text that holds none and ends a
    line. *)
Lemma no_marker_from_pre (t pre a b rest : str) :
  nl ∉ t -> at_line_start pre -> contains t pre = false ->
  pre = a ++ b -> b <> [] -> startswith t (b ++ rest) = false.
Proof.
  intros Hnl Hstart Hpre Hab Hb. apply not_true_is_false.
  intros [z Hz]%startswith_iff.
  destruct (suffix_of_line_start pre a b Hstart Hab Hb) as [b' ->].
  apply app_eq_inv in Hz as [(k & Hb1 & _)|(k & Ht & _)].
  - assert (contains t pre = true); [|congruence].
    apply contains_iff. exists a, k. by rewrite Hab, Hb1.
  - apply Hnl. rewrite Ht. rewrite !elem_of_app, list_elem_of_singleton. auto.
Qed.

Lemma no_marker_in (t post a b : str) :
  contains t post = false -> post = a ++ b -> startswith t b = false.
Proof.
  intros Hpost -> . apply not_true_is_false. intros [z ->]%startswith_iff.
  assert (contains t (a ++ t ++ z) = true); [|congruence].
  apply contains_iff. by exists a, z.
Qed.

Lemma finditer_from_gap r (s : str) : forall (g : str) p,
  (forall a b, g = a ++ b -> b <> [] ->
     match_at r (p + length a) (b ++ s) = None) ->
  finditer_from r p 0 (g ++ s) = finditer_from r (p + length g) 0 s.
Proof.
  induction g as [|c g IH]; intros p Hno.
  - simpl. by rewrite Nat.add_0_r.
  - pose proof (Hno [] (c :: g) eq_refl) as H0. simpl in H0.
    rewrite Nat.add_0_r in H0. cbn [app finditer_from]. rewrite H0 by done.
    rewrite IH; [simpl; f_equal; lia|].
    intros a b -> Hb. replace (S p + length a) with (p + length (c :: a))
      by (simpl; lia).
    by apply Hno.
Qed.

Lemma finditer_from_skip r (y : str) : forall (x : str) p,
  finditer_from r p (length x) (x ++ y) = finditer_from r (p + length x) 0 y.
Proof.
  induction x as [|c x IH]; intros p; simpl.
  - by rewrite Nat.add_0_r.
  - rewrite IH. f_equal. lia.
Qed.

Lemma finditer_at_match r (p : nat) (t post : str) (m : rmatch_obj) :
  match_at r p (t ++ post) = Some m -> m_text m = t -> t <> [] ->
  finditer_from r p 0 (t ++ post)
  = m :: finditer_from r (p + length t) 0 post.
Proof.
  intros Hm Ht Hne. destruct t as [|c t]; [done|].
  cbn [app finditer_from]. rewrite <- app_comm_cons in Hm. rewrite Hm, Ht.
  cbn [length pred]. rewrite finditer_from_skip. do 2 f_equal. lia.
Qed.

(** The parser on a buffer with one conflict. *)
Lemma parse_single_conflict (pre ref1 cur inc ref2 post : str) :
  at_line_start pre -> contains marker_current pre = false ->
  is_label ref1 -> is_label ref2 ->
  contains (nl :: marker_separator) cur = false ->
  contains (nl :: marker_incoming) inc = false ->
  at_line_end post -> contains marker_current post = false ->
  parse_conflict_sections (pre ++ conflict_text ref1 cur inc ref2 ++ post)
  = [Conflict ref1 cur ref2 inc (conflict_text ref1 cur inc ref2)].
Proof.
  intros Hstart Hpre L1 L2 Hcur Hinc Hend Hpost.
  unfold parse_conflict_sections, finditer.
  rewrite finditer_from_gap.
  - rewrite (finditer_at_match _ _ _ _ _
               (conflict_match_exact _ ref1 cur inc ref2 post L1 L2 Hcur Hinc
                  Hend)); [|done|by destruct L1].
    rewrite finditer_from_nil; [done|].
    intros a b q Hab. apply match_needs_marker.
    by apply (no_marker_in _ post a).
  - intros a b Hab Hb. apply match_needs_marker.
    apply (no_marker_from_pre _ pre a); try done.
    by intros ?%list_elem_of_In; simpl in *; intuition discriminate.
Qed.

Lemma replace_from_skip old new (y : str) : forall x : str,
  replace_from old new (length x) (x ++ y) = replace_from old new 0 y.
Proof. induction x as [|c x IH]; simpl; [by destruct y|done]. Qed.

Lemma replace_from_none old new : forall s : str,
  (forall a b, s = a ++ b -> startswith old b = false) ->
  replace_from old new 0 s = s.
Proof.
  induction s as [|c s IH]; intros Hno; [done|].
  cbn [replace_from]. rewrite (Hno [] (c :: s)) by done. f_equal.
  apply IH. intros a b ->. by apply (Hno (c :: a)).
Qed.

Lemma replace_from_gap old new (s : str) : forall g : str,
  (forall a b, g = a ++ b -> b <> [] -> startswith old (b ++ s) = false) ->
  replace_from old new 0 (g ++ s) = g ++ replace_from old new 0 s.
Proof.
  induction g as [|c g IH]; intros Hno; [done|].
  pose proof (Hno [] (c :: g) eq_refl) as H0.
  rewrite <- app_comm_cons in H0.
  cbn [app replace_from]. rewrite H0 by done.
  f_equal. apply IH. intros a b -> Hb. by apply (Hno (c :: a)).
Qed.

Lemma replace_from_here old new (post : str) :
  old <> [] ->
  replace_from old new 0 (old ++ post) = new ++ replace_from old new 0 post.
Proof.
  intros Hne. destruct old as [|c old]; [done|].
  cbn [app replace_from]. change (c :: old ++ post) with ((c :: old) ++ post).
  rewrite startswith_app. cbn [length pred]. by rewrite replace_from_skip.
Qed.

(** [replace] on a text where [old] is found once, between a part where no
    occurrence begins and a part that does not hold it. *)
Lemma replace_once (old new pre post : str) :
  old <> [] ->
  (forall a b, pre = a ++ b -> b <> [] ->
     startswith old (b ++ old ++ post) = false) ->
  contains old post = false ->
  replace old new (pre ++ old ++ post) = pre ++ new ++ post.
Proof.
  intros Hne Hpre Hpost.
  assert (Hr : replace old new (pre ++ old ++ post)
               = replace_from old new 0 (pre ++ old ++ post))
    by (by destruct old).
  rewrite Hr, replace_from_gap by done.
  rewrite replace_from_here by done. rewrite replace_from_none; [done|].
  intros a b Hab. by apply (no_marker_in old post a).
Qed.

Lemma marker_current_no_nl : nl ∉ marker_current.
Proof. by intros ?%list_elem_of_In; simpl in *; intuition discriminate. Qed.

Lemma resolve_with_single (merge : conflict -> str)
    (pre ref1 cur inc ref2 post : str) :
  at_line_start pre -> contains marker_current pre = false ->
  is_label ref1 -> is_label ref2 ->
  contains (nl :: marker_separator) cur = false ->
  contains (nl :: marker_incoming) inc = false ->
  at_line_end post -> contains marker_current post = false ->
  resolve_with merge (pre ++ conflict_text ref1 cur inc ref2 ++ post)
  = pre ++ merge (Conflict ref1 cur ref2 inc (conflict_text ref1 cur inc ref2))
    ++ post.
Proof.
  intros Hstart Hpre L1 L2 Hcur Hinc Hend Hpost. unfold resolve_with.
  rewrite parse_single_conflict by done. cbn [fold_left full_match].
  apply replace_once.
  - by destruct L1.
  - intros a b Hab Hb. unfold conflict_text at 1.
    apply startswith_app_prefix.
    apply (no_marker_from_pre _ pre a); try done.
    apply marker_current_no_nl.
  - apply not_true_is_false. intros (a & b & Hab)%contains_iff.
    assert (contains marker_current post = true); [|congruence].
    apply contains_iff. exists a. eexists. rewrite Hab.
    unfold conflict_text. by norm_app.
Qed.

(** X3. A buffer made of a text that holds no current-side marker and ends
    a line, a conflict text whose current side holds no further separator
    line and whose incoming side holds no further incoming-side marker
    line, and a text that begins a line and holds no current-side marker:
    the parser returns that conflict and no other, with its labels, its
    sides and its raw span, and each of the three strategies puts its
    replacement text in the place of the conflict and leaves the rest of the
    buffer as it is. *)
Theorem single_conflict_replaced
    (o : gset str -> list str) (pre ref1 cur inc ref2 post : str) :
  at_line_start pre -> contains marker_current pre = false ->
  is_label ref1 -> is_label ref2 ->
  contains (nl :: marker_separator) cur = false ->
  contains (nl :: marker_incoming) inc = false ->
  at_line_end post -> contains marker_current post = false ->
  let c := Conflict ref1 cur ref2 inc (conflict_text ref1 cur inc ref2) in
  let content := pre ++ conflict_text ref1 cur inc ref2 ++ post in
  parse_conflict_sections content = [c]
  /\ resolve_generic_conflict content = pre ++ generic_merged_section c ++ post
  /\ resolve_proto_conflict o content = pre ++ proto_merged_section o c ++ post
  /\ resolve_go_conflict o content = pre ++ go_merged_section o c ++ post.
Proof.
  intros Hstart Hpre L1 L2 Hcur Hinc Hend Hpost c content.
  split; [by apply parse_single_conflict|].
  unfold resolve_generic_conflict, resolve_proto_conflict, resolve_go_conflict.
  unfold content. by rewrite !resolve_with_single.
Qed.

Lemma single_conflict_replaced_witness :
  let pre := text ["oneof secret {"; ""] in
  let post := text [""; "}"] in
  let cur := text ["  string Foo = 3;"; "  int Bar = 6;"] in
  let inc := lit "  string Foo = 5;" in
  let content := pre ++ conflict_text (lit "HEAD") cur inc (lit "topic") ++ post in
  content = text ["oneof secret {"; "<<<<<<< HEAD"; "  string Foo = 3;";
                  "  int Bar = 6;"; "======="; "  string Foo = 5;";
                  ">>>>>>> topic"; "}"]
  /\ resolve_generic_conflict content
     = text ["oneof secret {"; "  string Foo = 5;"; "  string Foo = 3;";
             "  int Bar = 6;"; "}"]
  /\ resolve_proto_conflict elements content
     = text ["oneof secret {"; "  string Foo = 5;"; "    int Bar = 7;"; "}"].
Proof.
  intros pre post cur inc content. split; [reflexivity|].
  destruct (single_conflict_replaced elements pre (lit "HEAD") cur inc
              (lit "topic") post) as (_ & Hg & Hp & _).
  - right. by exists (lit "oneof secret {").
  - reflexivity.
  - split; [discriminate|reflexivity].
  - split; [discriminate|reflexivity].
  - reflexivity.
  - reflexivity.
  - right. by exists (lit "}").
  - reflexivity.
  - split.
    + etransitivity; [exact Hg|]. by vm_compute.
    + etransitivity; [exact Hp|]. by vm_compute.
Defined.

(** Whether a marker is found in a text put between a text that ends a
    line and a text that begins one. *)
Lemma startswith_before_line (t post : str) : forall m : str,
  nl ∉ t -> t <> [] -> at_line_end post ->
  startswith t (m ++ post) = startswith t m.
Proof.
  intros m. revert t. induction m as [|x m IH]; intros t Hnl Hne Hend.
  - destruct t as [|c t]; [done|]. simpl.
    destruct Hend as [->|[post' ->]]; [done|].
    destruct (ascii_eqb c nl) eqn:Hc; [|done].
    apply ascii_eqb_eq in Hc as ->. exfalso. apply Hnl. by left.
  - destruct t as [|c t]; [done|]. cbn [app startswith].
    destruct t as [|c' t]; [by destruct m, post|].
    rewrite IH; [done| |done|done].
    intros ?. apply Hnl. by right.
Qed.

Lemma contains_before_line (t post : str) : forall m : str,
  nl ∉ t -> t <> [] -> at_line_end post -> contains t post = false ->
  contains t (m ++ post) = contains t m.
Proof.
  intros m Hnl Hne Hend Hpost. induction m as [|x m IH].
  - change ([] ++ post) with post. rewrite Hpost. by destruct t.
  - change ((x :: m) ++ post) with (x :: (m ++ post)). cbn [contains].
    rewrite IH. f_equal.
    by apply (startswith_before_line t post (x :: m)).
Qed.

Lemma contains_after_line (t pre s : str) :
  nl ∉ t -> at_line_start pre -> contains t pre = false ->
  contains t (pre ++ s) = contains t s.
Proof.
  intros Hnl Hstart Hpre.
  assert (Hno : forall a b, pre = a ++ b -> b <> [] ->
            startswith t (b ++ s) = false).
  { intros a b Hab Hb. by apply (no_marker_from_pre t pre a). }
  clear Hstart Hpre. induction pre as [|c pre IH]; [done|].
  cbn [app contains]. pose proof (Hno [] (c :: pre) eq_refl) as H0.
  rewrite <- app_comm_cons in H0. rewrite H0 by done.
  apply IH. intros a b -> Hb. by apply (Hno (c :: a)).
Qed.

(** X4. On such a buffer the file is classified by the replacement text
    alone: not fully resolved when the current-side marker occurs in it,
    resolved otherwise, and in both cases the text obtained is the buffer
    with the replacement text in the place of the conflict. *)
Theorem single_conflict_outcome
    (o : gset str -> list str) (name pre ref1 cur inc ref2 post : str) :
  at_line_start pre -> contains marker_current pre = false ->
  is_label ref1 -> is_label ref2 ->
  contains (nl :: marker_separator) cur = false ->
  contains (nl :: marker_incoming) inc = false ->
  at_line_end post -> contains marker_current post = false ->
  let c := Conflict ref1 cur ref2 inc (conflict_text ref1 cur inc ref2) in
  let content := pre ++ conflict_text ref1 cur inc ref2 ++ post in
  let merged := merged_section_for o name c in
  resolve_file o name (Some content)
  = if contains marker_current merged
    then Unresolved (pre ++ merged ++ post)
    else Resolved (pre ++ merged ++ post).
Proof.
  intros Hstart Hpre L1 L2 Hcur Hinc Hend Hpost c content merged.
  assert (Hhas : has_merge_conflicts (Some content) = true).
  { unfold has_merge_conflicts, content, conflict_text.
    rewrite !andb_true_iff, !contains_iff. split; [split|].
    - exists pre. eexists. by norm_app.
    - exists (pre ++ marker_current ++ ref1 ++ nl :: cur ++ [nl]). eexists.
      by norm_app.
    - exists (pre ++ marker_current ++ ref1 ++ nl :: cur
              ++ (nl :: marker_separator ++ [nl]) ++ inc ++ [nl]). eexists.
      by norm_app. }
  assert (Hstrategy : apply_strategy o name content = pre ++ merged ++ post).
  { unfold apply_strategy, merged, merged_section_for, resolve_proto_conflict,
      resolve_go_conflict, resolve_generic_conflict, content.
    repeat case_bool_decide; by apply resolve_with_single. }
  unfold resolve_file. rewrite Hhas, Hstrategy. cbn [negb].
  rewrite contains_after_line, contains_before_line; try done;
    apply marker_current_no_nl.
Qed.

Lemma single_conflict_outcome_witness :
  let pre := text ["oneof secret {"; ""] in
  let post := text [""; "}"] in
  let cur := text ["  string Foo = 3;"; "  int Bar = 6;"] in
  let inc := lit "  string Foo = 5;" in
  let content := pre ++ conflict_text (lit "HEAD") cur inc (lit "topic") ++ post in
  resolve_file elements (lit "scan_result.proto") (Some content)
  = Resolved (text ["oneof secret {"; "  string Foo = 5;"; "    int Bar = 7;";
                    "}"]).
Proof.
  intros pre post cur inc content.
  etransitivity.
  - apply (single_conflict_outcome elements (lit "scan_result.proto") pre
             (lit "HEAD") cur inc (lit "topic") post).
    + right. by exists (lit "oneof secret {").
    + reflexivity.
    + split; [discriminate|reflexivity].
    + split; [discriminate|reflexivity].
    + reflexivity.
    + reflexivity.
    + right. by exists (lit "}").
    + reflexivity.
  - by vm_compute.
Defined.

End SingleConflict.

(** ** More on the schema-field strategy *)
Module SchemaMore.
Import StrFacts ReFacts ParserFacts SortFacts DecimalFacts SchemaFacts.

Lemma fold_written_lines (fields : list (str * str * N)) :
  Forall (fun f => is_identifier (fst (fst f)) /\ is_identifier (snd (fst f)))
    fields ->
  forall st : oneof_state,
    fold_left oneof_line
      (map (fun f => field_line (fst (fst f)) (snd (fst f)) (snd f)) fields) st
    = (fold_left (fun m f => <[snd (fst f) := (fst (fst f), snd f)]> m)
         fields (fst st),
       fold_left (fun k f => N.max k (snd f)) fields (snd st)).
Proof.
  induction 1 as [|[[t n] num] fields [Ht Hn] _ IH]; intros st.
  - by destruct st.
  - cbn [map fold_left fst snd].
    rewrite oneof_line_field_line by done. by rewrite IH.
Qed.

(** X5. A line that the resolver writes for a field is read back by
    [extract_oneof_entries] as that field: the lines written for a list of
    fields give the entries of the list, a later field taking the place of
    an earlier one of the same name, and the highest of their numbers. *)
Theorem written_lines_read_back (fields : list (str * str * N)) :
  fields <> [] ->
  Forall (fun f => is_identifier (fst (fst f)) /\ is_identifier (snd (fst f)))
    fields ->
  extract_oneof_entries
    (join_nl (map (fun f => field_line (fst (fst f)) (snd (fst f)) (snd f))
                fields))
  = (fold_left (fun m f => <[snd (fst f) := (fst (fst f), snd f)]> m) fields ∅,
     fold_left (fun k f => N.max k (snd f)) fields 0%N).
Proof.
  intros Hne Hok. unfold extract_oneof_entries.
  rewrite split_join_nl.
  - by rewrite fold_written_lines.
  - by destruct fields.
  - apply Forall_fmap. eapply Forall_impl; [exact Hok|].
    intros [[t n] num] [Ht Hn]. by apply nl_free_field_line.
Qed.

Lemma written_lines_read_back_witness :
  extract_oneof_entries
    (text ["    string Foo = 5;"; "    int Bar = 12;"; "    bytes Foo = 7;"])
  = ({[ lit "Foo" := (lit "bytes", 7%N); lit "Bar" := (lit "int", 12%N) ]},
     12%N).
Proof.
  etransitivity.
  - apply (written_lines_read_back
             [ (lit "string", lit "Foo", 5%N); (lit "int", lit "Bar", 12%N);
               (lit "bytes", lit "Foo", 7%N) ]).
    + discriminate.
    + repeat constructor; discriminate.
  - by vm_compute.
Defined.

Lemma oneof_line_empty_max (st : oneof_state) (line : str) :
  (fst st = ∅ -> snd st = 0%N) ->
  fst (oneof_line st line) = ∅ -> snd (oneof_line st line) = 0%N.
Proof.
  intros Hst. unfold oneof_line. destruct (_ || _); [done|].
  destruct (re_match field_pattern (strip line)); [|done].
  cbn [fst snd]. intros H. by apply insert_non_empty in H.
Qed.

(** X6. Whatever the text, [extract_oneof_entries] returns entries whose
    names and types are identifiers (at least one character, all of them
    word characters) and whose numbers are at most the [max_number]
    returned; with no entry, [max_number] is 0. *)
Theorem extract_oneof_entries_invariant (content : str) :
  (forall n t num,
     fst (extract_oneof_entries content) !! n = Some (t, num) ->
     is_identifier n /\ is_identifier t
     /\ (num <= snd (extract_oneof_entries content))%N)
  /\ (fst (extract_oneof_entries content) = ∅ ->
      snd (extract_oneof_entries content) = 0%N).
Proof.
  split; [apply extract_oneof_ok|].
  unfold extract_oneof_entries.
  assert (H0 : fst ((∅, 0%N) : oneof_state) = ∅ ->
               snd ((∅, 0%N) : oneof_state) = 0%N) by done.
  revert H0. generalize ((∅, 0%N) : oneof_state).
  induction (split_nl content) as [|l ls IH]; intros st Hst; [done|].
  simpl. apply IH. by apply oneof_line_empty_max.
Qed.

Lemma add_entries_dom ce (names : list str) :
  forall next (m : gmap str (str * N)),
    dom (add_entries ce names next m) = list_to_set names ∪ dom m.
Proof.
  induction names as [|n names IH]; intros next m; simpl.
  - by rewrite (left_id_L ∅ (∪)).
  - rewrite IH, dom_insert_L. by rewrite (assoc_L (∪)), (comm_L (∪) _ {[n]}).
Qed.

Lemma merged_entries_dom (o : gset str -> list str) (c : conflict) :
  set_order_ok o ->
  dom (merged_entries o c)
  = dom (current_entries c) ∪ dom (incoming_entries c).
Proof.
  intros Ho. rewrite (merged_entries_eq o c Ho), add_entries_dom.
  apply set_eq. intros n.
  rewrite !elem_of_union, elem_of_list_to_set, elem_of_sorted,
    elem_of_elements. unfold current_only. rewrite elem_of_difference.
  destruct (decide (n ∈ dom (incoming_entries c))); tauto.
Qed.

(** X7. The names of the entries of the replacement text are the names of
    the two sides, no more and no less; and a field that only the current
    side declares is there with the type of the current side and a number
    above every number of both sides. *)
Theorem merged_names_and_types (o : gset str -> list str) (c : conflict) :
  set_order_ok o ->
  dom (merged_entries o c)
  = dom (current_entries c) ∪ dom (incoming_entries c)
  /\ forall n t num,
       current_entries c !! n = Some (t, num) ->
       n ∉ dom (incoming_entries c) ->
       exists k, merged_entries o c !! n = Some (t, k)
                 /\ (N.max (incoming_max c) (current_max c) < k)%N.
Proof.
  intros Ho. split; [by apply merged_entries_dom|].
  intros n t num Hn Hnot.
  assert (Hin : n ∈ dom (merged_entries o c)).
  { rewrite merged_entries_dom by done. apply elem_of_union. left.
    apply elem_of_dom. eauto. }
  apply elem_of_dom in Hin as [v Hv]. rewrite Hv.
  rewrite (merged_entries_eq o c Ho) in Hv.
  apply add_entries_lookup in Hv as [[_ Hv]|(i & _ & ->)].
  - exfalso. apply Hnot, elem_of_dom. eauto.
  - unfold item. rewrite Hn. eexists. split; [done|]. lia.
Qed.

Lemma merged_names_and_types_witness :
  let c := Conflict (lit "HEAD") (text ["string Foo = 3;"; "int Bar = 6;"])
             (lit "topic") (lit "bytes Foo = 5;")
             (conflict_text (lit "HEAD")
                (text ["string Foo = 3;"; "int Bar = 6;"])
                (lit "bytes Foo = 5;") (lit "topic")) in
  dom (merged_entries elements c) = {[ lit "Foo"; lit "Bar" ]}
  /\ exists k, merged_entries elements c !! lit "Bar" = Some (lit "int", k)
               /\ (6 < k)%N.
Proof.
  intros c.
  destruct (merged_names_and_types elements c
              (fun X => reflexivity (elements X))) as [Hdom Hnew].
  split.
  - rewrite Hdom. by vm_compute.
  - destruct (Hnew (lit "Bar") (lit "int") 6%N) as (k & Hk & Hlt).
    + by vm_compute.
    + apply not_elem_of_dom. by vm_compute.
    + exists k. split; [exact Hk|]. exact Hlt.
Defined.

(** X8. Merging again changes nothing: with the replacement text as the
    incoming side and the same current side, the schema-field strategy
    gives that text back. *)
Theorem second_merge_changes_nothing
    (o : gset str -> list str) (c : conflict) :
  set_order_ok o ->
  proto_merged_section o
    (Conflict (current_ref c) (current_content c) (incoming_ref c)
       (proto_merged_section o c) (full_match c))
  = proto_merged_section o c.
Proof.
  intros Ho.
  pose proof (merged_entries_dom o c Ho) as Hdom.
  unfold merged_entries in Hdom.
  remember (proto_merged_section o c) as merged eqn:Hmerged.
  rewrite (proto_merged_section_eq o _ Ho).
  assert (Hnone : current_only
                    (Conflict (current_ref c) (current_content c)
                       (incoming_ref c) merged (full_match c)) = ∅).
  { unfold current_only, current_entries, incoming_entries.
    cbn [current_content incoming_content].
    apply subseteq_empty_difference_L. intros n Hn.
    rewrite Hdom. apply elem_of_union. by left. }
  rewrite Hnone, elements_empty. reflexivity.
Qed.

Lemma second_merge_changes_nothing_witness :
  let c := Conflict (lit "HEAD") (text ["string Foo = 3;"; "int Bar = 6;"])
             (lit "topic") (text ["bytes Foo = 5;"; ""])
             (conflict_text (lit "HEAD")
                (text ["string Foo = 3;"; "int Bar = 6;"])
                (text ["bytes Foo = 5;"; ""]) (lit "topic")) in
  proto_merged_section elements c = text ["bytes Foo = 5;"; "    int Bar = 7;"]
  /\ proto_merged_section elements
       (Conflict (current_ref c) (current_content c) (incoming_ref c)
          (proto_merged_section elements c) (full_match c))
     = proto_merged_section elements c.
Proof.
  intros c. split; [by vm_compute|].
  apply (second_merge_changes_nothing elements c). intros X. reflexivity.
Defined.

End SchemaMore.

(** ** The schema-field strategy: numbers and lines that do not count *)
Module SchemaNumbers.
Import StrFacts ReFacts ParserFacts SortFacts DecimalFacts SchemaFacts.

Lemma fold_additional_lines_max ce (names : list str) : forall next st,
  Forall (known ce) names ->
  snd (fold_left oneof_line (additional_lines ce names next) st)
  = match names with
    | [] => snd st
    | _ => N.max (snd st) (next + N.of_nat (length names) - 1)
    end.
Proof.
  induction names as [|n names IH]; intros next st Hk; [done|].
  apply Forall_cons in Hk as [[Hn Ht] Hk]. cbn [additional_lines fold_left].
  rewrite oneof_line_field_line by done. rewrite IH by done.
  destruct names as [|n' names]; cbn [snd length]; lia.
Qed.

(** X9. The [max_number] of the replacement text is the [max_number] of the
    incoming side when no field is added, and otherwise the highest number
    of both sides plus the number of fields added. *)
Theorem merged_max_number (o : gset str -> list str) (c : conflict) :
  set_order_ok o ->
  snd (extract_oneof_entries (proto_merged_section o c))
  = if bool_decide (current_only c = ∅) then incoming_max c
    else (N.max (incoming_max c) (current_max c)
          + N.of_nat (size (current_only c)))%N.
Proof.
  intros Ho. destruct (current_only_names o c Ho) as [_ Hknown].
  rewrite (proto_merged_section_eq o c Ho).
  assert (Hlen : length (sorted (elements (current_only c)))
                 = size (current_only c)).
  { by rewrite sorted_Permutation. }
  assert (Hnil : sorted (elements (current_only c)) = []
                 <-> current_only c = ∅).
  { split.
    - intros H. apply leibniz_equiv, size_empty_inv. by rewrite <- Hlen, H.
    - intros ->. by rewrite elements_empty. }
  set (names := sorted (elements (current_only c))) in *.
  set (next := (N.max (incoming_max c) (current_max c) + 1)%N).
  destruct (additional_lines (current_entries c) names next)
    as [|l ls] eqn:Hlines.
  - assert (names = []) as Hn by (by destruct names).
    rewrite bool_decide_eq_true_2 by (by apply Hnil). done.
  - assert (names <> []) as Hn by (by intros Hn; rewrite Hn in Hlines).
    rewrite bool_decide_eq_false_2 by (by intros ?%Hnil).
    rewrite extract_app_lines, extract_rstrip, <- Hlines; [|done|].
    + rewrite fold_additional_lines_max by done.
      destruct names as [|n names']; [done|]. rewrite <- Hlen.
      unfold next, incoming_max. cbn [length]. lia.
    + rewrite <- Hlines. by apply additional_lines_nl_free.
Qed.

Lemma merged_max_number_witness :
  let c := Conflict (lit "HEAD")
             (text ["string Foo = 3;"; "int Bar = 9;"; "bool Abc = 2;"])
             (lit "topic") (lit "bytes Foo = 5;")
             (conflict_text (lit "HEAD")
                (text ["string Foo = 3;"; "int Bar = 9;"; "bool Abc = 2;"])
                (lit "bytes Foo = 5;") (lit "topic")) in
  snd (extract_oneof_entries (proto_merged_section elements c)) = 11%N.
Proof.
  intros c. etransitivity.
  - apply (merged_max_number elements c). intros X. reflexivity.
  - by vm_compute.
Defined.

(** X10. White space at the end of a text, and a further line that is
    blank or a comment, add no entry and leave [max_number] as it is: a
    declaration that is commented out is not read. *)
Theorem blank_and_comment_lines_ignored (content w line : str) :
  (forallb is_space w = true ->
   extract_oneof_entries (content ++ w) = extract_oneof_entries content)
  /\ (nl_free line ->
      forallb is_space line = true
      \/ startswith (lit "//") (strip line) = true ->
      extract_oneof_entries (content ++ nl :: line)
      = extract_oneof_entries content).
Proof.
  split.
  - intros Hw. by apply fold_split_app_space.
  - intros Hfree Hline. unfold extract_oneof_entries.
    rewrite split_nl_app_nl, fold_left_app, (split_nl_nl_free line) by done.
    cbn [fold_left]. unfold oneof_line.
    destruct Hline as [Hsp|Hc].
    + apply strip_nil_iff in Hsp. by rewrite Hsp.
    + by rewrite Hc, orb_true_r.
Qed.

Lemma blank_and_comment_lines_ignored_witness :
  extract_oneof_entries (text ["string Foo = 3;"] ++ lit "   ")
  = extract_oneof_entries (text ["string Foo = 3;"])
  /\ extract_oneof_entries (text ["string Foo = 3;"; "  // int Bar = 4;"])
     = extract_oneof_entries (text ["string Foo = 3;"]).
Proof.
  split.
  - apply (proj1 (blank_and_comment_lines_ignored (text ["string Foo = 3;"])
                    (lit "   ") [])). reflexivity.
  - apply (proj2 (blank_and_comment_lines_ignored (text ["string Foo = 3;"])
                    [] (lit "  // int Bar = 4;"))).
    + reflexivity.
    + right. reflexivity.
Defined.

End SchemaNumbers.

(** ** What is extracted from source text *)
Module ExtractionFacts.
Import StrFacts ReFacts ParserFacts.

Lemma join_split_nl (s : str) : join_nl (split_nl s) = s.
Proof.
  induction s as [|c s IH]; [done|].
  destruct (ascii_eqb c nl) eqn:Hc.
  - apply ascii_eqb_eq in Hc as ->. cbn [split_nl]. rewrite ascii_eqb_refl.
    destruct (split_nl s) as [|l ls] eqn:Hs;
      [by apply split_nl_nonempty in Hs|].
    change (join_nl ([] :: l :: ls)) with (nl :: join_nl (l :: ls)).
    by rewrite IH.
  - destruct (split_nl_cons c s Hc) as (l & ls & Hs & ->).
    rewrite Hs in IH. rewrite <- IH. by destruct ls.
Qed.

Lemma lstrip_decomp (s : str) :
  exists w, s = w ++ lstrip s /\ forallb is_space w = true.
Proof.
  induction s as [|c s (w & Hs & Hw)]; [by exists []|].
  simpl. destruct (is_space c) eqn:Hc.
  - exists (c :: w). simpl. by rewrite Hc, Hw, <- Hs.
  - by exists [].
Qed.

Lemma strip_infix (l : str) : exists a b, l = a ++ strip l ++ b.
Proof.
  destruct (rstrip_decomp l) as (b & Hb & _).
  destruct (lstrip_decomp (rstrip l)) as (a & Ha & _).
  exists a, b. unfold strip. rewrite Hb at 1. rewrite Ha at 1.
  by rewrite <- app_assoc.
Qed.

Lemma contains_trans (p l s : str) :
  contains p l = true -> (exists a b, s = a ++ l ++ b) ->
  contains p s = true.
Proof.
  intros (x & y & ->)%contains_iff (a & b & ->). apply contains_iff.
  exists (a ++ x), (y ++ b). by rewrite <- !app_assoc.
Qed.

Lemma line_infix (l s : str) :
  l ∈ split_nl s -> exists a b, s = a ++ l ++ b.
Proof.
  intros Hl. apply contains_iff. rewrite <- (join_split_nl s) at 1.
  apply (contains_join_nl _ l); [done|]. apply contains_iff.
  exists [], []. by rewrite app_nil_r.
Qed.

Lemma search_from_sound r (m : rmatch_obj) : forall s p,
  search_from r p s = Some m ->
  exists a b, s = a ++ b /\ match_at r (p + length a) b = Some m.
Proof.
  induction s as [|c s IH]; intros p; simpl.
  - destruct (match_at r p []) eqn:Hm; [|done]. intros [= ->].
    exists [], []. by rewrite Nat.add_0_r.
  - destruct (match_at r p (c :: s)) eqn:Hm.
    + intros [= ->]. exists [], (c :: s). by rewrite Nat.add_0_r.
    + intros (a & b & -> & H)%IH. exists (c :: a), b. split; [done|].
      simpl. by replace (p + S (length a)) with (S p + length a) by lia.
Qed.

Lemma import_pattern_shape (r : regex) (q : nat) (b : str) (m : rmatch_obj) :
  r ∈ import_patterns -> match_at r q b = Some m -> quoted_in (group m 1) b.
Proof.
  intros Hr. unfold match_at. set (st := MState q b []).
  destruct (rmatch r st Some) as [e|] eqn:He; [|done].
  intros [= <-]. apply rmatch_sound in He as (e' & H & [= ->]).
  assert (Hne : forall w : str, 1 <= length w -> w <> []).
  { intros [|] ?; simpl in *; [lia|done]. }
  unfold import_patterns in Hr.
  apply elem_of_cons in Hr as [->|[->|[]%elem_of_nil]%elem_of_cons].
  - destruct H as (s1 & [_ ->] & s2 & H2 & s3 & [H3 C3]%Matches_Lit
      & s4 & H4 & [H5 C5]%Matches_Lit).
    apply Matches_Rep in H2 as (w & R2 & _ & _ & C2).
    apply Matches_Grp_Rep in H4 as (path & R4 & P4 & L4 & C4).
    unfold group; simpl. rewrite C5, C4. simpl.
    split; [auto|]. split; [done|]. exists w, (rest e).
    change b with (rest st). by rewrite R2, H3, R4, H5.
  - destruct H as (s1 & [_ ->] & s2 & H2 & s3 & H3 & s4 & H4
      & s5 & [H5 C5]%Matches_Lit & s6 & H6 & [H7 C7]%Matches_Lit).
    apply Matches_Rep in H2 as (w1 & R2 & _ & _ & C2).
    apply Matches_Rep in H3 as (w2 & R3 & _ & _ & C3).
    apply Matches_Rep in H4 as (w3 & R4 & _ & _ & C4).
    apply Matches_Grp_Rep in H6 as (path & R6 & P6 & L6 & C6).
    unfold group; simpl. rewrite C7, C6. simpl.
    split; [auto|]. split; [done|]. exists (w1 ++ w2 ++ w3), (rest e).
    change b with (rest st). rewrite R2, R3, R4, H5, R6, H7.
    by rewrite <- !app_assoc.
Qed.

Lemma first_import_shape (patterns : list regex) (line path : str) :
  (forall r, r ∈ patterns -> r ∈ import_patterns) ->
  first_import patterns line = Some path -> quoted_in path line.
Proof.
  induction patterns as [|r patterns IH]; intros Hsub; simpl; [done|].
  destruct (re_search r line) as [m|] eqn:Hm.
  - intros [= <-]. apply search_from_sound in Hm as (a & b & -> & Hm).
    apply import_pattern_shape in Hm as (Hne & Hq & x & y & ->);
      [|apply Hsub; by left].
    split; [done|]. split; [done|]. exists (a ++ x), y.
    by rewrite <- app_assoc.
  - apply IH. intros r' Hr'. apply Hsub. by right.
Qed.

Lemma add_import_elem (imports : gset str) (line path : str) :
  path ∈ add_import imports line ->
  path ∈ imports \/ quoted_in path line.
Proof.
  unfold add_import.
  destruct (first_import import_patterns line) as [p|] eqn:Hp; [|auto].
  intros [->%elem_of_singleton|?]%elem_of_union; [|auto].
  right. by apply (first_import_shape import_patterns).
Qed.

Lemma import_line_elem (st : import_state) (line path : str) :
  path ∈ fst (import_line st line) ->
  path ∈ fst st \/ quoted_in path (strip line).
Proof.
  unfold import_line. destruct st as [imports block]. cbn [fst].
  repeat (destruct (_ : bool); cbn [fst]; auto using add_import_elem).
Qed.

(** X11. Every import path that [extract_import_statements] returns has at
    least one character, holds no double quote, and stands between double
    quotes somewhere in the text. *)
Theorem import_paths_quoted_in_text (content path : str) :
  path ∈ extract_import_statements content ->
  path <> [] /\ (dquote ∉ path)
  /\ contains (dquote :: path ++ [dquote]) content = true.
Proof.
  unfold extract_import_statements.
  assert (Hlines : forall l, l ∈ split_nl content -> l ∈ split_nl content)
    by done.
  revert Hlines. generalize (split_nl content) at 1 3. intros ls.
  assert (H0 : forall p, p ∈ fst ((∅, false) : import_state) ->
            quoted_in p content) by (intros p ?; set_solver).
  revert H0. generalize ((∅, false) : import_state). 
  induction ls as [|l ls IH]; intros st Hst Hls; simpl.
  - intros (Hne & Hq & x & y & Hxy)%Hst. split; [done|]. split.
    + intros Hin. apply list_elem_of_In in Hin.
      rewrite forallb_forall in Hq. apply Hq in Hin.
      unfold not_char in Hin. by rewrite ascii_eqb_refl in Hin.
    + apply contains_iff. exists x, y. rewrite Hxy. by norm_app.
  - apply IH.
    + intros p [Hp|(Hne & Hq & x & y & Hxy)]%import_line_elem; [by apply Hst|].
      split; [done|]. split; [done|].
      destruct (strip_infix l) as (a & b & Hl).
      destruct (line_infix l content) as (a' & b' & Hc);
        [apply Hls; by left|].
      exists (a' ++ a ++ x), (y ++ b ++ b').
      rewrite Hc, Hl, Hxy. by norm_app.
    + intros l' Hl'. apply Hls. by right.
Qed.

Lemma import_paths_quoted_in_text_witness :
  let content :=
    join_nl [lit "import ("; lit "  alias " ++ dquote :: lit "a/b" ++ [dquote];
             lit ")"] in
  lit "a/b" <> [] /\ (dquote ∉ lit "a/b")
  /\ contains (dquote :: lit "a/b" ++ [dquote]) content = true.
Proof.
  apply (import_paths_quoted_in_text
           (join_nl [lit "import (";
                     lit "  alias " ++ dquote :: lit "a/b" ++ [dquote];
                     lit ")"]) (lit "a/b")).
  by vm_compute.
Defined.

End ExtractionFacts.

(** ** The cases read from source text *)
Module CaseFacts.
Import StrFacts ReFacts ParserFacts.

Lemma lstrip_idem (s : str) : lstrip (lstrip s) = lstrip s.
Proof.
  induction s as [|c s IH]; [done|]. simpl.
  destruct (is_space c) eqn:Hc; [done|]. simpl. by rewrite Hc.
Qed.

Lemma rstrip_idem (s : str) : rstrip (rstrip s) = rstrip s.
Proof.
  induction s as [|c s IH]; [done|]. simpl.
  destruct (rstrip s) as [|d t] eqn:Ht.
  - destruct (is_space c) eqn:Hc; [done|]. simpl. by rewrite Hc.
  - change (rstrip (c :: d :: t)) with
      (match rstrip (d :: t) with
       | [] => if is_space c then [] else [c]
       | t' => c :: t'
       end).
    by rewrite IH.
Qed.

Lemma rstrip_lstrip (s : str) : rstrip (lstrip s) = lstrip (rstrip s).
Proof.
  induction s as [|c s IH]; [done|].
  change (lstrip (c :: s)) with (if is_space c then lstrip s else c :: s).
  change (rstrip (c :: s)) with
    (match rstrip s with
     | [] => if is_space c then [] else [c]
     | t => c :: t
     end).
  destruct (is_space c) eqn:Hc.
  - rewrite IH. destruct (rstrip s) as [|d t]; [done|].
    change (lstrip (c :: d :: t)) with
      (if is_space c then lstrip (d :: t) else c :: d :: t).
    by rewrite Hc.
  - change (rstrip (c :: s)) with
      (match rstrip s with
       | [] => if is_space c then [] else [c]
       | t => c :: t
       end).
    rewrite Hc. destruct (rstrip s) as [|d t]; simpl; by rewrite Hc.
Qed.

Lemma strip_idem (s : str) : strip (strip s) = strip s.
Proof.
  unfold strip. by rewrite rstrip_lstrip, rstrip_idem, lstrip_idem.
Qed.

Lemma forallb_lstrip (p : ascii -> bool) (s : str) :
  forallb p s = true -> forallb p (lstrip s) = true.
Proof.
  induction s as [|c s IH]; [done|]. simpl.
  destruct (is_space c); [|done]. intros [_ H]%andb_prop. auto.
Qed.

Lemma forallb_rstrip (p : ascii -> bool) (s : str) :
  forallb p s = true -> forallb p (rstrip s) = true.
Proof.
  intros H. destruct (rstrip_decomp s) as (w & Hs & _).
  rewrite Hs, forallb_app in H. by apply andb_prop in H as [H _].
Qed.

Lemma forallb_strip (p : ascii -> bool) (s : str) :
  forallb p s = true -> forallb p (strip s) = true.
Proof. intros H. by apply forallb_lstrip, forallb_rstrip. Qed.

Lemma case_match_shape (q : nat) (b : str) (m : rmatch_obj) :
  match_at case_pattern q b = Some m ->
  case_in (group m 1) (group m 2) b.
Proof.
  unfold match_at. set (st := MState q b []).
  destruct (rmatch case_pattern st Some) as [e|] eqn:He; [|done].
  intros [= <-]. apply rmatch_sound in He as (e' & H & [= ->]).
  destruct H as (s1 & [H1 C1]%Matches_Lit & s2 & H2 & s3 & [H3 C3]%Matches_Lit
    & s4 & H4 & s5 & [H5 C5]%Matches_Lit & s6 & H6
    & s7 & [H7 C7]%Matches_Lit & s8 & H8 & [_ ->]).
  apply Matches_Rep in H2 as (w & R2 & P2 & _ & C2).
  apply Matches_Rep in H4 as (qual & R4 & P4 & _ & C4).
  apply Matches_Grp_Rep in H6 as (raw & R6 & P6 & L6 & C6).
  apply Matches_Grp_Rep in H8 as (body & R8 & _ & _ & C8).
  unfold group; simpl. rewrite C8, C7, C6. simpl.
  exists [], w, qual, (rest s8).
  change b with (rest st). rewrite H1, R2, H3, R4, H5, R6, H7, R8.
  split; [by norm_app|]. repeat split; [done..|].
  intros ->. simpl in L6. lia.
Qed.

Lemma case_in_later (raw_type raw_body a b : str) :
  case_in raw_type raw_body b -> case_in raw_type raw_body (a ++ b).
Proof.
  intros (pre & w & qual & post & -> & ?). exists (a ++ pre), w, qual, post.
  split; [by rewrite <- app_assoc|done].
Qed.

Lemma switch_cases_from_text (content : str) (ms : list rmatch_obj)
    (cases : gmap str str) (t code : str) :
  (forall m, m ∈ ms -> case_in (group m 1) (group m 2) content) ->
  (forall t code, cases !! t = Some code ->
     exists raw_type raw_body,
       case_in raw_type raw_body content /\ t = strip raw_type
       /\ code = case_code t (strip raw_body)) ->
  fold_left switch_case ms cases !! t = Some code ->
  exists raw_type raw_body,
    case_in raw_type raw_body content /\ t = strip raw_type
    /\ code = case_code t (strip raw_body).
Proof.
  revert cases. induction ms as [|m ms IH]; intros cases Hms Hc; simpl.
  - apply Hc.
  - apply IH.
    + intros m' Hm'. apply Hms. by right.
    + intros t' code'. unfold switch_case.
      destruct (decide (t' = strip (group m 1))) as [->|Hne].
      * rewrite lookup_insert_eq. intros [= <-].
        exists (group m 1), (group m 2). split; [|done]. apply Hms. by left.
      * rewrite lookup_insert_ne by done. apply Hc.
Qed.

(** X12. Every entry of the dictionary of cases comes from a case in the
    text: the key is the trimmed type tag that stands between the dot and
    the colon, so it holds no colon and no white space at either end, and
    the value is the case re-emitted with the trimmed body that follows the
    colon. *)
Theorem switch_cases_come_from_text (content t code : str) :
  extract_switch_cases content !! t = Some code ->
  (colon ∉ t) /\ strip t = t
  /\ exists raw_type raw_body,
       case_in raw_type raw_body content
       /\ t = strip raw_type
       /\ code = case_code t (strip raw_body).
Proof.
  intros H.
  apply (switch_cases_from_text content) in H
    as (raw_type & raw_body & Hin & -> & ->).
  - split; [|split; [apply strip_idem|by exists raw_type, raw_body]].
    destruct Hin as (_ & _ & _ & _ & _ & _ & _ & Hraw & _).
    apply (forallb_strip (not_char colon)) in Hraw.
    intros Hc%list_elem_of_In. rewrite forallb_forall in Hraw.
    apply Hraw in Hc. unfold not_char in Hc. by rewrite ascii_eqb_refl in Hc.
  - intros m (a & b & q & -> & Hm)%finditer_from_elem.
    by apply case_in_later, (case_match_shape q).
  - intros ?? Hl. by rewrite lookup_empty in Hl.
Qed.

Lemma switch_cases_come_from_text_witness :
  let content := text ["switch v := s.(type) {"; "case *other.Bar :";
                       "  return 1"; "}"] in
  (colon ∉ lit "Bar") /\ strip (lit "Bar") = lit "Bar"
  /\ exists raw_type raw_body,
       case_in raw_type raw_body content
       /\ lit "Bar" = strip raw_type
       /\ text ["case *spb.Bar:"; "return 1"; "}"]
          = case_code (lit "Bar") (strip raw_body).
Proof.
  apply (switch_cases_come_from_text
           (text ["switch v := s.(type) {"; "case *other.Bar :";
                  "  return 1"; "}"])
           (lit "Bar") (text ["case *spb.Bar:"; "return 1"; "}"])).
  by vm_compute.
Defined.

End CaseFacts.

(** ** The lines of the status *)
Module StatusFacts.
Import Orchestrator StrFacts.

Lemma split_from_words (s : str) : forall word,
  forallb no_space word = true ->
  Forall (fun t => t <> [] /\ forallb no_space t = true) (split_from word s).
Proof.
  induction s as [|c s IH]; intros word Hw; simpl.
  - destruct word; [constructor|]. by repeat constructor.
  - destruct (is_space c) eqn:Hc.
    + destruct word; [by apply IH|]. constructor; [done|by apply IH].
    + apply IH. rewrite forallb_app, Hw. unfold no_space. simpl. by rewrite Hc.
Qed.

Lemma split_from_space (s : str) :
  forallb is_space s = true -> split_from [] s = [].
Proof.
  induction s as [|c s IH]; [done|]. simpl.
  intros [-> H]%andb_prop. auto.
Qed.

(** The last word, when there is one: it begins with the word read so far
    and ends the text but for white space, or it stands later in the text,
    after white space. *)
Lemma last_split_from (s : str) : forall word,
  word <> [] \/ forallb is_space s = false ->
  exists p w,
    last (split_from word s) = Some p /\ forallb is_space w = true
    /\ ((exists u, p = word ++ u /\ s = u ++ w)
        \/ exists pre c, is_space c = true /\ s = (pre ++ [c]) ++ p ++ w).
Proof.
  induction s as [|c s IH]; intros word Hw.
  - destruct Hw as [Hw|?]; [|done]. exists word, []. simpl.
    destruct word; [done|]. split; [done|]. split; [done|]. left.
    exists []. by rewrite app_nil_r.
  - simpl. destruct (is_space c) eqn:Hc.
    + destruct (forallb is_space s) eqn:Hs.
      * destruct Hw as [Hw|Hw]; [|by simpl in Hw; rewrite Hc, Hs in Hw].
        rewrite split_from_space by done. exists word, (c :: s).
        destruct word; [done|]. split; [done|]. simpl. rewrite Hc, Hs.
        split; [done|]. left. exists []. by rewrite app_nil_r.
      * destruct (IH []) as (p & w & Hl & Hsp & Hp); [by right|].
        exists p, w. split.
        { destruct word; [done|]. by rewrite last_cons, Hl. }
        split; [done|]. right.
        destruct Hp as [(u & -> & ->)|(pre & d & Hd & ->)].
        -- by exists [], c.
        -- exists (c :: pre), d. by split.
    + destruct (IH (word ++ [c])) as (p & w & Hl & Hsp & Hp).
      { left. by destruct word. }
      exists p, w. split; [done|]. split; [done|].
      destruct Hp as [(u & -> & ->)|(pre & d & Hd & ->)].
      * left. exists (c :: u). by rewrite <- app_assoc.
      * right. exists (c :: pre), d. by split.
Qed.

Lemma last_split (line : str) :
  forallb is_space line = false ->
  exists p, last (split line) = Some p /\ last_word p line.
Proof.
  intros Hl. destruct (last_split_from line []) as (p & w & Hp & Hw & Hs);
    [by right|].
  exists p. split; [done|].
  assert (Hin : p ∈ split line).
  { apply last_Some in Hp as [l' Hp]. unfold split. rewrite Hp.
    apply elem_of_app. right. by left. }
  pose proof (split_from_words line [] eq_refl) as Hall.
  rewrite Forall_forall in Hall. destruct (Hall p Hin) as [Hne Hns].
  split; [done|]. split; [done|].
  destruct Hs as [(u & -> & ->)|(pre & c & Hc & ->)].
  - exists [], w. auto.
  - exists (pre ++ [c]), w. split; [done|]. split; [done|]. right. eauto.
Qed.

Lemma contains_has_word (p s : str) :
  forallb is_space p = false -> contains p s = true ->
  forallb is_space s = false.
Proof.
  intros Hp (a & b & ->)%contains_iff.
  rewrite !forallb_app, Hp. by rewrite andb_false_r.
Qed.

Lemma is_conflicted_has_word (line : str) :
  is_conflicted line = true -> forallb is_space line = false.
Proof.
  unfold is_conflicted.
  intros [[H|H]%orb_prop|H]%orb_prop.
  - apply startswith_inv in H as ->. done.
  - apply startswith_inv in H as ->. done.
  - by apply (contains_has_word (lit "both modified")).
Qed.

(** X13. Reading the status never fails: every conflicted line has a last
    word, and the paths taken are these last words, one for each conflicted
    line and in the order of the lines.  So a path is never empty and holds
    no white space; of a path written with a blank, only the last word is
    taken. *)
Theorem conflicted_paths_last_words (status : str) :
  exists paths,
    conflicted_paths (split_nl status) = Some paths
    /\ Forall2 last_word paths (List.filter is_conflicted (split_nl status)).
Proof.
  induction (split_nl status) as [|line lines (paths & IH & Hall)]; simpl.
  - by exists [].
  - destruct (is_conflicted line) eqn:Hc; [|by exists paths].
    destruct (last_split line) as (p & -> & Hp);
      [by apply is_conflicted_has_word|].
    exists (p :: paths). rewrite IH. split; [done|]. by constructor.
Qed.

End StatusFacts.

(** ** The run over the conflicted files *)
Module RunFacts.
Import Orchestrator StrFacts.

Lemma resolve_file_Resolved o (name : str) (file : option str) (t : str) :
  resolve_file o name file = Resolved t ->
  contains marker_current t = false /\ is_Some file.
Proof.
  unfold resolve_file. destruct file as [c|]; [|done].
  destruct (negb _); [done|].
  destruct (contains marker_current _) eqn:Hm; [done|].
  intros [= <-]. eauto.
Qed.

Lemma resolve_file_marker_free o (name t : str) :
  contains marker_current t = false ->
  resolve_file o name (Some t) = NoMarkers.
Proof. intros H. unfold resolve_file, has_merge_conflicts. by rewrite H. Qed.

Lemma resolve_step_dry (env : environment) (st : files * list str) (f : str) :
  fst (resolve_step env true st f) = fst st.
Proof.
  unfold resolve_step. destruct st as [fs res].
  by destruct (resolve_file _ _ _).
Qed.

Lemma fold_resolve_step_dry (env : environment) (l : list str) : forall st,
  fst (fold_left (resolve_step env true) l st) = fst st.
Proof.
  induction l as [|f l IH]; intros st; simpl; [done|].
  by rewrite IH, resolve_step_dry.
Qed.

(** X14. A dry run leaves every file as it is and runs no command but the
    status; it returns False only when the status could not be read. *)
Theorem dry_run_changes_nothing (env : environment) (fs : files) (r : run) :
  resolve_all_conflicts env true fs = Some r ->
  final_files r = fs /\ commands r = [GitStatus]
  /\ returned r = fst (git_status env).
Proof.
  unfold resolve_all_conflicts.
  destruct (fst (git_status env)); simpl; [|by intros [= <-]].
  destruct (conflicted_files env) as [[|f l]|]; [by intros [= <-]| |done].
  destruct (negb (forallb _ _)); [done|].
  pose proof (fold_resolve_step_dry env (f :: l) (fs, [])) as Hfs.
  unfold resolve_files. destruct (fold_left _ _ _) as [fs' res].
  simpl in Hfs. subst fs'. rewrite andb_false_r. simpl.
  destruct res; by intros [= <-].
Qed.

Lemma dry_run_changes_nothing_witness :
  let env := flat_repo (lit "UU a.txt") in
  let fs : files :=
    {[ lit "a.txt"
       := conflict_text (lit "HEAD") (lit "x") (lit "y") (lit "topic") ]} in
  exists r, resolve_all_conflicts env true fs = Some r
            /\ final_files r = fs /\ commands r = [GitStatus]
            /\ returned r = true.
Proof.
  intros env fs. eexists. split; [by vm_compute|].
  apply (dry_run_changes_nothing env fs). by vm_compute.
Defined.

(** What a step leaves alone. *)
Lemma resolve_step_frame (env : environment) (dry : bool)
    (st : files * list str) (f q : str) :
  q <> f -> backup_path env f <> Some q ->
  fst (resolve_step env dry st f) !! q = fst st !! q.
Proof.
  intros Hq Hb. unfold resolve_step. destruct st as [fs res].
  destruct (resolve_file _ _ _); [done..|].
  destruct dry; [done|].
  destruct (backup_path env f) as [b|]; [|done].
  unfold rename. destruct (fs !! f) as [c|]; [|done].
  unfold write_text. simpl.
  rewrite lookup_insert_ne by done.
  rewrite lookup_insert_ne by congruence.
  by rewrite lookup_delete_ne.
Qed.

Lemma resolve_files_frame (env : environment) (dry : bool) (l : list str)
    (q : str) : forall st,
  (forall f, f ∈ l -> q <> f /\ backup_path env f <> Some q) ->
  fst (fold_left (resolve_step env dry) l st) !! q = fst st !! q.
Proof.
  induction l as [|f l IH]; intros st Hq; simpl; [done|].
  rewrite IH by (intros g Hg; apply Hq; by right).
  apply resolve_step_frame; apply Hq; by left.
Qed.

(** The files of a run are those of the loop, or those at the start. *)
Lemma run_files (env : environment) (dry : bool) (fs : files) (r : run) :
  resolve_all_conflicts env dry fs = Some r ->
  final_files r = fs
  \/ exists l, conflicted_files env = Some l
               /\ fst (git_status env) = true
               /\ final_files r = fst (resolve_files env dry l fs).
Proof.
  unfold resolve_all_conflicts.
  destruct (fst (git_status env)); simpl; [|intros [= <-]; by left].
  destruct (conflicted_files env) as [[|f l]|]; [intros [= <-]; by left| |done].
  destruct (negb (forallb _ _)); [done|].
  intros H. right. exists (f :: l). split; [done|]. split; [done|].
  destruct (resolve_files env dry (f :: l) fs) as [fs' res]. simpl.
  destruct (_ && negb (protoc_ok env)); [by injection H as <-|].
  destruct res; [by injection H as <-|].
  destruct dry; [by injection H as <-|].
  destruct (mapM _ _); [by injection H as <-|done].
Qed.

(** X15. A run touches no file but the conflicted files and their backups:
    every other path holds at the end what it held at the start. *)
Theorem other_files_untouched (env : environment) (dry : bool)
    (fs : files) (r : run) (q : str) :
  resolve_all_conflicts env dry fs = Some r ->
  (forall l f, conflicted_files env = Some l -> f ∈ l ->
     q <> f /\ backup_path env f <> Some q) ->
  final_files r !! q = fs !! q.
Proof.
  intros [->|(l & Hl & _ & ->)]%run_files Hq; [done|].
  unfold resolve_files. rewrite resolve_files_frame; [done|].
  intros f Hf. by apply (Hq l).
Qed.

Lemma other_files_untouched_witness :
  let env := flat_repo (lit "UU a.txt") in
  let fs : files :=
    {[ lit "a.txt"
       := conflict_text (lit "HEAD") (lit "x") (lit "y") (lit "topic") ]} in
  exists r, resolve_all_conflicts env false fs = Some r
            /\ final_files r !! lit "b.txt" = fs !! lit "b.txt".
Proof.
  intros env fs. eexists. split; [by vm_compute|].
  apply (other_files_untouched env false fs); [by vm_compute|].
  intros l f Hl Hf. vm_compute in Hl. injection Hl as <-.
  apply list_elem_of_singleton in Hf as ->. split; [discriminate|].
  simpl. discriminate.
Defined.

Lemma resolve_step_no_marker (env : environment) (dry : bool) (fs0 : files)
    (st : files * list str)
    (f : str) :
  (forall q t, fst st !! q = Some t -> contains marker_current t = true ->
     exists p, fs0 !! p = Some t) ->
  forall q t, fst (resolve_step env dry st f) !! q = Some t ->
    contains marker_current t = true -> exists p, fs0 !! p = Some t.
Proof.
  intros Hst q t. unfold resolve_step. destruct st as [fs res].
  destruct (resolve_file _ _ _) as [| |r] eqn:Hr; [apply Hst..|].
  destruct dry; [apply Hst|].
  destruct (backup_path env f) as [b|]; [|apply Hst].
  unfold rename. destruct (fs !! f) as [c|] eqn:Hc; [|apply Hst].
  unfold write_text. simpl.
  apply resolve_file_Resolved in Hr as [Hr _].
  destruct (decide (q = f)) as [->|Hqf].
  { rewrite lookup_insert_eq. intros [= <-]. congruence. }
  rewrite lookup_insert_ne by done.
  destruct (decide (q = b)) as [->|Hqb].
  { rewrite lookup_insert_eq. intros [= <-]. by apply (Hst f). }
  rewrite lookup_insert_ne, lookup_delete_ne by done. apply Hst.
Qed.

Lemma resolve_files_no_marker (env : environment) (dry : bool) (fs0 : files)
    (l : list str) :
  forall st,
  (forall q t, fst st !! q = Some t -> contains marker_current t = true ->
     exists p, fs0 !! p = Some t) ->
  forall q t, fst (fold_left (resolve_step env dry) l st) !! q = Some t ->
    contains marker_current t = true -> exists p, fs0 !! p = Some t.
Proof.
  induction l as [|f l IH]; intros st Hst; simpl; [done|].
  apply IH. by apply resolve_step_no_marker.
Qed.

(** X16. The resolver writes no text that holds the current-side marker: a
    file that holds it at the end holds a text that some file held at the
    start. *)
Theorem marked_text_is_original (env : environment) (dry : bool)
    (fs : files) (r : run) (q t : str) :
  resolve_all_conflicts env dry fs = Some r ->
  final_files r !! q = Some t -> contains marker_current t = true ->
  exists p, fs !! p = Some t.
Proof.
  intros [->|(l & _ & _ & ->)]%run_files; [eauto|].
  apply resolve_files_no_marker. eauto.
Qed.

Lemma marked_text_is_original_witness :
  let env := flat_repo (lit "UU a.txt") in
  let t := marker_current ++ lit "HEAD" in
  let fs : files := {[ lit "a.txt" := t ]} in
  exists p, fs !! p = Some t.
Proof.
  intros env t fs.
  apply (marked_text_is_original env false fs
           (Run true fs [GitStatus; GitAdd [lit "a.txt"]]) (lit "a.txt") t);
    by vm_compute.
Defined.

Lemma separate_backups_tail (env : environment) (f : str) (l : list str) :
  separate_backups env (f :: l) -> separate_backups env l.
Proof.
  intros (Hnd & Hb & Hi). split; [by apply NoDup_cons in Hnd as [_ ?]|].
  split.
  - intros g h Hg Hh. apply Hb; by right.
  - intros g h b Hg Hh. apply Hi; by right.
Qed.

(** One step, from the outcome of the file. *)
Lemma resolve_step_files (env : environment) (fs : files) (res : list str)
    (f : str) :
  match file_outcome env fs f, backup_path env f with
  | Resolved t, Some b =>
      exists c, fs !! f = Some c
                /\ resolve_step env false (fs, res) f
                   = (<[f := t]> (<[b := c]> (delete f fs)), res ++ [f])
  | _, _ => fst (resolve_step env false (fs, res) f) = fs
  end.
Proof.
  unfold file_outcome, resolve_step.
  destruct (resolve_file _ _ _) as [| |t] eqn:Hr; [done..|].
  destruct (backup_path env f) as [b|]; [|done].
  apply resolve_file_Resolved in Hr as [_ [c Hc]].
  exists c. split; [done|]. unfold rename. by rewrite Hc.
Qed.

Lemma resolve_files_separate (env : environment) (l : list str) : forall fs res,
  separate_backups env l ->
  forall f, f ∈ l ->
    let fs1 := fst (fold_left (resolve_step env false) l (fs, res)) in
    match file_outcome env fs f, backup_path env f with
    | Resolved t, Some b => fs1 !! f = Some t /\ fs1 !! b = fs !! f
    | _, _ => fs1 !! f = fs !! f
    end.
Proof.
  induction l as [|g l IH]; intros fs res Hsep f Hf;
    [by apply elem_of_nil in Hf|].
  pose proof (separate_backups_tail _ _ _ Hsep) as Hsep'.
  destruct Hsep as (Hnd & Hb & Hi). apply NoDup_cons in Hnd as [Hgl Hnd].
  cbn [fold_left].
  destruct (resolve_step env false (fs, res) g) as [fs' res'] eqn:Hstep.
  apply elem_of_cons in Hf as [->|Hf].
  - (* the file of this step: the later steps leave it and its backup *)
    assert (Hg : forall fs1, fs1 = fst (fold_left (resolve_step env false) l
                                          (fs', res')) ->
              fs1 !! g = fs' !! g).
    { intros fs1 ->. rewrite resolve_files_frame; [done|].
      intros h Hh. split; [by intros ->|]. apply Hb; [by right|by left]. }
    pose proof (resolve_step_files env fs res g) as Hs.
    destruct (file_outcome env fs g) as [| |t];
      [rewrite Hstep in Hs; simpl in Hs; subst fs'; by apply Hg..|].
    destruct (backup_path env g) as [b|] eqn:Hbg;
      [|rewrite Hstep in Hs; simpl in Hs; subst fs'; by apply Hg].
    destruct Hs as (c & Hc & Hs). rewrite Hstep in Hs. injection Hs as -> ->.
    assert (Hbg' : b <> g).
    { intros ->. by apply (Hb g g); [left|left|]. }
    simpl. split.
    + rewrite Hg by done. by rewrite lookup_insert_eq.
    + rewrite resolve_files_frame.
      * simpl. rewrite lookup_insert_ne by done.
        by rewrite lookup_insert_eq.
      * intros h Hh. split.
        -- intros ->. apply (Hb g h); [by left|by right|done].
        -- intros Hbh. apply Hgl.
           rewrite (Hi g h b); [done|by left|by right|done..].
  - (* a later file: this step leaves it *)
    assert (Hfg : fs' !! f = fs !! f).
    { change fs' with (fst (fs', res')). rewrite <- Hstep.
      apply resolve_step_frame.
      - intros ->. done.
      - apply Hb; [by left|by right]. }
    specialize (IH fs' res' Hsep' f Hf). simpl in IH. simpl.
    unfold file_outcome in *. rewrite Hfg in IH. exact IH.
Qed.

(** X17. When the conflicted files and their backups are all different
    paths, a run that is not a dry run leaves every conflicted file as the
    loop decides from its text at the start: a file that is resolved and has
    a backup path holds the resolved text, and its backup holds the text it
    had; every other conflicted file is as it was. *)
Theorem conflicted_files_rewritten (env : environment) (fs : files) (r : run)
    (l : list str) (f : str) :
  resolve_all_conflicts env false fs = Some r ->
  fst (git_status env) = true ->
  conflicted_files env = Some l ->
  separate_backups env l ->
  f ∈ l ->
  match file_outcome env fs f, backup_path env f with
  | Resolved t, Some b =>
      final_files r !! f = Some t /\ final_files r !! b = fs !! f
  | _, _ => final_files r !! f = fs !! f
  end.
Proof.
  intros Hr Hok Hl Hsep Hf.
  assert (Hfs : final_files r = fst (resolve_files env false l fs)).
  { revert Hr. unfold resolve_all_conflicts. rewrite Hok, Hl. simpl.
    destruct l as [|g l]; [by apply elem_of_nil in Hf|].
    destruct (negb (forallb _ _)); [done|].
    destruct (resolve_files env false (g :: l) fs) as [fs' res]. simpl.
    destruct (_ && negb (protoc_ok env)); [by intros [= <-]|].
    destruct res; [by intros [= <-]|].
    destruct (mapM _ _); [by intros [= <-]|done]. }
  rewrite Hfs. by apply resolve_files_separate.
Qed.

Lemma conflicted_files_rewritten_witness :
  let env := flat_repo (lit "UU a.txt") in
  let original :=
    conflict_text (lit "HEAD") (lit "x") (lit "y") (lit "topic") in
  let fs : files := {[ lit "a.txt" := original ]} in
  exists r, resolve_all_conflicts env false fs = Some r
            /\ final_files r !! lit "a.txt" = Some (text ["y"; "x"])
            /\ final_files r !! lit "a.txt.backup" = Some original.
Proof.
  intros env original fs. eexists. split; [by vm_compute|].
  apply (conflicted_files_rewritten env fs _ [lit "a.txt"] (lit "a.txt"));
    [by vm_compute|done|by vm_compute| |by left].
  split; [apply NoDup_singleton|]. split.
  - intros f g ->%list_elem_of_singleton ->%list_elem_of_singleton.
    simpl. discriminate.
  - by intros f g b ->%list_elem_of_singleton ->%list_elem_of_singleton.
Defined.

Lemma resolve_files_fixed (env : environment) (fs : files) (l : list str) :
  forall res,
  (forall f res, f ∈ l -> fst (resolve_step env false (fs, res) f) = fs) ->
  fst (fold_left (resolve_step env false) l (fs, res)) = fs.
Proof.
  induction l as [|f l IH]; intros res Hl; cbn [fold_left]; [done|].
  destruct (resolve_step env false (fs, res) f) as [fs' res'] eqn:Hstep.
  assert (fs' = fs) as ->.
  { change fs' with (fst (fs', res')). rewrite <- Hstep. apply Hl. by left. }
  apply IH. intros g res0 Hg. apply Hl. by right.
Qed.

(** X18. Under the same condition, going over the conflicted files a second
    time rewrites nothing: the files that the first pass wrote hold no
    marker any more, and the other ones are decided as before. *)
Theorem second_pass_changes_nothing (env : environment) (fs : files)
    (l : list str) :
  separate_backups env l ->
  let fs1 := fst (resolve_files env false l fs) in
  fst (resolve_files env false l fs1) = fs1.
Proof.
  intros Hsep fs1. unfold resolve_files at 1. apply resolve_files_fixed.
  intros f res Hf.
  pose proof (resolve_files_separate env l fs [] Hsep f Hf) as Hspec.
  fold (resolve_files env false l fs) in Hspec. fold fs1 in Hspec.
  simpl in Hspec.
  pose proof (resolve_step_files env fs1 res f) as Hstep.
  destruct (file_outcome env fs f) as [| |t] eqn:Ho.
  - unfold file_outcome in *. rewrite Hspec, Ho in Hstep. done.
  - unfold file_outcome in *. rewrite Hspec, Ho in Hstep. done.
  - destruct (backup_path env f) as [b|] eqn:Hb.
    + destruct Hspec as [Hf1 _]. unfold file_outcome in Hstep.
      apply resolve_file_Resolved in Ho as [Ho _].
      rewrite Hf1, (resolve_file_marker_free _ _ _ Ho) in Hstep. done.
    + unfold file_outcome in *. rewrite Hspec, Ho in Hstep. done.
Qed.

Lemma second_pass_changes_nothing_witness :
  let env := flat_repo (lit "UU a.txt") in
  let original :=
    conflict_text (lit "HEAD") (lit "x") (lit "y") (lit "topic") in
  let fs : files := {[ lit "a.txt" := original ]} in
  let fs1 := fst (resolve_files env false [lit "a.txt"] fs) in
  fs1 !! lit "a.txt" = Some (text ["y"; "x"])
  /\ fst (resolve_files env false [lit "a.txt"] fs1) = fs1.
Proof.
  intros env original fs. split; [by vm_compute|].
  apply (second_pass_changes_nothing env fs [lit "a.txt"]).
  split; [apply NoDup_singleton|]. split.
  - intros f g ->%list_elem_of_singleton ->%list_elem_of_singleton.
    simpl. discriminate.
  - by intros f g b ->%list_elem_of_singleton ->%list_elem_of_singleton.
Defined.

End RunFacts.

(** ** Single import lines *)
Module ImportLines.
Import StrFacts ReFacts ParserFacts ReSteps SchemaFacts ExtractionFacts.

(** A run of a class is read in one way only. *)
Lemma span_unique (p : ascii -> bool) (u v x y : str) :
  forallb p u = true -> forallb p v = true -> stops p x -> stops p y ->
  u ++ x = v ++ y -> u = v /\ x = y.
Proof.
  revert v. induction u as [|c u IH]; intros [|d v] Hu Hv Hx Hy; simpl.
  - done.
  - intros ->. simpl in Hx. apply andb_prop in Hv as [Hd _]. congruence.
  - intros <-. simpl in Hy. apply andb_prop in Hu as [Hc _]. congruence.
  - intros [= -> H]. apply andb_prop in Hu as [_ Hu].
    apply andb_prop in Hv as [_ Hv].
    destruct (IH v Hu Hv Hx Hy H) as [-> ->]. done.
Qed.

Lemma space_not_word (c : ascii) : is_space c = true -> is_word c = false.
Proof.
  intros Hc. destruct (is_word c) eqn:Hw; [|done].
  apply word_not_space in Hw. congruence.
Qed.

Lemma step_bol (st : mstate) k : pos st = 0 -> rmatch Bol st k = k st.
Proof. intros H. simpl. by rewrite H. Qed.

(** A match of an import pattern starts the line. *)
Lemma import_match_start (r : regex) (q : nat) (b : str) (m : rmatch_obj) :
  r ∈ import_patterns -> match_at r q b = Some m -> q = 0.
Proof.
  intros Hr. unfold match_at. set (st := MState q b []).
  destruct (rmatch r st Some) as [e|] eqn:He; [|done].
  intros _. apply rmatch_sound in He as (e' & H & _).
  unfold import_patterns in Hr.
  apply elem_of_cons in Hr as [->|[->|[]%elem_of_nil]%elem_of_cons];
    by destruct H as (s1 & [H0 _] & _).
Qed.

Lemma search_import_start (r : regex) (line : str) (m : rmatch_obj) :
  r ∈ import_patterns -> re_search r line = Some m ->
  match_at r 0 line = Some m.
Proof.
  intros Hr (a & b & -> & Hm)%search_from_sound.
  pose proof (import_match_start r _ _ _ Hr Hm) as Ha.
  destruct a; [done|simpl in Ha; lia].
Qed.

(** The first pattern wants white space and a quote at the start. *)
Lemma direct_import_none (c : ascii) (t : str) :
  is_space c = false -> c <> dquote ->
  re_search (cat [ Bol; star is_space; Lit [dquote];
                   Grp 1 (plus (not_char dquote)); Lit [dquote] ]) (c :: t)
  = None.
Proof.
  intros Hc Hq. destruct (re_search _ _) as [m|] eqn:Hm; [|done].
  apply search_import_start in Hm; [|by left].
  revert Hm. unfold match_at. set (st := MState 0 (c :: t) []).
  destruct (rmatch _ st Some) as [e|] eqn:He; [|done].
  intros _. apply rmatch_sound in He as (e' & H & _).
  destruct H as (s1 & [_ ->] & s2 & H2 & s3 & [H3 _]%Matches_Lit & _).
  apply Matches_Rep in H2 as (w & R2 & P2 & _ & _).
  rewrite H3 in R2. simpl in R2.
  destruct w as [|d w]; simpl in R2; injection R2 as -> _; [done|].
  simpl in P2. by rewrite Hc in P2.
Qed.

(** The second pattern reads the word "import", white space and the quoted
    path. *)
Lemma aliased_pattern_import (ws path rest : str) :
  forallb is_space ws = true ->
  path <> [] -> forallb (not_char dquote) path = true ->
  exists m,
    re_search (cat [ Bol; star is_space; plus is_word; plus is_space;
                     Lit [dquote]; Grp 1 (plus (not_char dquote));
                     Lit [dquote] ])
      (lit "import " ++ ws ++ dquote :: path ++ dquote :: rest) = Some m
    /\ group m 1 = path.
Proof.
  intros Hws Hne Hp.
  set (line := lit "import " ++ ws ++ dquote :: path ++ dquote :: rest).
  cut (exists e, rmatch (cat [ Bol; star is_space; plus is_word; plus is_space;
                               Lit [dquote]; Grp 1 (plus (not_char dquote));
                               Lit [dquote] ]) (MState 0 line []) Some = Some e
                 /\ caps e = [(1, path)]).
  { intros (e & He & Hcaps). unfold re_search.
    change (search_from ?r 0 line)
      with (match match_at r 0 line with
            | Some m => Some m
            | None => search_from r 1 (tl line)
            end).
    unfold match_at. rewrite He. eexists. split; [done|].
    unfold group. cbn [m_groups]. by rewrite Hcaps. }
  eexists. split; [|shelve].
  cbn [cat]. rewrite step_seq. rewrite step_bol by done.
  rewrite step_seq.
  eapply (step_rep is_space 0 [] line); [done|done|done|simpl; lia|].
  rewrite step_seq.
  eapply (step_rep is_word 1 (lit "import")
            (lit " " ++ ws ++ dquote :: path ++ dquote :: rest));
    [done|done|done|simpl; lia|].
  rewrite step_seq.
  eapply (step_rep is_space 1 (lit " " ++ ws)
            (dquote :: path ++ dquote :: rest)).
  - by rewrite <- app_assoc.
  - by rewrite forallb_app, Hws.
  - done.
  - simpl. lia.
  - rewrite step_seq.
    rewrite (step_lit [dquote] (path ++ dquote :: rest)) by done.
    rewrite step_seq.
    eapply (step_grp_rep 1 (not_char dquote) 1 path (dquote :: rest)).
    + done.
    + done.
    + done.
    + destruct path; [done|simpl; lia].
    + rewrite (step_lit [dquote] rest) by done. reflexivity.
  Unshelve. reflexivity.
Qed.

(** Without a quote after "import" and white space, the second pattern
    reads nothing. *)
Lemma aliased_pattern_none (ws more : str) (c : ascii) :
  forallb is_space ws = true -> is_space c = false -> c <> dquote ->
  re_search (cat [ Bol; star is_space; plus is_word; plus is_space;
                   Lit [dquote]; Grp 1 (plus (not_char dquote));
                   Lit [dquote] ])
    (lit "import " ++ ws ++ c :: more) = None.
Proof.
  intros Hws Hc Hq. destruct (re_search _ _) as [m|] eqn:Hm; [|done].
  apply search_import_start in Hm; [|right; by left].
  revert Hm. unfold match_at.
  set (st := MState 0 (lit "import " ++ ws ++ c :: more) []).
  destruct (rmatch _ st Some) as [e|] eqn:He; [|done].
  intros _. apply rmatch_sound in He as (e' & H & _).
  destruct H as (s1 & [_ ->] & s2 & H2 & s3 & H3 & s4 & H4
    & s5 & [H5 _]%Matches_Lit & _).
  apply Matches_Rep in H2 as (w & R2 & P2 & _ & _).
  apply Matches_Rep in H3 as (word & R3 & P3 & L3 & _).
  apply Matches_Rep in H4 as (sp & R4 & P4 & L4 & _).
  rewrite H5 in R4. rewrite R4 in R3. rewrite R3 in R2. clear H5 R3 R4.
  change (rest st) with (lit "import" ++ lit " " ++ ws ++ c :: more) in R2.
  destruct w as [|d w]; [|injection R2 as Hd _; by subst d].
  simpl in R2.
  destruct sp as [|s0 sp]; [simpl in L4; lia|].
  pose proof P4 as P4'. simpl in P4'. apply andb_prop in P4' as [Hs0 _].
  destruct (span_unique is_word (lit "import") word
              (lit " " ++ ws ++ c :: more)
              ((s0 :: sp) ++ [dquote] ++ rest s5)) as [<- Hrest];
    [done|done|done|by apply space_not_word|done|].
  destruct (span_unique is_space (lit " " ++ ws) (s0 :: sp)
              (c :: more) ([dquote] ++ rest s5)) as [_ Hq'];
    [by rewrite forallb_app, Hws|done|done|done|by rewrite <- app_assoc|].
  injection Hq' as -> _. done.
Qed.

Lemma not_import_block (c : ascii) (t : str) :
  c <> ascii_of_nat 40 ->
  startswith (lit "import (") (lit "import " ++ c :: t) = false.
Proof.
  intros Hc. destruct (startswith _ _) eqn:H; [|done].
  apply startswith_inv in H. simpl in H. by injection H as ->.
Qed.

(** X19. A line that holds "import" and a quoted path directly after it,
    with white space in between, gives its path.  A line that begins with
    "import " and goes on with anything but white space and a quote gives no
    path: the path of a single import line with an alias, a dot or an
    underscore before the quote is not read. *)
Theorem single_import_lines
    (st : import_state) (line ws path rest : str) (c : ascii) :
  forallb is_space ws = true ->
  (strip line = lit "import " ++ ws ++ dquote :: path ++ dquote :: rest ->
   path <> [] -> forallb (not_char dquote) path = true ->
   import_line st line = ({[ path ]} ∪ fst st, snd st))
  /\ (strip line = lit "import " ++ ws ++ c :: rest ->
      is_space c = false -> c <> dquote ->
      fst (import_line st line) = fst st).
Proof.
  intros Hws. destruct st as [imports block]. split.
  - intros Hl Hne Hp. unfold import_line. rewrite Hl.
    assert (Hnb : startswith (lit "import (")
                    (lit "import " ++ ws ++ dquote :: path ++ dquote :: rest)
                  = false).
    { destruct ws as [|s ws]; apply not_import_block; [done|].
      intros ->. done. }
    rewrite Hnb, bool_decide_eq_false_2 by done.
    rewrite startswith_app. cbn [andb fst snd].
    unfold add_import, import_patterns. cbn [first_import].
    change (lit "import " ++ ws ++ dquote :: path ++ dquote :: rest)
      with (ascii_of_nat 105
              :: lit "mport " ++ ws ++ dquote :: path ++ dquote :: rest) at 1.
    rewrite direct_import_none by done.
    by destruct (aliased_pattern_import ws path rest Hws Hne Hp)
      as (m & -> & ->).
  - intros Hl Hc Hq. unfold import_line. rewrite Hl.
    destruct (startswith (lit "import (") _); [done|].
    rewrite bool_decide_eq_false_2 by done.
    rewrite startswith_app. cbn [andb fst].
    unfold add_import, import_patterns. cbn [first_import].
    change (lit "import " ++ ws ++ c :: rest)
      with (ascii_of_nat 105 :: lit "mport " ++ ws ++ c :: rest) at 1.
    rewrite direct_import_none by done.
    by rewrite aliased_pattern_none.
Qed.

Lemma single_import_lines_witness :
  let st : import_state := (∅, false) in
  (import_line st (lit "import " ++ dquote :: lit "a/b" ++ [dquote])
   = ({[ lit "a/b" ]} ∪ ∅, false))
  /\ fst (import_line st (lit "import x " ++ dquote :: lit "a/b" ++ [dquote]))
     = ∅.
Proof.
  intros st.
  destruct (single_import_lines st
              (lit "import " ++ dquote :: lit "a/b" ++ [dquote])
              [] (lit "a/b") [] (ascii_of_nat 120) eq_refl) as [H1 _].
  destruct (single_import_lines st
              (lit "import x " ++ dquote :: lit "a/b" ++ [dquote])
              [] [] (lit " " ++ dquote :: lit "a/b" ++ [dquote])
              (ascii_of_nat 120) eq_refl) as [_ H2].
  split; [by apply H1|by apply H2].
Defined.

End ImportLines.
